(** * SPARTA [read_isurf]: implicit surfaces from grid corner values

    A shallow embedding of the surface-extraction code of [ReadISurf]
    (corner ingestion, marching squares, the Lewiner marching-cubes tests,
    point generation and the face cleanup [cleanup_MC]) together with the
    properties its specification states about it.

    Conventions of the embedding.
    - C [int] and [bigint] values are [Z]; array indices and counters that
      the code only ever increments from zero are [nat].
    - C [double] values are the type [double] below: finite values are exact
      rationals, and division by zero yields the IEEE infinities and NaN,
      which propagate and compare as in IEEE 754.  Rounding, overflow and
      the sign of zero are not modelled.
    - [error->all] and [error->one] abort the run; they are the [Err]
      results of the [result] type.
    - Arrays are lists, read with [!!] and written with [<[ i := x ]>]. *)

From Stdlib Require Import ZArith QArith Qcanon Lia Lqa.
From stdpp Require Import base option list gmap numbers.

Set Default Proof Using "Type".

(** ** Idealised doubles *)

Module Dbl.

Inductive double : Type :=
| Fin (q : Qc)
| PInf
| NInf
| NaN.

Definition of_Qc (q : Qc) : double := Fin q.
Definition of_int (z : Z) : double := Fin (Qc_of_Z z).

Definition zero : double := of_int 0.
Definition one : double := of_int 1.

(** Sign of a value that is not NaN, as a comparison with zero. *)
Definition sign (x : double) : comparison :=
  match x with
  | Fin q => (q ?= 0)%Qc
  | PInf => Gt
  | NInf => Lt
  | NaN => Eq
  end.

Definition sign_mul (a b : comparison) : comparison :=
  match a, b with
  | Eq, _ | _, Eq => Eq
  | Gt, Gt | Lt, Lt => Gt
  | _, _ => Lt
  end.

(** The infinity of a given sign; a zero sign stands for the invalid
    operations (0/0, 0*inf), whose result is NaN. *)
Definition inf_of (s : comparison) : double :=
  match s with Gt => PInf | Lt => NInf | Eq => NaN end.

Definition neg (x : double) : double :=
  match x with
  | Fin q => Fin (- q)
  | PInf => NInf
  | NInf => PInf
  | NaN => NaN
  end.

Definition add (x y : double) : double :=
  match x, y with
  | NaN, _ | _, NaN => NaN
  | Fin a, Fin b => Fin (a + b)
  | PInf, NInf | NInf, PInf => NaN
  | PInf, _ | _, PInf => PInf
  | NInf, _ | _, NInf => NInf
  end.

Definition sub (x y : double) : double := add x (neg y).

Definition mul (x y : double) : double :=
  match x, y with
  | NaN, _ | _, NaN => NaN
  | Fin a, Fin b => Fin (a * b)
  | _, _ => inf_of (sign_mul (sign x) (sign y))
  end.

(** A zero divisor is the positive zero: every zero divisor of the code
    either comes from an [int] or leads to the same branch for both
    signs. *)
Definition div (x y : double) : double :=
  match x, y with
  | NaN, _ | _, NaN => NaN
  | Fin a, Fin b =>
      if decide (b = 0%Qc) then inf_of (a ?= 0)%Qc else Fin (a / b)
  | Fin _, _ => Fin 0
  | _, Fin b =>
      if decide (b < 0)%Qc then neg x else x
  | _, _ => NaN
  end.

Definition ltb (x y : double) : bool :=
  match x, y with
  | NaN, _ | _, NaN => false
  | Fin a, Fin b => bool_decide (a < b)%Qc
  | NInf, NInf | PInf, _ | _, NInf => false
  | NInf, _ | _, PInf => true
  end.

Definition leb (x y : double) : bool :=
  match x, y with
  | NaN, _ | _, NaN => false
  | Fin a, Fin b => bool_decide (a ≤ b)%Qc
  | NInf, _ | _, PInf => true
  | PInf, _ | _, NInf => false
  end.

Definition eqb (x y : double) : bool :=
  match x, y with
  | Fin a, Fin b => bool_decide (a = b)
  | PInf, PInf | NInf, NInf => true
  | _, _ => false
  end.

Definition gtb (x y : double) : bool := ltb y x.
Definition geb (x y : double) : bool := leb y x.

Definition fabs (x : double) : double :=
  match x with
  | Fin q => Fin (if decide (q < 0)%Qc then - q else q)
  | PInf | NInf => PInf
  | NaN => NaN
  end.

Definition is_fin (x : double) : Prop :=
  match x with Fin _ => True | _ => False end.

End Dbl.

Import Dbl.

Declare Scope dbl_scope.
Delimit Scope dbl_scope with D.
Bind Scope dbl_scope with double.
Infix "+" := add : dbl_scope.
Infix "-" := sub : dbl_scope.
Infix "*" := mul : dbl_scope.
Infix "/" := div : dbl_scope.
Notation "- x" := (neg x) : dbl_scope.
Infix "=?" := eqb : dbl_scope.
Infix "<?" := ltb : dbl_scope.
Infix "<=?" := leb : dbl_scope.
Infix ">?" := gtb : dbl_scope.
Infix ">=?" := geb : dbl_scope.

(** A point [double[3]]. *)
Record point : Type := Pt { px : double; py : double; pz : double }.

(** Order goals on canonical rationals, through linear arithmetic on [Q]. *)
Ltac qc_order :=
  repeat match goal with
         | |- @eq double (Fin _) (Fin _) => f_equal
         | |- @eq Qc _ _ => apply Qc_is_canon
         end;
  unfold Qclt, Qcle, Qcminus, Qcopp, Qcplus, Qcmult, Q2Qc in *; cbn [this] in *;
  repeat match goal with
         | H : context [Qred ?q] |- _ => rewrite (Qred_correct q) in H
         | |- context [Qred ?q] => rewrite (Qred_correct q)
         end;
  lra.

(** ** Results of code that may abort *)

Inductive error : Type :=
| BoundaryNotZero     (* "Grid boundary value != 0" *)
| NonPairedFace       (* "Some cell faces do not have zero or 2 triangles" *)
| InvalidNeighbor     (* "Invalid neighbor cell in cleanup_MC()" *)
| MissingSurfOnCell   (* "Could not find surf in cleanup_MC" *)
| InvalidFace         (* "Invalid face code" *)
| Uninitialized       (* a local variable read before any assignment *)
| OutOfBounds.        (* an array index outside its array *)

Inductive result (A : Type) : Type :=
| Ok (a : A)
| Err (e : error).
Arguments Ok {A} a.
Arguments Err {A} e.

Global Instance result_ret : MRet result := @Ok.
Global Instance result_bind : MBind result := fun A B k r =>
  match r with Ok a => k a | Err e => Err e end.
Global Instance result_fmap : FMap result := fun A B f r =>
  match r with Ok a => Ok (f a) | Err e => Err e end.

(** ** The edge interpolator *)

(** Modelled from the spec: the [MAX] and [MIN] macros, which [pointers.h]
    defines and which are not among the sources; they are the comparison
    macros [((A) > (B) ? (A) : (B))] and [((A) < (B) ? (A) : (B))] that give
    the clamping the specification describes. *)
Definition MAX (a b : double) : double := if (a >? b)%D then a else b.
Definition MIN (a b : double) : double := if (a <? b)%D then a else b.

Definition interpolate (thresh : double) (v0 v1 : Z) (lo hi : double) : double :=
  let value := (lo + (hi - lo) * (thresh - of_int v0) / of_int (v1 - v0))%D in
  let value := MAX value lo in
  let value := MIN value hi in
  value.

(** The clamping of the specification, on rationals. *)
Definition clamp (lo hi x : Qc) : Qc :=
  if decide (x < lo)%Qc then lo else if decide (hi < x)%Qc then hi else x.

(** ** Marching squares *)

Module Squares.
Local Open Scope Z_scope.

(** One grid cell of the 2-D group: its four corner values, ordered
    lower-left, lower-right, upper-left, upper-right ([Vyx]), and its
    bounds. *)
Record Square : Type := {
  v00 : Z; v01 : Z; v10 : Z; v11 : Z;
  lo : double * double;
  hi : double * double
}.

Section cell.
Variable thresh : double.
Variable s : Square.

(** [v <= thresh ? 0 : 1] *)
Definition bit_of (v : Z) : Z := if (of_int v <=? thresh)%D then 0 else 1.

Definition bit0 : Z := bit_of (v00 s).
Definition bit1 : Z := bit_of (v01 s).
Definition bit2 : Z := bit_of (v11 s).
Definition bit3 : Z := bit_of (v10 s).

Definition which : Z :=
  Z.shiftl bit3 3 + Z.shiftl bit2 2 + Z.shiftl bit1 1 + bit0.

Definition ave : double :=
  (Fin (Q2Qc (1 # 4)) * of_int (v00 s + v01 s + v10 s + v11 s))%D.

Let interp := interpolate thresh.
Let lo0 := fst (lo s).
Let lo1 := snd (lo s).
Let hi0 := fst (hi s).
Let hi1 := snd (hi s).

(** The four points a segment can end on, one per edge of the cell, as
    the [switch] writes them; [pt[.][2]] is always [0.0]. *)
Definition pt_left : point := Pt lo0 (interp (v00 s) (v10 s) lo1 hi1) zero.
Definition pt_bottom : point := Pt (interp (v00 s) (v01 s) lo0 hi0) lo1 zero.
Definition pt_right : point := Pt hi0 (interp (v01 s) (v11 s) lo1 hi1) zero.
Definition pt_top : point := Pt (interp (v10 s) (v11 s) lo0 hi0) hi1 zero.

(** The body of the [switch (which)]: [nsurf], [splitflag] and the
    entries of [pt] that the case assigns, in index order. *)
Definition switch_which : nat * Z * list point :=
  match which with
  | 0 => (0%nat, 0, [])
  | 1 => (1%nat, 0, [pt_left; pt_bottom])
  | 2 => (1%nat, 0, [pt_bottom; pt_right])
  | 3 => (1%nat, 0, [pt_left; pt_right])
  | 4 => (1%nat, 0, [pt_right; pt_top])
  | 5 =>
      if (ave >? thresh)%D
      then (2%nat, 1, [pt_left; pt_top; pt_right; pt_bottom])
      else (2%nat, 0, [pt_left; pt_bottom; pt_right; pt_top])
  | 6 => (1%nat, 0, [pt_bottom; pt_top])
  | 7 => (1%nat, 0, [pt_left; pt_top])
  | 8 => (1%nat, 0, [pt_top; pt_left])
  | 9 => (1%nat, 0, [pt_top; pt_bottom])
  | 10 =>
      if (ave >? thresh)%D
      then (2%nat, 1, [pt_bottom; pt_left; pt_top; pt_right])
      else (2%nat, 0, [pt_top; pt_left; pt_bottom; pt_right])
  | 11 => (1%nat, 0, [pt_top; pt_right])
  | 12 => (1%nat, 0, [pt_right; pt_left])
  | 13 => (1%nat, 0, [pt_right; pt_bottom])
  | 14 => (1%nat, 0, [pt_bottom; pt_left])
  | 15 => (0%nat, 0, [])
  | _ => (0%nat, 0, [])      (* not reached: [which] is a 4-bit value *)
  end.

(** The loop [for (i = 0; i < nsurf; i++) add_line(..,pt[ipt],pt[ipt+1])]:
    the segments handed to the surface registry, in emission order. *)
Fixpoint add_lines (nsurf : nat) (pt : list point) : list (point * point) :=
  match nsurf, pt with
  | S n, p :: q :: rest => (p, q) :: add_lines n rest
  | _, _ => []
  end.

Definition marching_squares_cell : list (point * point) :=
  let '(nsurf, _, pt) := switch_which in add_lines nsurf pt.

(** *** The two pairings of a saddle cell, in the words of the
    specification *)

(** A segment cuts a corner off when it joins the crossings on the two
    cell edges that meet at that corner. *)
Inductive corner : Type := C00 | C01 | C10 | C11.

Definition corner_value (c : corner) : Z :=
  match c with C00 => v00 s | C01 => v01 s | C10 => v10 s | C11 => v11 s end.

Definition corner_crossings (c : corner) : point * point :=
  match c with
  | C00 => (pt_left, pt_bottom)
  | C01 => (pt_bottom, pt_right)
  | C10 => (pt_left, pt_top)
  | C11 => (pt_right, pt_top)
  end.

Definition cuts_off (c : corner) (seg : point * point) : Prop :=
  seg = corner_crossings c ∨ seg = (snd (corner_crossings c), fst (corner_crossings c)).

Definition inside (c : corner) : Prop := (of_int (corner_value c) <=? thresh)%D = false.

(** The inside region is connected through the cell centre: the two
    segments cut off the two corners that are not inside. *)
Definition connected_pair (segs : list (point * point)) : Prop :=
  ∃ c c' seg seg', segs = [seg; seg'] ∧ c ≠ c' ∧
    ¬ inside c ∧ ¬ inside c' ∧ cuts_off c seg ∧ cuts_off c' seg'.

(** The inside corners are separated: the two segments cut off the two
    inside corners. *)
Definition separated_pair (segs : list (point * point)) : Prop :=
  ∃ c c' seg seg', segs = [seg; seg'] ∧ c ≠ c' ∧
    inside c ∧ inside c' ∧ cuts_off c seg ∧ cuts_off c' seg'.

End cell.

(** The saddle of the specification's example: equal opposite corners
    [200, 100] average above the threshold 127.5, [200, 0] below. *)
Definition saddle_above : Square :=
  {| v00 := 200; v01 := 100; v10 := 100; v11 := 200;
     lo := (zero, zero); hi := (one, one) |}.
Definition saddle_below : Square :=
  {| v00 := 200; v01 := 0; v10 := 0; v11 := 200;
     lo := (zero, zero); hi := (one, one) |}.

End Squares.

(** ** Corner ingestion *)

Module Ingest.
Local Open Scope Z_scope.

(** The extents of the grid block and the dimension of the run. *)
Record Lattice : Type := { dimension : Z; nx : Z; ny : Z; nz : Z }.

Definition INT_MAX : Z := 2147483647.

(** Two's-complement wrap-around of a 32-bit [int] result. *)
Definition wrap_int (z : Z) : Z := (z + 2 ^ 31) mod 2 ^ 32 - 2 ^ 31.

Section assign.
Variable L : Lattice.
(** [hash]: from the index of a cell in the block to the local cell. *)
Variable hash : gmap Z nat.

(** [pix], [piy], [piz] of a point index; [(nx+1)*(ny+1)] is an [int]
    product. *)
Definition pix (pointindex : Z) : Z := Z.rem pointindex (nx L + 1).
Definition piy (pointindex : Z) : Z :=
  Z.rem (Z.quot pointindex (nx L + 1)) (ny L + 1).
Definition piz (pointindex : Z) : Z :=
  Z.quot pointindex (wrap_int ((nx L + 1) * (ny L + 1))).

(** The test that ends in [error->all(FLERR,"Grid boundary value != 0")]:
    the value of [zeroflag] behind the guard [if (buf[i])]. *)
Definition zeroflag (pointindex : Z) : bool :=
  let f := false in
  let f := if bool_decide (pix pointindex = 0) || bool_decide (piy pointindex = 0)
           then true else f in
  let f := if bool_decide (pix pointindex = nx L) || bool_decide (piy pointindex = ny L)
           then true else f in
  let f := if bool_decide (dimension L = 3) &&
              (bool_decide (piz pointindex = 0) || bool_decide (piz pointindex = nz L))
           then true else f in
  f.

Definition boundary_error (pointindex v : Z) : bool :=
  if bool_decide (v ≠ 0) then zeroflag pointindex else false.

(** The cells that share a corner point, in loop order, each with the
    value [ncorner] has when the loop body reaches it. *)
Definition corner_cells_3d (x y z : Z) : list (Z * Z * Z * nat) :=
  imap (fun k c => (c, (7 - k)%nat))
    (ciz ← [z - 1; z]; ciy ← [y - 1; y]; cix ← [x - 1; x]; [(cix, ciy, ciz)]).

Definition corner_cells_2d (x y : Z) : list (Z * Z * Z * nat) :=
  imap (fun k c => (c, (3 - k)%nat))
    (ciy ← [y - 1; y]; cix ← [x - 1; x]; [(cix, ciy, 0)]).

(** One pass of the innermost loop body of the 3-D branch: skip cells
    outside the block and cells this process does not own, else store the
    value. *)
Definition store_corner_3d (v : Z) (cvalues : list (list Z))
    (c : Z * Z * Z * nat) : list (list Z) :=
  let '(cix, ciy, ciz, ncorner) := c in
  if bool_decide (cix < 0 ∨ nx L ≤ cix ∨ ciy < 0 ∨ ny L ≤ ciy ∨
                  ciz < 0 ∨ nz L ≤ ciz)
  then cvalues
  else
    let cellindex := nx L * ny L * ciz + nx L * ciy + cix in
    match hash !! cellindex with
    | None => cvalues
    | Some icell => alter (fun cv => <[ncorner := v]> cv) icell cvalues
    end.

(** The same for the 2-D branch. *)
Definition store_corner_2d (v : Z) (cvalues : list (list Z))
    (c : Z * Z * Z * nat) : list (list Z) :=
  let '(cix, ciy, _, ncorner) := c in
  if bool_decide (cix < 0 ∨ nx L ≤ cix ∨ ciy < 0 ∨ ny L ≤ ciy)
  then cvalues
  else
    let cellindex := nx L * ciy + cix in
    match hash !! cellindex with
    | None => cvalues
    | Some icell => alter (fun cv => <[ncorner := v]> cv) icell cvalues
    end.

Definition store_point (pointindex v : Z) (cvalues : list (list Z)) : list (list Z) :=
  if bool_decide (dimension L = 3)
  then foldl (store_corner_3d v) cvalues
         (corner_cells_3d (pix pointindex) (piy pointindex) (piz pointindex))
  else foldl (store_corner_2d v) cvalues
         (corner_cells_2d (pix pointindex) (piy pointindex)).

(** The loop over the samples [buf[0..n-1]] of one chunk, [pointindex]
    being [offset + i]. *)
Fixpoint assign_loop (pointindex : Z) (buf : list Z) (cvalues : list (list Z))
  : result (list (list Z)) :=
  match buf with
  | [] => Ok cvalues
  | v :: buf' =>
      if boundary_error pointindex v then Err BoundaryNotZero
      else assign_loop (pointindex + 1) buf' (store_point pointindex v cvalues)
  end.

Definition assign_corners (n : nat) (offset : Z) (buf : list Z)
    (cvalues : list (list Z)) : result (list (list Z)) :=
  assign_loop offset (take n buf) cvalues.

(** *** The lattice of the specification *)

(** The sample with lattice coordinates [(x, y, z)] in the x-fastest
    order of the file. *)
Definition lattice_index (x y z : Z) : Z :=
  x + (nx L + 1) * (y + (ny L + 1) * z).

Definition in_lattice (x y z : Z) : Prop :=
  0 ≤ x ≤ nx L ∧ 0 ≤ y ≤ ny L ∧
  (if bool_decide (dimension L = 3) then 0 ≤ z ≤ nz L else z = 0).

Definition on_boundary (x y z : Z) : Prop :=
  x = 0 ∨ x = nx L ∨ y = 0 ∨ y = ny L ∨
  (dimension L = 3 ∧ (z = 0 ∨ z = nz L)).

(** Extents the code can work with: positive, and one layer of corner
    points is counted by an [int]. *)
Definition extents_ok : Prop :=
  0 < nx L ∧ 0 < ny L ∧ 0 < nz L ∧ (nx L + 1) * (ny L + 1) ≤ INT_MAX.

(** The number of samples [read_corners] passes through its chunks. *)
Definition ncorners : Z :=
  if bool_decide (dimension L = 3)
  then (nx L + 1) * (ny L + 1) * (nz L + 1)
  else (nx L + 1) * (ny L + 1) * nz L.

End assign.
End Ingest.

(** A 2 x 2 x 2 block of cells owned by one process: 27 corner samples. *)
Definition block222 : Ingest.Lattice :=
  {| Ingest.dimension := 3; Ingest.nx := 2; Ingest.ny := 2; Ingest.nz := 2 |}.
Definition block222_hash : gmap Z nat :=
  list_to_map (imap (fun k c => (c, k)) [0; 1; 2; 3; 4; 5; 6; 7]%Z).
Definition block222_cvalues : list (list Z) := replicate 8 (replicate 8 0%Z).

(** ** Face cleanup after marching cubes: [cleanup_MC] *)

Module Cleanup.

(** Modelled from the spec: the triangle record [Surf::Tri]; [surf.h] is
    not among the sources.  It holds what the specification lists for an
    emitted primitive: the owning cell ID, the material label, the group
    mask bits, the three corner points and the normal. *)
Record Tri : Type := mkTri {
  id : Z;
  type : Z;
  mask : Z;
  p1 : point;
  p2 : point;
  p3 : point;
  norm : point
}.

Definition set_id (cid : Z) (t : Tri) : Tri :=
  {| id := cid; type := type t; mask := mask t;
     p1 := p1 t; p2 := p2 t; p3 := p3 t; norm := norm t |}.

(** The fields of [Grid::ChildCell] that [cleanup_MC] reads and writes.
    [csurfs] is the array the cell points to, of which the first [nsurf]
    entries are the cell's triangles. *)
Record ChildCell : Type := mkCell {
  cell_id : Z;
  proc : Z;
  ilocal : nat;
  nsplit : Z;
  nsurf : nat;
  csurfs : list nat;
  nmask : Z;
  neigh : list nat;
  lo : point;
  hi : point
}.

Definition set_csurfs (n : nat) (ptr : list nat) (c : ChildCell) : ChildCell :=
  {| cell_id := cell_id c; proc := proc c; ilocal := ilocal c;
     nsplit := nsplit c; nsurf := n; csurfs := ptr; nmask := nmask c;
     neigh := neigh c; lo := lo c; hi := hi c |}.

(** The triangles of a cell: [csurfs[0 .. nsurf-1]]. *)
Definition surfs (c : ChildCell) : list nat := take (nsurf c) (csurfs c).

(** One entry of the send buffer ([SendDatum] of [read_isurf.h]), with the
    fields the code assigns. *)
Record SendDatum : Type := mkDatum {
  sendcell : nat;
  sendface : nat;
  othercell : nat;
  otherface : nat;
  inwardnorm : bool;
  tri1 : Tri;
  tri2 : Tri
}.

(** The data of one process that [cleanup_MC] works on.  [tris] holds the
    [surf->nlocal] triangles of [surf->tris]; [cells] is [grid->cells], the
    owned cells first; [nfacetri] and [facetris] have one row per owned
    cell. *)
Record State : Type := mkState {
  tris : list Tri;
  cells : list ChildCell;
  nfacetri : list (list nat);
  facetris : list (list (list nat));
  dellist : list nat;
  proclist : list Z;
  bufsend : list SendDatum
}.

Definition set_tris (x : list Tri) (st : State) : State :=
  {| tris := x; cells := cells st; nfacetri := nfacetri st;
     facetris := facetris st; dellist := dellist st;
     proclist := proclist st; bufsend := bufsend st |}.
Definition set_cells (x : list ChildCell) (st : State) : State :=
  {| tris := tris st; cells := x; nfacetri := nfacetri st;
     facetris := facetris st; dellist := dellist st;
     proclist := proclist st; bufsend := bufsend st |}.
Definition set_nfacetri (x : list (list nat)) (st : State) : State :=
  {| tris := tris st; cells := cells st; nfacetri := x;
     facetris := facetris st; dellist := dellist st;
     proclist := proclist st; bufsend := bufsend st |}.
Definition set_facetris (x : list (list (list nat))) (st : State) : State :=
  {| tris := tris st; cells := cells st; nfacetri := nfacetri st;
     facetris := x; dellist := dellist st;
     proclist := proclist st; bufsend := bufsend st |}.
Definition set_dellist (x : list nat) (st : State) : State :=
  {| tris := tris st; cells := cells st; nfacetri := nfacetri st;
     facetris := facetris st; dellist := x;
     proclist := proclist st; bufsend := bufsend st |}.
Definition push_send (p : Z) (d : SendDatum) (st : State) : State :=
  {| tris := tris st; cells := cells st; nfacetri := nfacetri st;
     facetris := facetris st; dellist := dellist st;
     proclist := proclist st ++ [p]; bufsend := bufsend st ++ [d] |}.

(** An array read; an index outside the array is outside the behaviour
    the C code defines. *)
Definition get {A} (l : list A) (i : nat) : result A :=
  match l !! i with Some x => Ok x | None => Err OutOfBounds end.

Definition get2 {A} (l : list (list A)) (i j : nat) : result A :=
  row ← get l i; get row j.

(** [p[idim]] *)
Definition coord (p : point) (idim : nat) : double :=
  match idim with O => px p | 1%nat => py p | _ => pz p end.

(** Values of the neighbour flags, from the [enum] at the head of the
    file. *)
Definition NCHILD : Z := 0.
Definition NPBCHILD : Z := 3.

Section process.
(** The rank of the process, and the two services of the grid and of the
    geometry library that are not among the sources. *)
Variable me : Z.
Variable neigh_decode : Z → nat → Z.
Variable tri_on_hex_face : point → point → point → point → point → Z.

(** *** Counting the triangles on each face *)

(** The body of the loop over the triangles of one cell. *)
Definition tally_tri (tris : list Tri) (lo hi : point)
    (acc : result (list nat * list (list nat))) (m : nat)
  : result (list nat * list (list nat)) :=
  '(nft, ft) ← acc;
  t ← get tris m;
  let iface := tri_on_hex_face (p1 t) (p2 t) (p3 t) lo hi in
  if bool_decide (iface < 0)%Z then Ok (nft, ft)
  else
    let iface := Z.to_nat iface in
    n ← get nft iface;
    let ft := if bool_decide (n < 2) then alter (fun pr => <[n := m]> pr) iface ft
              else ft in
    Ok (<[iface := S n]> nft, ft).

(** One pass of the loop over the owned cells: the rows [nfacetri[icell]]
    and [facetris[icell]].  The entries of [facetris] that no triangle sets
    are never read; they are 0 here. *)
Definition tally_cell (tris : list Tri) (c : ChildCell)
  : result (list nat * list (list nat)) :=
  let zero := (replicate 6 0, replicate 6 [0; 0]) in
  if bool_decide (nsplit c ≤ 0)%Z then Ok zero
  else if bool_decide (nsurf c = 0) then Ok zero
  else if bool_decide (length (csurfs c) < nsurf c) then Err OutOfBounds
  else foldl (tally_tri tris (lo c) (hi c)) (Ok zero) (surfs c).

Fixpoint tally_cells (tris : list Tri) (cs : list ChildCell)
  : result (list (list nat) * list (list (list nat))) :=
  match cs with
  | [] => Ok ([], [])
  | c :: cs' =>
      '(nft, ft) ← tally_cell tris c;
      '(nfts, fts) ← tally_cells tris cs';
      Ok (nft :: nfts, ft :: fts)
  end.

(** [nglocal] owned cells, the first of [cells]. *)
Definition tally (nglocal : nat) (st : State) : result State :=
  '(nfts, fts) ← tally_cells (tris st) (take nglocal (cells st));
  Ok (set_facetris fts (set_nfacetri nfts st)).

(** *** The check that every face has 0 or 2 triangles *)

(** [flag]: the faces of the owned cells whose count is neither 0 nor 2. *)
Definition bad_count (n : nat) : bool :=
  bool_decide (n ≠ 0) && bool_decide (n ≠ 2).

Definition count_flag (nft : list (list nat)) : nat :=
  sum_list ((fun row => length (filter (fun n => bad_count n = true) (take 6 row))) <$> nft).

(** The face a triangle of a cell lies on, and the number of triangles
    of a cell that lie on a given face: what the specification calls the
    per-face triangle count. *)
Definition face_of (tris : list Tri) (c : ChildCell) (m : nat) : option Z :=
  t ← tris !! m; Some (tri_on_hex_face (p1 t) (p2 t) (p3 t) (lo c) (hi c)).

Definition face_count (tris : list Tri) (c : ChildCell) (iface : nat) : nat :=
  if bool_decide (nsplit c ≤ 0)%Z then 0
  else length (filter (fun m => face_of tris c m = Some (Z.of_nat iface)) (surfs c)).

(** The list of a cell lies inside its array and names triangles of the
    triangle array, and the classifier answers with a face 0..5 or with a
    negative number. *)
Definition cell_ok (tris : list Tri) (c : ChildCell) : Prop :=
  nsurf c ≤ length (csurfs c) ∧
  ∀ m, m ∈ surfs c → ∃ f, face_of tris c m = Some f ∧ (f < 6)%Z.

(** A row of [nfacetri] holds the six face counts of a cell, and the rows
    of a process those of its owned cells. *)
Definition counts_of (tris : list Tri) (c : ChildCell) (row : list nat) : Prop :=
  length row = 6 ∧
  ∀ iface, iface < 6 → row !! iface = Some (face_count tris c iface).

Definition tallied (p : nat * State) (st' : State) : Prop :=
  Forall2 (counts_of (tris (snd p))) (take (fst p) (cells (snd p))) (nfacetri st').

(** *** The loop over the cell faces *)

(** The value of [inwardnorm] for a face and the normal of the first
    triangle recorded on it. *)
Definition inward_normal (iface : nat) (norm : point) : bool :=
  let idim := (iface / 2)%nat in
  if negb (iface mod 2 =? 0)%nat && (coord norm idim <? zero)%D then true
  else if (iface mod 2 =? 0)%nat && (coord norm idim >? zero)%D then true
  else false.

Definition other_face (iface : nat) : nat :=
  if negb (iface mod 2 =? 0)%nat then (iface - 1)%nat else (iface + 1)%nat.

(** The search [for (k = 0; k < nsurf; k++) if (ptr[k] == m) break;], the
    error when it finds nothing, and the overwrite of the entry found by
    the last entry. *)
Definition remove_surf (ptr : list nat) (ns m : nat) : result (list nat) :=
  match list_find (fun x => x = m) (take ns ptr) with
  | None => Err MissingSurfOnCell
  | Some (k, _) =>
      last ← get ptr (ns - 1);
      Ok (<[k := last]> ptr)
  end.

(** Both triangles of a face leave the list of cell [c], whose length the
    code has in a local variable, [ns] here; the field [cells[c].nsurf]
    drops by 2. *)
Definition remove_pair (c ns m0 m1 : nat) (st : State) : result State :=
  cell ← get (cells st) c;
  ptr ← remove_surf (csurfs cell) ns m0;
  ptr ← remove_surf ptr (ns - 1) m1;
  Ok (set_cells (<[c := set_csurfs (nsurf cell - 2) ptr cell]> (cells st)) st).

(** Two triangles join the list of cell [c]: a new array with the old
    entries and the two indices. *)
Definition append_pair (c m0 m1 : nat) (st : State) : result State :=
  cell ← get (cells st) c;
  if bool_decide (length (csurfs cell) < nsurf cell) then Err OutOfBounds
  else
    let ptr := surfs cell ++ [m0; m1] in
    Ok (set_cells (<[c := set_csurfs (nsurf cell + 2) ptr cell]> (cells st)) st).

(** [tris[m].id = cid] *)
Definition retag (m : nat) (cid : Z) (st : State) : result State :=
  t ← get (tris st) m;
  Ok (set_tris (<[m := set_id cid t]> (tris st)) st).

(** The branch [if (otherproc == me)]: both cells of the face are mine.
    [ns] is the local variable [nsurf]; its new value is returned. *)
Definition same_proc (icell iface ocell oface : nat) (inward : bool)
    (ns : nat) (st : State) : result (nat * State) :=
  ntri_other ← get2 (nfacetri st) ocell oface;
  if bool_decide (ntri_other = 0) && inward then Ok (ns, st)
  else
    m0 ← (pr ← get2 (facetris st) icell iface; get pr 0);
    m1 ← (pr ← get2 (facetris st) icell iface; get pr 1);
    (* add 2 tris to othercell, reset tri IDs to new owning cell *)
    st ← (if bool_decide (ntri_other = 0) then
            oc ← get (cells st) ocell;
            st ← append_pair ocell m0 m1 st;
            st ← retag m0 (cell_id oc) st;
            retag m1 (cell_id oc) st
          else Ok st);
    (* delete 2 tris from othercell *)
    st ← (if bool_decide (ntri_other = 2) then
            row ← get (nfacetri st) ocell;
            let st := set_nfacetri (<[ocell := <[oface := 0]> row]> (nfacetri st)) st in
            oc ← get (cells st) ocell;
            o0 ← (pr ← get2 (facetris st) ocell oface; get pr 0);
            o1 ← (pr ← get2 (facetris st) ocell oface; get pr 1);
            remove_pair ocell (nsurf oc) o0 o1 st
          else Ok st);
    (* delete 2 tris from icell *)
    st ← remove_pair icell ns m0 m1 st;
    (* add 4 tris to delete list if both cells deleted them *)
    st ← (if bool_decide (ntri_other = 2) then
            o0 ← (pr ← get2 (facetris st) ocell oface; get pr 0);
            o1 ← (pr ← get2 (facetris st) ocell oface; get pr 1);
            Ok (set_dellist (dellist st ++ [m0; m1; o0; o1]) st)
          else Ok st);
    Ok ((ns - 2)%nat, st).

(** The branch [else]: the face is shared with another process.  The
    face and its two triangles go to the send buffer; a pair whose normal
    is not inward leaves the cell and joins the delete list. *)
Definition other_proc (icell iface : nat) (otherproc : Z) (otherlocal oface : nat)
    (inward : bool) (ns : nat) (st : State) : result (nat * State) :=
  m0 ← (pr ← get2 (facetris st) icell iface; get pr 0);
  m1 ← (pr ← get2 (facetris st) icell iface; get pr 1);
  t0 ← get (tris st) m0;
  t1 ← get (tris st) m1;
  let st := push_send otherproc
              {| sendcell := icell; sendface := iface;
                 othercell := otherlocal; otherface := oface;
                 inwardnorm := inward; tri1 := t0; tri2 := t1 |} st in
  if negb inward then
    st ← remove_pair icell ns m0 m1 st;
    Ok ((ns - 2)%nat, set_dellist (dellist st ++ [m0; m1]) st)
  else Ok (ns, st).

(** The body of [for (iface = 0; iface < 6; iface++)]. *)
Definition face_step (icell : nat) (acc : result (nat * State)) (iface : nat)
  : result (nat * State) :=
  '(ns, st) ← acc;
  n ← get2 (nfacetri st) icell iface;
  if bool_decide (n ≠ 2) then Ok (ns, st)
  else
    cell ← get (cells st) icell;
    let nflag := neigh_decode (nmask cell) iface in
    if bool_decide (nflag ≠ NCHILD ∧ nflag ≠ NPBCHILD) then Err InvalidNeighbor
    else
      ocell ← get (neigh cell) iface;
      if bool_decide (ocell = icell) then Err InvalidNeighbor
      else
        m0 ← (pr ← get2 (facetris st) icell iface; get pr 0);
        t0 ← get (tris st) m0;
        let inward := inward_normal iface (norm t0) in
        let oface := other_face iface in
        oc ← get (cells st) ocell;
        let otherproc := proc oc in
        let otherlocal := ilocal oc in
        if bool_decide (otherproc = me)
        then same_proc icell iface ocell oface inward ns st
        else other_proc icell iface otherproc otherlocal oface inward ns st.

(** The body of [for (icell = 0; icell < nglocal; icell++)]. *)
Definition cell_step (acc : result State) (icell : nat) : result State :=
  st ← acc;
  cell ← get (cells st) icell;
  if bool_decide (nsplit cell ≤ 0)%Z then Ok st
  else if bool_decide (nsurf cell = 0) then Ok st
  else
    '(_, st) ← foldl (face_step icell) (Ok (nsurf cell, st)) (seq 0 6);
    Ok st.

Definition local_pass (nglocal : nat) (st : State) : result State :=
  foldl cell_step (Ok st) (seq 0 nglocal).

(** *** The outcomes of the cleanup, in the words of the specification *)

(** A cell after its list changed: the same cell otherwise. *)
Definition same_cell_but_surfs (c c' : ChildCell) : Prop :=
  cell_id c' = cell_id c ∧ proc c' = proc c ∧ ilocal c' = ilocal c ∧
  nsplit c' = nsplit c ∧ nmask c' = nmask c ∧ neigh c' = neigh c ∧
  lo c' = lo c ∧ hi c' = hi c ∧ nsurf c' ≤ length (csurfs c').

(** The tally recorded the two triangles [m0], [m1] of face [iface] of the
    cell [cell] with index [icell], and both are in the list of the cell. *)
Definition face_pair (st : State) (icell iface : nat) (cell : ChildCell)
    (m0 m1 : nat) : Prop :=
  cells st !! icell = Some cell ∧
  nsurf cell ≤ length (csurfs cell) ∧
  get2 (facetris st) icell iface = Ok [m0; m1] ∧
  m0 ∈ surfs cell ∧ m1 ∈ surfs cell ∧ m0 ≠ m1.

(** The pair [m0], [m1] of cell [icell] moved to the neighbour [ocell]:
    it is at the end of the neighbour's list, it left the list of [icell],
    both triangles carry the neighbour's cell ID and are otherwise
    unchanged, and nothing joined the delete list. *)
Definition pair_moved (st : State) (icell ocell : nat) (ci co : ChildCell)
    (m0 m1 : nat) (t0 t1 : Tri) (r : result (nat * State)) : Prop :=
  ∃ st' ci' co',
    r = Ok (nsurf ci - 2, st') ∧
    cells st' = <[icell := ci']> (<[ocell := co']> (cells st)) ∧
    same_cell_but_surfs ci ci' ∧ same_cell_but_surfs co co' ∧
    surfs co' = surfs co ++ [m0; m1] ∧
    surfs ci ≡ₚ m0 :: m1 :: surfs ci' ∧
    tris st' = <[m1 := set_id (cell_id co) t1]>
                 (<[m0 := set_id (cell_id co) t0]> (tris st)) ∧
    dellist st' = dellist st ∧ nfacetri st' = nfacetri st ∧
    facetris st' = facetris st ∧ bufsend st' = bufsend st.

(** Both pairs are deleted: [m0], [m1] left the list of [icell], [o0], [o1]
    the list of [ocell], the four indices joined the delete list from
    which the triangle array is compressed, and the count of the
    neighbour's face is reset. *)
Definition pairs_deleted (st : State) (icell ocell oface : nat) (ci co : ChildCell)
    (m0 m1 o0 o1 : nat) (r : result (nat * State)) : Prop :=
  ∃ st' ci' co',
    r = Ok (nsurf ci - 2, st') ∧
    cells st' = <[icell := ci']> (<[ocell := co']> (cells st)) ∧
    same_cell_but_surfs ci ci' ∧ same_cell_but_surfs co co' ∧
    surfs ci ≡ₚ m0 :: m1 :: surfs ci' ∧
    surfs co ≡ₚ o0 :: o1 :: surfs co' ∧
    dellist st' = dellist st ++ [m0; m1; o0; o1] ∧
    tris st' = tris st ∧
    get2 (nfacetri st') ocell oface = Ok 0 ∧
    facetris st' = facetris st ∧ bufsend st' = bufsend st.

(** The loop reaches face [iface] of cell [icell] with two triangles
    [m0], [m1] on it; the cell behind the face is [ocell]. *)
Definition shared_face (st : State) (icell iface ocell : nat) (ci co : ChildCell)
    (m0 m1 : nat) (t0 t1 : Tri) : Prop :=
  icell ≠ ocell ∧
  face_pair st icell iface ci m0 m1 ∧
  get2 (nfacetri st) icell iface = Ok 2 ∧
  (neigh_decode (nmask ci) iface = NCHILD ∨ neigh_decode (nmask ci) iface = NPBCHILD) ∧
  neigh ci !! iface = Some ocell ∧
  cells st !! ocell = Some co ∧ nsurf co ≤ length (csurfs co) ∧
  tris st !! m0 = Some t0 ∧ tris st !! m1 = Some t1.

(** Triangle [a] is a copy of triangle [t] in every field but the owning
    cell ID. *)
Definition copy_but_id (t a : Tri) : Prop :=
  type a = type t ∧ mask a = mask t ∧
  p1 a = p1 t ∧ p2 a = p2 t ∧ p3 a = p3 t ∧ norm a = norm t.

(** The normal points into the cell that holds the triangle: towards
    lower coordinates on an upper face (odd [iface]), towards higher
    coordinates on a lower face (even [iface]). *)
Definition points_into_holder (iface : nat) (n : point) : Prop :=
  (iface mod 2 = 1 ∧ (coord n (iface / 2) <? zero)%D = true) ∨
  (iface mod 2 = 0 ∧ (coord n (iface / 2) >? zero)%D = true).

(** *** The loop over the received faces *)

(** [Surf::add_tri] is not among the sources: it appends one triangle to
    [surf->tris]; what it stores there is the value of [new_tri]. *)
Variable new_tri : Z → point → point → point → Tri.

Definition add_tri (itype : Z) (q1 q2 q3 : point) (st : State) : State :=
  set_tris (tris st ++ [new_tri itype q1 q2 q3]) st.

(** [memcpy(&surf->tris[n],&tri,sizeof(Surf::Tri))] *)
Definition memcpy_tri (n : nat) (t : Tri) (st : State) : result State :=
  if bool_decide (n < length (tris st)) then Ok (set_tris (<[n := t]> (tris st)) st)
  else Err OutOfBounds.

(** The body of [for (i = 0; i < nrecv; i++)]. *)
Definition recv_step (acc : result State) (d : SendDatum) : result State :=
  st ← acc;
  let icell := othercell d in
  let iface := otherface d in
  n ← get2 (nfacetri st) icell iface;
  if bool_decide (n = 0) && inwardnorm d then Ok st
  else
    (* add 2 tris to icell and this processor's Surf::tris list *)
    st ← (if bool_decide (n = 0) then
            cell ← get (cells st) icell;
            let nslocal := length (tris st) in
            let st := add_tri 1 (p1 (tri1 d)) (p2 (tri1 d)) (p3 (tri1 d)) st in
            st ← memcpy_tri nslocal (tri1 d) st;
            st ← retag nslocal (cell_id cell) st;
            let st := add_tri 1 (p1 (tri2 d)) (p2 (tri2 d)) (p3 (tri2 d)) st in
            st ← memcpy_tri (nslocal + 1) (tri2 d) st;
            st ← retag (nslocal + 1) (cell_id cell) st;
            append_pair icell nslocal (nslocal + 1) st
          else Ok st);
    (* both cells have 2 tris on common face *)
    if bool_decide (n = 2) then
      m0 ← (pr ← get2 (facetris st) icell iface; get pr 0);
      m1 ← (pr ← get2 (facetris st) icell iface; get pr 1);
      t0 ← get (tris st) m0;
      if negb (inward_normal iface (norm t0)) then Ok st
      else
        cell ← get (cells st) icell;
        st ← remove_pair icell (nsurf cell) m0 m1 st;
        Ok (set_dellist (dellist st ++ [m0; m1]) st)
    else Ok st.

Definition recv_pass (bufrecv : list SendDatum) (st : State) : result State :=
  foldl recv_step (Ok st) bufrecv.

End process.

(** [MPI_Allreduce(&flag,&flagall,1,MPI_INT,MPI_SUM,world)] over the
    per-process values, followed by the collective abort. *)
Definition check_pairing (flags : list nat) : result unit :=
  let flagall := sum_list flags in
  if bool_decide (flagall ≠ 0) then Err NonPairedFace else Ok ().

(** The first part of [cleanup_MC] on every process of the run: the tally,
    then the collective check.  A process is given by its number of owned
    cells and its data. *)
Fixpoint tally_all
    (tri_on_hex_face : point → point → point → point → point → Z)
    (world : list (nat * State)) : result (list State) :=
  match world with
  | [] => Ok []
  | p :: world' =>
      st ← tally tri_on_hex_face (fst p) (snd p);
      sts ← tally_all tri_on_hex_face world';
      Ok (st :: sts)
  end.

Definition tally_and_check
    (tri_on_hex_face : point → point → point → point → point → Z)
    (world : list (nat * State)) : result (list State) :=
  sts ← tally_all tri_on_hex_face world;
  _ ← check_pairing ((fun st => count_flag (nfacetri st)) <$> sts);
  Ok sts.

(** Some owned cell of some process has a face whose triangle count is
    neither 0 nor 2. *)
Definition non_paired_face
    (tri_on_hex_face : point → point → point → point → point → Z)
    (world : list (nat * State)) : Prop :=
  ∃ n st icell c iface,
    (n, st) ∈ world ∧ icell < n ∧ cells st !! icell = Some c ∧ iface < 6 ∧
    face_count tri_on_hex_face (tris st) c iface ≠ 0 ∧
    face_count tri_on_hex_face (tris st) c iface ≠ 2.

Definition world_ok
    (tri_on_hex_face : point → point → point → point → point → Z)
    (world : list (nat * State)) : Prop :=
  ∀ n st, (n, st) ∈ world →
          Forall (cell_ok tri_on_hex_face (tris st)) (take n (cells st)).

End Cleanup.

(** ** Marching cubes: the tests of the ambiguous cases and the points *)

Module Cubes.
Local Open Scope Z_scope.

(** One grid cell of the 3-D group: the eight corner values [vzyx] and the
    bounds [lo], [hi] of the cell. *)
Record Cube : Type := mkCube {
  v000 : Z; v001 : Z; v010 : Z; v011 : Z;
  v100 : Z; v101 : Z; v110 : Z; v111 : Z;
  lo : point;
  hi : point
}.

(** [#define EPSILON 1.0e-16] *)
Definition EPSILON : double := Fin (Q2Qc (1 # 10000000000000000)).

(** The tilings the two arms modelled below choose from; each stands for
    the row [config] of the table of that name in [lookup_table.h]. *)
Inductive tiling : Type :=
| tiling4_1 | tiling4_2
| tiling6_1_1 | tiling6_1_2 | tiling6_2.

Section cube.
Variable thresh : double.
Variable c : Cube.
(** The member [config], and the rows of the test tables of
    [lookup_table.h], which is not among the sources. *)
Variable config : Z.
Variable test4 : Z → Z.
Variable test6 : Z → Z → Z.
Variable test10 : Z → Z → Z.
Variable test12 : Z → Z → Z.

Definition v000iso : double := (of_int (v000 c) - thresh)%D.
Definition v001iso : double := (of_int (v001 c) - thresh)%D.
Definition v010iso : double := (of_int (v010 c) - thresh)%D.
Definition v011iso : double := (of_int (v011 c) - thresh)%D.
Definition v100iso : double := (of_int (v100 c) - thresh)%D.
Definition v101iso : double := (of_int (v101 c) - thresh)%D.
Definition v110iso : double := (of_int (v110 c) - thresh)%D.
Definition v111iso : double := (of_int (v111 c) - thresh)%D.

(** [v <= thresh ? 0 : 1]; bits 2, 3 and bits 6, 7 follow the corner
    order of the Lewiner tables. *)
Definition bit_of (v : Z) : bool := negb (of_int v <=? thresh)%D.

Definition bit0 : bool := bit_of (v000 c).
Definition bit1 : bool := bit_of (v001 c).
Definition bit2 : bool := bit_of (v011 c).
Definition bit3 : bool := bit_of (v010 c).
Definition bit4 : bool := bit_of (v100 c).
Definition bit5 : bool := bit_of (v101 c).
Definition bit6 : bool := bit_of (v111 c).
Definition bit7 : bool := bit_of (v110 c).

Definition which : Z :=
  Z.shiftl (Z.b2z bit7) 7 + Z.shiftl (Z.b2z bit6) 6 + Z.shiftl (Z.b2z bit5) 5 +
  Z.shiftl (Z.b2z bit4) 4 + Z.shiftl (Z.b2z bit3) 3 + Z.shiftl (Z.b2z bit2) 2 +
  Z.shiftl (Z.b2z bit1) 1 + Z.b2z bit0.

(** *** [test_face] *)

(** The [switch (face)]: the corner values [A], [B], [C], [D] of the
    face, or the abort on a face code that is none of 1..6, -1..-6. *)
Definition face_values (face : Z) : result (double * double * double * double) :=
  match face with
  | (-1) | 1 => Ok (v000iso, v100iso, v101iso, v001iso)
  | (-2) | 2 => Ok (v001iso, v101iso, v111iso, v011iso)
  | (-3) | 3 => Ok (v011iso, v111iso, v110iso, v010iso)
  | (-4) | 4 => Ok (v010iso, v110iso, v100iso, v000iso)
  | (-5) | 5 => Ok (v000iso, v010iso, v011iso, v001iso)
  | (-6) | 6 => Ok (v100iso, v110iso, v111iso, v101iso)
  | _ => Err InvalidFace
  end.

Definition test_face (face : Z) : result bool :=
  '(A, B, C, D) ← face_values face;
  if (fabs (A * C - B * D) <? EPSILON)%D then Ok (bool_decide (face >= 0))
  else Ok ((of_int face * A * (A * C - B * D) >=? zero)%D).

(** *** The modified interior test *)

(** [interior_ambiguity]: the local [edge] has no initial value; each of
    the four tests of the face may assign it, a later one over an earlier
    one. *)
Definition pos (x : double) (s : Z) : bool := (x * of_int s >? zero)%D.

Definition assign_if (b : bool) (e : Z) (edge : option Z) : option Z :=
  if b then Some e else edge.

Definition interior_ambiguity (amb_face s : Z) : result Z :=
  let edge : option Z :=
    match amb_face with
    | 1 | 3 =>
        assign_if (pos v011iso s && pos v100iso s) 7
          (assign_if (pos v010iso s && pos v101iso s) 6
             (assign_if (pos v000iso s && pos v111iso s) 5
                (assign_if (pos v001iso s && pos v110iso s) 4 None)))
    | 2 | 4 =>
        assign_if (pos v000iso s && pos v111iso s) 3
          (assign_if (pos v010iso s && pos v101iso s) 2
             (assign_if (pos v011iso s && pos v100iso s) 1
                (assign_if (pos v001iso s && pos v110iso s) 0 None)))
    | 5 | 6 | 0 =>
        assign_if (pos v010iso s && pos v101iso s) 11
          (assign_if (pos v011iso s && pos v100iso s) 10
             (assign_if (pos v001iso s && pos v110iso s) 9
                (assign_if (pos v000iso s && pos v111iso s) 8 None)))
    | _ => None
    end in
  match edge with Some e => Ok e | None => Err Uninitialized end.

(** The statements every [case] of [interior_ambiguity_verification]
    runs on its own [a], [b], [At], [Bt], [Ct], [Dt]. *)
Definition vote (a b : double) (At Bt Ct Dt : double → double) : Z :=
  if (a >? zero)%D then 1
  else
    let t := (- b / (of_int 2 * a))%D in
    if (t <? zero)%D || (t >? one)%D then 1
    else
      let verify := (At t * Ct t - Bt t * Dt t)%D in
      if (verify >? zero)%D then 0
      else if (verify <? zero)%D then 1
      else 1.

Local Open Scope dbl_scope.

Definition interior_ambiguity_verification (edge : Z) : Z :=
  match edge with
  | 0 =>
      vote
        ((v000iso - v001iso) * (v110iso - v111iso) - (v100iso - v101iso) * (v010iso - v011iso))
        (v111iso * (v000iso - v001iso) + v001iso * (v110iso - v111iso) - v011iso * (v100iso - v101iso) - v101iso * (v010iso - v011iso))
        (fun t => v001iso + (v000iso - v001iso) * t)
        (fun t => v101iso + (v100iso - v101iso) * t)
        (fun t => v111iso + (v110iso - v111iso) * t)
        (fun t => v011iso + (v010iso - v011iso) * t)
  | 1 =>
      vote
        ((v010iso - v011iso) * (v100iso - v101iso) - (v000iso - v001iso) * (v110iso - v111iso))
        (v101iso * (v010iso - v011iso) + v011iso * (v100iso - v101iso) - v111iso * (v000iso - v001iso) - v001iso * (v110iso - v111iso))
        (fun t => v011iso + (v010iso - v011iso) * t)
        (fun t => v001iso + (v000iso - v001iso) * t)
        (fun t => v101iso + (v100iso - v101iso) * t)
        (fun t => v111iso + (v110iso - v111iso) * t)
  | 2 =>
      vote
        ((v011iso - v010iso) * (v101iso - v100iso) - (v111iso - v110iso) * (v001iso - v000iso))
        (v100iso * (v011iso - v010iso) + v010iso * (v101iso - v100iso) - v000iso * (v111iso - v110iso) - v110iso * (v001iso - v000iso))
        (fun t => v010iso + (v011iso - v010iso) * t)
        (fun t => v110iso + (v111iso - v110iso) * t)
        (fun t => v100iso + (v101iso - v100iso) * t)
        (fun t => v000iso + (v001iso - v000iso) * t)
  | 3 =>
      vote
        ((v001iso - v000iso) * (v111iso - v110iso) - (v011iso - v010iso) * (v101iso - v100iso))
        (v110iso * (v001iso - v000iso) + v000iso * (v111iso - v110iso) - v100iso * (v011iso - v010iso) - v010iso * (v101iso - v100iso))
        (fun t => v000iso + (v001iso - v000iso) * t)
        (fun t => v010iso + (v011iso - v010iso) * t)
        (fun t => v110iso + (v111iso - v110iso) * t)
        (fun t => v100iso + (v101iso - v100iso) * t)
  | 4 =>
      vote
        ((v011iso - v001iso) * (v110iso - v100iso) - (v010iso - v000iso) * (v111iso - v101iso))
        (v100iso * (v011iso - v001iso) + v001iso * (v110iso - v100iso) - v101iso * (v010iso - v000iso) - v000iso * (v111iso - v101iso))
        (fun t => v001iso + (v011iso - v001iso) * t)
        (fun t => v000iso + (v010iso - v000iso) * t)
        (fun t => v100iso + (v110iso - v100iso) * t)
        (fun t => v101iso + (v111iso - v101iso) * t)
  | 5 =>
      vote
        ((v010iso - v000iso) * (v111iso - v101iso) - (v011iso - v001iso) * (v110iso - v100iso))
        (v101iso * (v010iso - v000iso) + v000iso * (v111iso - v101iso) - v100iso * (v011iso - v001iso) - v001iso * (v110iso - v100iso))
        (fun t => v000iso + (v010iso - v000iso) * t)
        (fun t => v001iso + (v011iso - v001iso) * t)
        (fun t => v101iso + (v111iso - v101iso) * t)
        (fun t => v100iso + (v110iso - v100iso) * t)
  | 6 =>
      vote
        ((v000iso - v010iso) * (v101iso - v111iso) - (v100iso - v110iso) * (v001iso - v011iso))
        (v111iso * (v000iso - v010iso) + v010iso * (v101iso - v111iso) - v011iso * (v100iso - v110iso) - v110iso * (v001iso - v011iso))
        (fun t => v010iso + (v000iso - v010iso) * t)
        (fun t => v110iso + (v100iso - v110iso) * t)
        (fun t => v111iso + (v101iso - v111iso) * t)
        (fun t => v011iso + (v001iso - v011iso) * t)
  | 7 =>
      vote
        ((v001iso - v011iso) * (v100iso - v110iso) - (v000iso - v010iso) * (v101iso - v111iso))
        (v110iso * (v001iso - v011iso) + v011iso * (v100iso - v110iso) - v111iso * (v000iso - v010iso) - v010iso * (v101iso - v111iso))
        (fun t => v011iso + (v001iso - v011iso) * t)
        (fun t => v010iso + (v000iso - v010iso) * t)
        (fun t => v110iso + (v100iso - v110iso) * t)
        (fun t => v111iso + (v101iso - v111iso) * t)
  | 8 =>
      vote
        ((v100iso - v000iso) * (v111iso - v011iso) - (v110iso - v010iso) * (v101iso - v001iso))
        (v011iso * (v100iso - v000iso) + v000iso * (v111iso - v011iso) - v001iso * (v110iso - v010iso) - v010iso * (v101iso - v001iso))
        (fun t => v000iso + (v100iso - v000iso) * t)
        (fun t => v010iso + (v110iso - v010iso) * t)
        (fun t => v011iso + (v111iso - v011iso) * t)
        (fun t => v001iso + (v101iso - v001iso) * t)
  | 9 =>
      vote
        ((v101iso - v001iso) * (v110iso - v010iso) - (v100iso - v000iso) * (v111iso - v011iso))
        (v010iso * (v101iso - v001iso) + v001iso * (v110iso - v010iso) - v011iso * (v100iso - v000iso) - v000iso * (v111iso - v011iso))
        (fun t => v001iso + (v101iso - v001iso) * t)
        (fun t => v000iso + (v100iso - v000iso) * t)
        (fun t => v010iso + (v110iso - v010iso) * t)
        (fun t => v011iso + (v111iso - v011iso) * t)
  | 10 =>
      vote
        ((v111iso - v011iso) * (v100iso - v000iso) - (v101iso - v001iso) * (v110iso - v010iso))
        (v000iso * (v111iso - v011iso) + v011iso * (v100iso - v000iso) - v010iso * (v101iso - v001iso) - v001iso * (v110iso - v010iso))
        (fun t => v011iso + (v111iso - v011iso) * t)
        (fun t => v001iso + (v101iso - v001iso) * t)
        (fun t => v000iso + (v100iso - v000iso) * t)
        (fun t => v010iso + (v110iso - v010iso) * t)
  | 11 =>
      vote
        ((v110iso - v010iso) * (v101iso - v001iso) - (v111iso - v011iso) * (v100iso - v000iso))
        (v001iso * (v110iso - v010iso) + v010iso * (v101iso - v001iso) - v000iso * (v111iso - v011iso) - v011iso * (v100iso - v000iso))
        (fun t => v010iso + (v110iso - v010iso) * t)
        (fun t => v011iso + (v111iso - v011iso) * t)
        (fun t => v001iso + (v101iso - v001iso) * t)
        (fun t => v000iso + (v100iso - v000iso) * t)
  | _ => 1%Z
  end.

Local Close Scope dbl_scope.

(** The sum of the votes of the faces [faces], each for the edge that
    [interior_ambiguity] picks on it. *)
Fixpoint inter_amb (s : Z) (faces : list Z) : result Z :=
  match faces with
  | [] => Ok 0
  | amb_face :: faces' =>
      edge ← interior_ambiguity amb_face s;
      rest ← inter_amb s faces';
      Ok (interior_ambiguity_verification edge + rest)
  end.

(** The ambiguous faces the [switch (icase)] goes through. *)
Definition amb_faces (icase : Z) : option (list Z) :=
  match icase with
  | 4 => Some [1; 2; 5]
  | 6 => Some [Z.abs (test6 config 0)]
  | 7 => Some [1; 2; 5]
  | 10 => Some [Z.abs (test10 config 0)]
  | 12 => Some [Z.abs (test12 config 0); Z.abs (test12 config 1)]
  | _ => None
  end.

Definition modified_test_interior (s icase : Z) : result bool :=
  match amb_faces icase with
  | Some faces =>
      let s := if bool_decide (icase = 7) then s * -1 else s in
      sum ← inter_amb s faces;
      if bool_decide (sum = 0) then Ok false else Ok true
  | None => Ok true
  end.

(** *** The quadratic of an edge, in the words of the specification *)

(** A line of the cube: the iso-values at its two ends. *)
Definition line : Type := double * double.

(** The value on a line at parameter [t]. *)
Definition along (l : line) (t : double) : double :=
  (fst l + (snd l - fst l) * t)%D.

(** The four parallel lines [A], [B], [C], [D] that the verification of a
    reference edge follows through the cube. *)
Definition edge_lines (edge : Z) : option (line * line * line * line) :=
  match edge with
  | 0 => Some ((v001iso, v000iso), (v101iso, v100iso), (v111iso, v110iso), (v011iso, v010iso))
  | 1 => Some ((v011iso, v010iso), (v001iso, v000iso), (v101iso, v100iso), (v111iso, v110iso))
  | 2 => Some ((v010iso, v011iso), (v110iso, v111iso), (v100iso, v101iso), (v000iso, v001iso))
  | 3 => Some ((v000iso, v001iso), (v010iso, v011iso), (v110iso, v111iso), (v100iso, v101iso))
  | 4 => Some ((v001iso, v011iso), (v000iso, v010iso), (v100iso, v110iso), (v101iso, v111iso))
  | 5 => Some ((v000iso, v010iso), (v001iso, v011iso), (v101iso, v111iso), (v100iso, v110iso))
  | 6 => Some ((v010iso, v000iso), (v110iso, v100iso), (v111iso, v101iso), (v011iso, v001iso))
  | 7 => Some ((v011iso, v001iso), (v010iso, v000iso), (v110iso, v100iso), (v111iso, v101iso))
  | 8 => Some ((v000iso, v100iso), (v010iso, v110iso), (v011iso, v111iso), (v001iso, v101iso))
  | 9 => Some ((v001iso, v101iso), (v000iso, v100iso), (v010iso, v110iso), (v011iso, v111iso))
  | 10 => Some ((v011iso, v111iso), (v001iso, v101iso), (v000iso, v100iso), (v010iso, v110iso))
  | 11 => Some ((v010iso, v110iso), (v011iso, v111iso), (v001iso, v101iso), (v000iso, v100iso))
  | _ => None
  end.

Definition quad_a (ls : line * line * line * line) : double :=
  let '(A, B, C, D) := ls in
  ((snd A - fst A) * (snd C - fst C) - (snd B - fst B) * (snd D - fst D))%D.

Definition quad_b (ls : line * line * line * line) : double :=
  let '(A, B, C, D) := ls in
  (fst C * (snd A - fst A) + fst A * (snd C - fst C)
   - fst D * (snd B - fst B) - fst B * (snd D - fst D))%D.

(** [verify = At*Ct - Bt*Dt] at the parameter [t]. *)
Definition verify_at (ls : line * line * line * line) (t : double) : double :=
  let '(A, B, C, D) := ls in
  (along A t * along C t - along B t * along D t)%D.

(** The verification of an edge reaches [verify] and finds it positive:
    [a] is not positive, [t = -b/(2a)] is not outside [[0,1]], and
    [verify] is positive there. *)
Definition positive_verify (edge : Z) : Prop :=
  ∃ ls, edge_lines edge = Some ls ∧
        (quad_a ls >? zero)%D = false ∧
        let t := (- quad_b ls / (of_int 2 * quad_a ls))%D in
        (t <? zero)%D = false ∧ (t >? one)%D = false ∧
        (verify_at ls t >? zero)%D = true.

(** The sum of a list of votes. *)
Definition sum_votes (votes : list Z) : Z := foldr Z.add 0 votes.

(** *** The arms of [switch (icase)] that consult the modified test *)

(** The table row handed to [add_triangle] and the number of triangles
    [nsurf]. *)
Definition marching_cubes_case4 : result (tiling * nat) :=
  modified_test_interior (test4 config) 4 ≫= fun b : bool =>
  if b then Ok (tiling4_1, 2%nat) else Ok (tiling4_2, 6%nat).

Definition marching_cubes_case6 : result (tiling * nat) :=
  test_face (test6 config 0) ≫= fun f : bool =>
  if f then Ok (tiling6_2, 5%nat)
  else
    modified_test_interior (test6 config 1) 6 ≫= fun b : bool =>
    if b then Ok (tiling6_1_1, 3%nat) else Ok (tiling6_1_2, 9%nat).

(** *** [add_triangle] *)

Definition interp := interpolate thresh.

Definition padd (p q : point) : point :=
  Pt (px p + px q)%D (py p + py q)%D (pz p + pz q)%D.
Definition pdiv (p : point) (u : double) : point :=
  Pt (px p / u)%D (py p / u)%D (pz p / u)%D.
Definition origin : point := Pt zero zero zero.

(** The twelve blocks [if (bitI ^ bitJ) { ++u; pt[t] += ... }] of
    [case 12], in the order of the code: the test and the point added. *)
Definition crossing_tests : list (bool * point) :=
  [
    (xorb bit0 bit1, Pt (interp (v000 c) (v001 c) (px (lo c)) (px (hi c))) (py (lo c)) (pz (lo c)));
    (xorb bit1 bit2, Pt (px (hi c)) (interp (v001 c) (v011 c) (py (lo c)) (py (hi c))) (pz (lo c)));
    (xorb bit2 bit3, Pt (interp (v010 c) (v011 c) (px (lo c)) (px (hi c))) (py (hi c)) (pz (lo c)));
    (xorb bit3 bit0, Pt (px (lo c)) (interp (v000 c) (v010 c) (py (lo c)) (py (hi c))) (pz (lo c)));
    (xorb bit4 bit5, Pt (interp (v100 c) (v101 c) (px (lo c)) (px (hi c))) (py (lo c)) (pz (hi c)));
    (xorb bit5 bit6, Pt (px (hi c)) (interp (v101 c) (v111 c) (py (lo c)) (py (hi c))) (pz (hi c)));
    (xorb bit6 bit7, Pt (interp (v110 c) (v111 c) (px (lo c)) (px (hi c))) (py (hi c)) (pz (hi c)));
    (xorb bit7 bit4, Pt (px (lo c)) (interp (v100 c) (v110 c) (py (lo c)) (py (hi c))) (pz (hi c)));
    (xorb bit0 bit4, Pt (px (lo c)) (py (lo c)) (interp (v000 c) (v100 c) (pz (lo c)) (pz (hi c))));
    (xorb bit1 bit5, Pt (px (hi c)) (py (lo c)) (interp (v001 c) (v101 c) (pz (lo c)) (pz (hi c))));
    (xorb bit2 bit6, Pt (px (hi c)) (py (hi c)) (interp (v011 c) (v111 c) (pz (lo c)) (pz (hi c))));
    (xorb bit3 bit7, Pt (px (lo c)) (py (hi c)) (interp (v010 c) (v110 c) (pz (lo c)) (pz (hi c))))
  ].

Definition add_if (acc : Z * point) (bp : bool * point) : Z * point :=
  if fst bp then (fst acc + 1, padd (snd acc) (snd bp)) else acc.

(** [case 12]: the sum of the points of the blocks whose test holds,
    divided by their number [u]. *)
Definition tunnel_centre : point :=
  let '(u, s) := foldl add_if (0, origin) crossing_tests in
  pdiv s (of_int u).

(** The [switch (trig[t])]: the point stored in [pt[t]], or nothing for
    an index that no [case] handles, which leaves [pt[t]] as it was. *)
Definition switch_trig (e : Z) : option point :=
  match e with
  | 0 => Some (Pt (interp (v000 c) (v001 c) (px (lo c)) (px (hi c))) (py (lo c)) (pz (lo c)))
  | 1 => Some (Pt (px (hi c)) (interp (v001 c) (v011 c) (py (lo c)) (py (hi c))) (pz (lo c)))
  | 2 => Some (Pt (interp (v010 c) (v011 c) (px (lo c)) (px (hi c))) (py (hi c)) (pz (lo c)))
  | 3 => Some (Pt (px (lo c)) (interp (v000 c) (v010 c) (py (lo c)) (py (hi c))) (pz (lo c)))
  | 4 => Some (Pt (interp (v100 c) (v101 c) (px (lo c)) (px (hi c))) (py (lo c)) (pz (hi c)))
  | 5 => Some (Pt (px (hi c)) (interp (v101 c) (v111 c) (py (lo c)) (py (hi c))) (pz (hi c)))
  | 6 => Some (Pt (interp (v110 c) (v111 c) (px (lo c)) (px (hi c))) (py (hi c)) (pz (hi c)))
  | 7 => Some (Pt (px (lo c)) (interp (v100 c) (v110 c) (py (lo c)) (py (hi c))) (pz (hi c)))
  | 8 => Some (Pt (px (lo c)) (py (lo c)) (interp (v000 c) (v100 c) (pz (lo c)) (pz (hi c))))
  | 9 => Some (Pt (px (hi c)) (py (lo c)) (interp (v001 c) (v101 c) (pz (lo c)) (pz (hi c))))
  | 10 => Some (Pt (px (hi c)) (py (hi c)) (interp (v011 c) (v111 c) (pz (lo c)) (pz (hi c))))
  | 11 => Some (Pt (px (lo c)) (py (hi c)) (interp (v010 c) (v110 c) (pz (lo c)) (pz (hi c))))
  | 12 => Some tunnel_centre
  | _ => None
  end.

(** The loop [for (t = 0; t < 3*n; t++)] over the row [trig] of a tiling;
    [pt] is the member array of points. *)
Definition add_triangle_step (trig : list Z) (pt : list point) (t : nat) : list point :=
  match trig !! t with
  | Some e => match switch_trig e with Some p => <[t := p]> pt | None => pt end
  | None => pt
  end.

Definition add_triangle (trig : list Z) (n : nat) (pt : list point) : nat * list point :=
  (n, foldl (add_triangle_step trig) pt (seq 0 (3 * n))).

(** *** The edges of the cell, in the words of the specification *)

(** A corner of the cell, by its bits [z], [y], [x]. *)
Definition corner : Type := bool * bool * bool.

Definition corner_value (k : corner) : Z :=
  match k with
  | (false, false, false) => v000 c
  | (false, false, true) => v001 c
  | (false, true, false) => v010 c
  | (false, true, true) => v011 c
  | (true, false, false) => v100 c
  | (true, false, true) => v101 c
  | (true, true, false) => v110 c
  | (true, true, true) => v111 c
  end.

(** The sign bit of a corner: its value is above the threshold. *)
Definition above (k : corner) : bool := bit_of (corner_value k).

(** The two corners an edge 0..11 of the cell joins. *)
Definition edge_ends (e : Z) : option (corner * corner) :=
  match e with
  | 0 => Some ((false, false, false), (false, false, true))
  | 1 => Some ((false, false, true), (false, true, true))
  | 2 => Some ((false, true, true), (false, true, false))
  | 3 => Some ((false, true, false), (false, false, false))
  | 4 => Some ((true, false, false), (true, false, true))
  | 5 => Some ((true, false, true), (true, true, true))
  | 6 => Some ((true, true, true), (true, true, false))
  | 7 => Some ((true, true, false), (true, false, false))
  | 8 => Some ((false, false, false), (true, false, false))
  | 9 => Some ((false, false, true), (true, false, true))
  | 10 => Some ((false, true, true), (true, true, true))
  | 11 => Some ((false, true, false), (true, true, false))
  | _ => None
  end.

(** The sign bits at the two ends of the edge differ. *)
Definition crosses (e : Z) : bool :=
  match edge_ends e with
  | Some (k1, k2) => xorb (above k1) (above k2)
  | None => false
  end.

(** The interpolated threshold crossing on an edge 0..11. *)
Definition crossing (e : Z) : point := default origin (switch_trig e).

(** The edges whose end signs differ, and the arithmetic mean of a list
    of points. *)
Definition crossing_edges : list Z :=
  filter (fun e => crosses e = true) (seqZ 0 12).

Definition mean_point (ps : list point) : point :=
  pdiv (foldl padd origin ps) (of_int (Z.of_nat (length ps))).

(** Bit [d] of a corner: [d] is 0 for x, 1 for y, 2 for z. *)
Definition corner_bit (k : corner) (d : nat) : bool :=
  match d with O => snd k | 1%nat => snd (fst k) | _ => fst (fst k) end.

Definition coordp (p : point) (d : nat) : double :=
  match d with O => px p | 1%nat => py p | _ => pz p end.

(** A point lies on the edge of the bounding box between two corners: in
    a direction in which the corners agree it has their coordinate, in the
    direction in which they differ it lies between [lo] and [hi]. *)
Definition on_cell_edge (k1 k2 : corner) (p : point) : Prop :=
  ∀ d : nat, (d < 3)%nat →
    if bool_decide (corner_bit k1 d = corner_bit k2 d)
    then coordp p d = coordp (if corner_bit k1 d then hi c else lo c) d
    else (coordp (lo c) d <=? coordp p d)%D = true ∧
         (coordp p d <=? coordp (hi c) d)%D = true.

End cube.
(** The bounds of a cell are finite and ordered in every direction. *)
Definition box_ok (c : Cube) : Prop :=
  ∃ a0 a1 a2 b0 b1 b2 : Qc,
    lo c = Pt (Fin a0) (Fin a1) (Fin a2) ∧ hi c = Pt (Fin b0) (Fin b1) (Fin b2) ∧
    (a0 ≤ b0)%Qc ∧ (a1 ≤ b1)%Qc ∧ (a2 ≤ b2)%Qc.

(** *** The face test, in the words of the specification *)

(** The iso-values [A], [B], [C], [D] of the corners of the face with code
    [face] (1..6, with either sign), on rationals: corner value minus
    threshold. *)
Definition face_iso (t : Qc) (c : Cube) (face : Z) : option (Qc * Qc * Qc * Qc) :=
  let iso (v : Z) : Qc := (Qc_of_Z v - t)%Qc in
  match Z.abs face with
  | 1 => Some (iso (v000 c), iso (v100 c), iso (v101 c), iso (v001 c))
  | 2 => Some (iso (v001 c), iso (v101 c), iso (v111 c), iso (v011 c))
  | 3 => Some (iso (v011 c), iso (v111 c), iso (v110 c), iso (v010 c))
  | 4 => Some (iso (v010 c), iso (v110 c), iso (v100 c), iso (v000 c))
  | 5 => Some (iso (v000 c), iso (v010 c), iso (v011 c), iso (v001 c))
  | 6 => Some (iso (v100 c), iso (v110 c), iso (v111 c), iso (v101 c))
  | _ => None
  end.

Definition epsilon : Qc := Q2Qc (1 # 10000000000000000).

End Cubes.

(** ** The rest of the reader: [create_hash], [read_corners], [read_types] *)

(** The aborts of the code below: one of the errors above, or one of the
    messages that only this code raises. *)
Inductive abort : Type :=
| Raised (e : error)
| CornerFileMismatch   (* "Grid size in read_isurf grid corner point file does not match request" *)
| TypeFileMismatch     (* "Grid size in read_isurf type file does not match request" *)
| NoGrid               (* "Cannot read_isurf before grid is defined" *)
| NotImplicit          (* "Cannot read_isurf unless global surfs implicit is set" *)
| SurfsExist           (* "Cannot read_isurf when surfs already exist" *)
| ParticlesExist       (* "Cannot read_isurf when particles exist" *)
| Axisymmetric         (* "Cannot read_isurf for axisymmetric domains" *)
| IllegalCommand       (* "Illegal read_isurf command" *)
| NoGridGroup          (* "Read_isurf grid group ID does not exist" *)
| InvalidCommand       (* "Invalid read_isurf command" *)
| IntegerThresh        (* "An integer value for read_isurf thresh is not allowed" *)
| NoFix                (* "Fix ID for read_isurf store does not exist" *)
| NotAblate            (* "Fix for read_isurf store is not a fix ablate" *)
| FixGroupMismatch     (* "Read_isurf group does not match fix ablate group" *)
| BlockMismatch        (* "Read_isurf grid group does not match nx,ny,nz" *)
| InvalidEdge          (* "Marching cubes - invalid edge" *)
| InvalidAmbiguousCase (* "Marching cubes - invalid ambiguous case" *)
| MovedTriNotFound.    (* "Did not find moved tri in cleanup_MC()" *)

Inductive outcome (A : Type) : Type :=
| Done (a : A)
| Abort (e : abort).
Arguments Done {A} a.
Arguments Abort {A} e.

Global Instance outcome_ret : MRet outcome := @Done.
Global Instance outcome_bind : MBind outcome := fun A B k r =>
  match r with Done a => k a | Abort e => Abort e end.

Definition raise {A} (r : result A) : outcome A :=
  match r with Ok a => Done a | Err e => Abort (Raised e) end.

Module Reader.
Import Ingest.
Local Open Scope Z_scope.

(** [#define CHUNK 8192] *)
Definition CHUNK : Z := 8192.

(** [static_cast<int> (x)]: the value without its fraction; the cast of a
    value that no [int] holds is outside the behaviour C++ defines. *)
Definition to_int (x : double) : option Z :=
  match x with
  | Fin q =>
      let z := Z.quot (Qnum q) (Zpos (Qden q)) in
      if bool_decide (- INT_MAX - 1 ≤ z ≤ INT_MAX) then Some z else None
  | _ => None
  end.

(** *** [create_hash] *)

(** The fields of a grid cell that [create_hash] reads: [cells[icell].lo]
    and [cinfo[icell].mask]. *)
Record GroupCell : Type := mkGroupCell { glo : point; gmask : Z }.

Section hash.
Variable L : Lattice.
(** [corner] and [xyzsize] of the block, as [check_uniform_group] set
    them, and the bit of the grid group. *)
Variable corner : point.
Variable xyzsize : point.
Variable groupbit : Z.

(** [static_cast<int> ((cells[icell].lo[k]-corner[k]) / xyzsize[k] + 0.5)] *)
Definition block_coord (k : nat) (c : GroupCell) : option Z :=
  to_int ((Cleanup.coord (glo c) k - Cleanup.coord corner k) / Cleanup.coord xyzsize k
          + Fin (Q2Qc (1 # 2)))%D.

(** The body of the loop over the local cells; [nx*iy] is an [int]
    product. *)
Definition hash_step (acc : option (gmap Z nat)) (ic : nat * GroupCell)
  : option (gmap Z nat) :=
  hash ← acc;
  let '(icell, c) := ic in
  if bool_decide (Z.land (gmask c) groupbit = 0) then Some hash
  else
    ix ← block_coord 0 c;
    iy ← block_coord 1 c;
    iz ← block_coord 2 c;
    let index := nx L * ny L * iz + wrap_int (nx L * iy) + ix in
    Some (<[index := icell]> hash).

Definition create_hash (cells : list GroupCell) : option (gmap Z nat) :=
  foldl hash_step (Some ∅) (imap pair cells).

(** The index of the cell at position [(cx, cy, cz)] of the block, and the
    positions of the block. *)
Definition cell_index (cx cy cz : Z) : Z := nx L * ny L * cz + nx L * cy + cx.

Definition in_block (cx cy cz : Z) : Prop :=
  0 ≤ cx < nx L ∧ 0 ≤ cy < ny L ∧ 0 ≤ cz < nz L.

(** A cell of the group sits at position [(cx, cy, cz)]: its lower corner
    is less than half a cell away from the corner of that position, in
    each direction. *)
Definition sits_at (c : GroupCell) (cx cy cz : Z) : Prop :=
  ∃ l0 l1 l2 c0 c1 c2 s0 s1 s2 : Qc,
    glo c = Pt (Fin l0) (Fin l1) (Fin l2) ∧
    corner = Pt (Fin c0) (Fin c1) (Fin c2) ∧
    xyzsize = Pt (Fin s0) (Fin s1) (Fin s2) ∧
    (0 < s0 ∧ 0 < s1 ∧ 0 < s2)%Qc ∧
    (2 * (c0 + Qc_of_Z cx * s0 - l0) < s0 ∧ 2 * (l0 - (c0 + Qc_of_Z cx * s0)) < s0)%Qc ∧
    (2 * (c1 + Qc_of_Z cy * s1 - l1) < s1 ∧ 2 * (l1 - (c1 + Qc_of_Z cy * s1)) < s1)%Qc ∧
    (2 * (c2 + Qc_of_Z cz * s2 - l2) < s2 ∧ 2 * (l2 - (c2 + Qc_of_Z cz * s2)) < s2)%Qc.

Definition in_group (c : GroupCell) : Prop := Z.land (gmask c) groupbit ≠ 0.

End hash.

(** *** The loop over the chunks of a file *)

(** [fread(buf,size,n,fp)]: the next [n] items of the file overwrite the
    head of [buf]; at the end of the file fewer do, and the rest of [buf]
    keeps what it held.  The code does not look at the number [fread]
    returns. *)
Definition fread {A : Type} (n : nat) (buf fp : list A) : list A * list A :=
  let got := take n fp in
  (got ++ drop (length got) buf, drop n fp).

Section chunks.
Context {A St : Type}.
(** [assign_corners] or [assign_types], and [ncorners] or [ntypes]. *)
Variable assign : nat → Z → list A → St → result St.
Variable total : Z.

(** The loop [while (nread < total)] of [read_corners] and of
    [read_types]; [fuel] bounds the number of its passes. *)
Fixpoint read_chunks (fuel : nat) (nread : Z) (buf fp : list A) (s : St)
  : option (result St) :=
  if bool_decide (nread < total) then
    match fuel with
    | O => None
    | S fuel' =>
        let nchunk := if bool_decide (total - nread > CHUNK) then CHUNK
                      else total - nread in
        let '(buf, fp) := fread (Z.to_nat nchunk) buf fp in
        match assign (Z.to_nat nchunk) nread buf s with
        | Ok s' => read_chunks fuel' (nread + nchunk) buf fp s'
        | Err e => Some (Err e)
        end
    end
  else Some (Ok s).

End chunks.

Section files.
Variable L : Lattice.
Variable hash : gmap Z nat.

(** [read_corners]: [nxyz] is the header of the file, [fp] the samples
    behind it and [buf] the chunk buffer as [memory->create] left it.  One
    pass of the loop reads at least one sample, so [ncorners] passes are
    enough. *)
Definition read_corners (nxyz : Z * Z * Z) (fp buf : list Z)
    (cvalues : list (list Z)) : option (outcome (list (list Z))) :=
  let '(n0, n1, n2) := nxyz in
  let flag := false in
  let flag := if bool_decide (n0 ≠ nx L + 1) then true else flag in
  let flag := if bool_decide (n1 ≠ ny L + 1) then true else flag in
  let flag := if bool_decide (dimension L = 3) && bool_decide (n2 ≠ nz L + 1)
              then true else flag in
  if flag then Some (Abort CornerFileMismatch)
  else
    raise <$> read_chunks (assign_corners L hash) (ncorners L)
                (Z.to_nat (ncorners L)) 0 buf fp cvalues.

(** [assign_types]: the loop over the values of one chunk, [cellindex]
    being [offset + i]. *)
Fixpoint types_loop (cellindex : Z) (buf : list Z) (svalues : list Z)
  : result (list Z) :=
  match buf with
  | [] => Ok svalues
  | v :: buf' =>
      match hash !! cellindex with
      | None => types_loop (cellindex + 1) buf' svalues
      | Some icell =>
          if bool_decide (icell < length svalues)%nat
          then types_loop (cellindex + 1) buf' (<[icell := v]> svalues)
          else Err OutOfBounds
      end
  end.

Definition assign_types (n : nat) (offset : Z) (buf : list Z) (svalues : list Z)
  : result (list Z) :=
  types_loop offset (take n buf) svalues.

Definition ntypes : Z := nx L * ny L * nz L.

Definition read_types (nxyz : Z * Z * Z) (fp buf : list Z) (svalues : list Z)
  : option (outcome (list Z)) :=
  let '(n0, n1, n2) := nxyz in
  let flag := false in
  let flag := if bool_decide (n0 ≠ nx L) then true else flag in
  let flag := if bool_decide (n1 ≠ ny L) then true else flag in
  let flag := if bool_decide (dimension L = 3) && bool_decide (n2 ≠ nz L)
              then true else flag in
  if flag then Some (Abort TypeFileMismatch)
  else
    raise <$> read_chunks assign_types ntypes (Z.to_nat ntypes) 0 buf fp svalues.

(** *** The corners of a cell, in the words of the comments of
    [assign_corners] *)

(** The entry [cvalues[icell][k]]. *)
Definition entry (cvalues : list (list Z)) (icell k : nat) : option Z :=
  row ← cvalues !! icell; row !! k.

(** The number of the corner of a cell that lies [dx], [dy], [dz] cells
    from its bottom-lower-left corner: 0..7 in the order
    bottom-lower-left, bottom-lower-right, bottom-upper-left, ...,
    top-upper-right. *)
Definition corner_number (dx dy dz : bool) : nat :=
  Z.to_nat (4 * Z.b2z dz + 2 * Z.b2z dy + Z.b2z dx).

(** The sample of the file at a lattice point. *)
Definition sample (file : list Z) (x y z : Z) : option Z :=
  file !! Z.to_nat (lattice_index L x y z).

(** No two local cells have the same index in the block. *)
Definition hash_injective : Prop :=
  ∀ a b i, hash !! a = Some i → hash !! b = Some i → a = b.

(** The write that one pass of the innermost loop of [assign_corners]
    makes, if any: the local cell and the corner number. *)
Definition target_3d (c : Z * Z * Z * nat) : option (nat * nat) :=
  let '(cix, ciy, ciz, ncorner) := c in
  if bool_decide (cix < 0 ∨ nx L ≤ cix ∨ ciy < 0 ∨ ny L ≤ ciy ∨
                  ciz < 0 ∨ nz L ≤ ciz)
  then None
  else icell ← hash !! (nx L * ny L * ciz + nx L * ciy + cix); Some (icell, ncorner).

Definition target_2d (c : Z * Z * Z * nat) : option (nat * nat) :=
  let '(cix, ciy, _, ncorner) := c in
  if bool_decide (cix < 0 ∨ nx L ≤ cix ∨ ciy < 0 ∨ ny L ≤ ciy)
  then None
  else icell ← hash !! (nx L * ciy + cix); Some (icell, ncorner).

(** The writes of one sample, in loop order. *)
Definition targets (pointindex : Z) : list (nat * nat) :=
  if bool_decide (dimension L = 3)
  then omap target_3d
         (corner_cells_3d (pix L pointindex) (piy L pointindex) (piz L pointindex))
  else omap target_2d (corner_cells_2d (pix L pointindex) (piy L pointindex)).

(** [cvalues[icell][ncorner] = v] *)
Definition write (v : Z) (cvalues : list (list Z)) (t : nat * nat) : list (list Z) :=
  alter (fun cv => <[snd t := v]> cv) (fst t) cvalues.

End files.

End Reader.

(** ** What the passes of [cleanup_MC] leave alone *)

Module CleanupFrame.
Import Cleanup.

(** A cell whose list of triangles may have changed and nothing else. *)
Definition same_but_list (c c' : ChildCell) : Prop :=
  cell_id c' = cell_id c ∧ proc c' = proc c ∧ ilocal c' = ilocal c ∧
  nsplit c' = nsplit c ∧ nmask c' = nmask c ∧ neigh c' = neigh c ∧
  lo c' = lo c ∧ hi c' = hi c.

(** The state after the pass over the faces: the triangle list holds the
    same triangles, up to the cell IDs they carry; the cells are the same
    up to their lists; the pairs the tally recorded are the same; the
    delete list, the list of processes and the send buffer have grown at
    the end, the last two by one entry for each face sent. *)
Definition kept_by_faces (me : Z) (st st' : State) : Prop :=
  Forall2 copy_but_id (tris st) (tris st') ∧
  Forall2 same_but_list (cells st) (cells st') ∧
  facetris st' = facetris st ∧
  (∃ dl, dellist st' = dellist st ++ dl) ∧
  (∃ pl bs, proclist st' = proclist st ++ pl ∧ bufsend st' = bufsend st ++ bs ∧
            length pl = length bs ∧ Forall (fun p => p ≠ me) pl).

(** The state after the pass over the received faces: the triangles that
    were in the list are untouched and new ones stand behind them, two for
    each face of [nadopt] received faces; the cells are the same up to their
    lists; the tally and what is to be sent are as they were. *)
Definition kept_by_recv (nadopt : nat) (st st' : State) : Prop :=
  (∃ new, tris st' = tris st ++ new ∧ length new = 2 * nadopt) ∧
  Forall2 same_but_list (cells st) (cells st') ∧
  nfacetri st' = nfacetri st ∧ facetris st' = facetris st ∧
  (∃ dl, dellist st' = dellist st ++ dl) ∧
  proclist st' = proclist st ∧ bufsend st' = bufsend st.

End CleanupFrame.

(** ** The command line: [command] and [process_args] *)

From Stdlib Require String.

Module Command.
Import String.StringSyntax.
Local Open Scope string_scope.
Local Open Scope Z_scope.

Definition string : Type := String.string.

(** The members that [process_args] sets: [sgrouparg] (0 for no group),
    [typefile] ([NULL] for none), [storeflag] and [storeID]. *)
Record Options : Type := mkOptions {
  sgrouparg : nat;
  typefile : option string;
  storeflag : bool;
  storeID : option string
}.

(** What the first part of [command] settles. *)
Record Settings : Type := mkSettings {
  ggroup : Z;
  lattice : Ingest.Lattice;
  gridfile : string;
  thresh : double;
  options : Options
}.

Section command.
(** The state of the run that [command] looks at, and the services of the
    classes [Grid], [Input] and [Modify], which are not among the
    sources. *)
Variable grid_exist surf_implicit surf_exist particle_exist axisymmetric : bool.
Variable dimension : Z.
Variable find_group : string → Z.
Variable inumeric : string → Z.
Variable numeric : string → double.
Variable find_fix : string → Z.
Variable fix_style : Z → string.
Variable fix_igroup : Z → Z.
Variable check_uniform_group : Z → Z * Z * Z.

(** The loop of [process_args] from [iarg] on; [arg] holds the arguments
    [arg[iarg]], [arg[iarg+1]], ...  The test [iarg+2 > narg] fails when no
    argument follows the keyword. *)
Fixpoint process_loop (ggroup : Z) (iarg : nat) (arg : list string) (o : Options)
  : outcome Options :=
  match arg with
  | [] => Done o
  | kw :: rest =>
      if String.eqb kw "group" then
        match rest with
        | [] => Abort InvalidCommand
        | _ :: rest' =>
            process_loop ggroup (iarg + 2) rest'
              (mkOptions (iarg + 1) (typefile o) (storeflag o) (storeID o))
        end
      else if String.eqb kw "type" then
        match rest with
        | [] => Abort InvalidCommand
        | v :: rest' =>
            process_loop ggroup (iarg + 2) rest'
              (mkOptions (sgrouparg o) (Some v) (storeflag o) (storeID o))
        end
      else if String.eqb kw "store" then
        match rest with
        | [] => Abort InvalidCommand
        | v :: rest' =>
            let ifix := find_fix v in
            if bool_decide (ifix < 0) then Abort NoFix
            else if negb (String.eqb (fix_style ifix) "ablate") then Abort NotAblate
            else if bool_decide (ggroup ≠ fix_igroup ifix) then Abort FixGroupMismatch
            else
              process_loop ggroup (iarg + 2) rest'
                (mkOptions (sgrouparg o) (typefile o) true (Some v))
        end
      else Abort InvalidCommand
  end.

Definition process_args (ggroup : Z) (arg : list string) : outcome Options :=
  process_loop ggroup 0 arg (mkOptions 0 None false None).

(** [command], up to the call of [create_hash]: the checks of the state
    and of the arguments.  [None] stands for the cast of a threshold that
    no [int] holds. *)
Definition command (arg : list string) : option (outcome Settings) :=
  if negb grid_exist then Some (Abort NoGrid)
  else if negb surf_implicit then Some (Abort NotImplicit)
  else if surf_exist then Some (Abort SurfsExist)
  else if particle_exist then Some (Abort ParticlesExist)
  else if axisymmetric then Some (Abort Axisymmetric)
  else
    match arg with
    | a0 :: a1 :: a2 :: a3 :: a4 :: a5 :: rest =>
        let ggroup := find_group a0 in
        if bool_decide (ggroup < 0) then Some (Abort NoGridGroup)
        else
          let nx := inumeric a1 in
          let ny := inumeric a2 in
          let nz := inumeric a3 in
          if bool_decide (dimension = 2) && bool_decide (nz ≠ 1)
          then Some (Abort InvalidCommand)
          else
            let thresh := numeric a5 in
            if (thresh <=? zero)%D || (thresh >=? of_int 255)%D
            then Some (Abort InvalidCommand)
            else
              ithresh ← Reader.to_int thresh;
              if (of_int ithresh =? thresh)%D then Some (Abort IntegerThresh)
              else
                match process_args ggroup rest with
                | Abort e => Some (Abort e)
                | Done o =>
                    let '(n0, n1, n2) := check_uniform_group ggroup in
                    if bool_decide (nx ≠ n0 ∨ ny ≠ n1 ∨ nz ≠ n2)
                    then Some (Abort BlockMismatch)
                    else Some (Done (mkSettings ggroup
                                       (Ingest.Build_Lattice dimension nx ny nz)
                                       a4 thresh o))
                end
    | _ => Some (Abort IllegalCommand)
    end.

(** The name [command] hands to [surf->find_group] when [sgrouparg] is
    set: [arg[sgrouparg]], an entry of the argument list of [command]. *)
Definition sgroup_name (arg : list string) (o : Options) : option string :=
  if bool_decide (sgrouparg o = 0%nat) then None else arg !! sgrouparg o.

End command.

(** Option lists, in the words of the documentation of the command: pairs
    of a keyword and its value. *)
Definition keyword (kw : string) : Prop :=
  kw = "group" ∨ kw = "type" ∨ kw = "store".

(** A pair that [process_args] accepts for the grid group [g]: the value
    of a [store] names a fix of the style [ablate] on that group. *)
Definition accepted (find_fix : string → Z) (fix_style : Z → string)
    (fix_igroup : Z → Z) (g : Z) (p : string * string) : Prop :=
  keyword (fst p) ∧
  (fst p = "store" →
   0 ≤ find_fix (snd p) ∧ fix_style (find_fix (snd p)) = "ablate" ∧
   g = fix_igroup (find_fix (snd p))).

Definition flatten (pairs : list (string * string)) : list string :=
  pairs ≫= fun p => [fst p; snd p].

(** The value of the last pair with a keyword, and the number of that
    pair. *)
Fixpoint last_value (kw : string) (pairs : list (string * string)) : option string :=
  match pairs with
  | [] => None
  | p :: rest =>
      match last_value kw rest with
      | Some v => Some v
      | None => if String.eqb (fst p) kw then Some (snd p) else None
      end
  end.

Fixpoint last_place (kw : string) (pairs : list (string * string)) : option nat :=
  match pairs with
  | [] => None
  | p :: rest =>
      match last_place kw rest with
      | Some k => Some (S k)
      | None => if String.eqb (fst p) kw then Some 0%nat else None
      end
  end.

End Command.

(** ** The end of [cleanup_MC]: the triangle list is compressed *)

From stdpp Require sorting.

Module Compress.
Import Cleanup.

(** [compare_indices], and the order [qsort] gives a list with it: [i]
    may stand before [j] when the comparison is not positive. *)
Definition compare_indices (i j : nat) : Z :=
  if bool_decide (i < j) then 1%Z else if bool_decide (j < i) then (-1)%Z else 0%Z.

Definition before (i j : nat) : Prop := (compare_indices i j ≤ 0)%Z.

Global Instance before_dec (i j : nat) : Decision (before i j).
Proof. unfold before. apply _. Defined.

Definition qsort (l : list nat) : list nat := sorting.merge_sort before l.

(** A list that descends strictly from below [bound]: the order of the
    sorted delete list when no triangle is in it twice. *)
Fixpoint descending (bound : nat) (l : list nat) : Prop :=
  match l with
  | [] => True
  | d :: l' => d < bound ∧ descending d l'
  end.

Section compress.
(** [grid->hash]: from the ID of a cell to its local index plus one. *)
Variable grid_hash : gmap Z nat.

(** The body of the loop over the sorted delete list: the last triangle
    moves to the place [m], and the cell that its ID names is searched for
    the old place of the triangle.  For [m = nslocal-1] the copy has the
    same source and destination and changes nothing. *)
Definition compress_step (acc : outcome (list Tri * nat * list ChildCell)) (m : nat)
  : outcome (list Tri * nat * list ChildCell) :=
  '(tris, nslocal, cells) ← acc;
  if bool_decide (nslocal = 0) then Abort (Raised OutOfBounds)
  else
    last ← raise (get tris (nslocal - 1));
    if bool_decide (length tris ≤ m) then Abort (Raised OutOfBounds)
    else
      let tris := <[m := last]> tris in
      let nslocal := nslocal - 1 in
      t ← raise (get tris m);
      match grid_hash !! id t with
      | None | Some O => Abort (Raised OutOfBounds)
      | Some (S icell) =>
          cell ← raise (get cells icell);
          if bool_decide (length (csurfs cell) < nsurf cell)
          then Abort (Raised OutOfBounds)
          else
            match list_find (fun x => x = nslocal) (surfs cell) with
            | Some (k, _) =>
                Done (tris, nslocal,
                      <[icell := set_csurfs (nsurf cell) (<[k := m]> (csurfs cell)) cell]>
                        cells)
            | None => Abort MovedTriNotFound
            end
      end.

(** From [qsort] to [memory->destroy(dellist)]; [surf->nlocal] is the
    length of the triangle list. *)
Definition compress (st : State) : outcome State :=
  '(tris, nslocal, cells) ←
    foldl compress_step (Done (tris st, length (tris st), cells st)) (qsort (dellist st));
  Done (set_dellist [] (set_cells cells (set_tris (take nslocal tris) st))).

(** *** What the compression relies on and what it keeps *)

(** A triangle is listed by the cell that its ID names. *)
Definition listed (tris : list Tri) (cells : list ChildCell) (e : nat) : Prop :=
  ∃ t icell cell,
    tris !! e = Some t ∧ grid_hash !! id t = Some (S icell) ∧
    cells !! icell = Some cell ∧ e ∈ surfs cell.

(** The lists of the cells agree with the triangle list, [nslocal] of
    whose entries are in use, and with the delete list [dl]: a cell lists
    no triangle twice and no deleted one, every triangle it lists carries
    its ID, and every triangle that is not deleted is listed. *)
Definition consistent (tris : list Tri) (nslocal : nat) (cells : list ChildCell)
    (dl : list nat) : Prop :=
  nslocal ≤ length tris ∧
  (∀ icell cell,
     cells !! icell = Some cell →
     nsurf cell ≤ length (csurfs cell) ∧ NoDup (surfs cell) ∧
     ∀ e, e ∈ surfs cell →
          (e < nslocal) ∧ (e ∉ dl) ∧
          ∃ t, tris !! e = Some t ∧ grid_hash !! id t = Some (S icell)) ∧
  (∀ e, e < nslocal → e ∉ dl → listed tris cells e).

(** A cell after the compression: the same cell, with a list of the same
    length that names the same triangles in the same order. *)
Definition same_triangles (tris tris' : list Tri) (c c' : ChildCell) : Prop :=
  cell_id c' = cell_id c ∧ proc c' = proc c ∧ ilocal c' = ilocal c ∧
  nsplit c' = nsplit c ∧ nmask c' = nmask c ∧ neigh c' = neigh c ∧
  lo c' = lo c ∧ hi c' = hi c ∧ nsurf c' = nsurf c ∧
  (fun e => tris' !! e) <$> surfs c' = (fun e => tris !! e) <$> surfs c.

End compress.

End Compress.

(** ** The interior test of Lewiner: [test_interior] *)

Module CubeTests.
Import Cubes.
Local Open Scope Z_scope.

(** The values [At], [Bt], [Ct], [Dt] of a reference edge: [t] is where
    the value along the edge from [p] to [q] is zero, and [Bt], [Ct], [Dt]
    are the values at height [t] on the three edges parallel to it. *)
Definition edge_values (p q b0 b1 c0 c1 d0 d1 : double)
  : double * double * double * double :=
  let t := (p / (p - q))%D in
  (zero, b0 + (b1 - b0) * t, c0 + (c1 - c0) * t, d0 + (d1 - d0) * t)%D.

(** The end of [test_interior]: the number [test] of the signs of [At],
    [Bt], [Ct], [Dt] and the [switch] over it; a [case] that leaves the
    [switch] reaches the last [return s<0]. *)
Definition sign_test (s : Z) (At Bt Ct Dt : double) : bool :=
  let test := (if (At >=? zero)%D then 1 else 0) + (if (Bt >=? zero)%D then 2 else 0)
              + (if (Ct >=? zero)%D then 4 else 0) + (if (Dt >=? zero)%D then 8 else 0) in
  match test with
  | 0 | 1 | 2 | 3 | 4 => bool_decide (s > 0)
  | 5 => if (At * Ct - Bt * Dt <? EPSILON)%D then bool_decide (s > 0)
         else bool_decide (s < 0)
  | 6 => bool_decide (s > 0)
  | 7 => bool_decide (s < 0)
  | 8 | 9 => bool_decide (s > 0)
  | 10 => if (At * Ct - Bt * Dt >=? EPSILON)%D then bool_decide (s > 0)
          else bool_decide (s < 0)
  | 11 => bool_decide (s < 0)
  | 12 => bool_decide (s > 0)
  | 13 | 14 | 15 => bool_decide (s < 0)
  | _ => bool_decide (s < 0)
  end.

Section cube.
Variable thresh : double.
Variable c : Cube.
(** The members [config] and [subconfig], and the tables of
    [lookup_table.h] that [test_interior] reads, which is not among the
    sources. *)
Variable config subconfig : Z.
Variable test6 test7 test12 : Z → Z → Z.
Variable tiling13_5_1 : Z → Z → Z → Z.

Let v000iso : double := Cubes.v000iso thresh c.
Let v001iso : double := Cubes.v001iso thresh c.
Let v010iso : double := Cubes.v010iso thresh c.
Let v011iso : double := Cubes.v011iso thresh c.
Let v100iso : double := Cubes.v100iso thresh c.
Let v101iso : double := Cubes.v101iso thresh c.
Let v110iso : double := Cubes.v110iso thresh c.
Let v111iso : double := Cubes.v111iso thresh c.

(** The inner [switch (icase)]: the reference edge of the
    triangulation; [edge] starts as -1. *)
Definition reference_edge (icase : Z) : Z :=
  match icase with
  | 6 => test6 config 2
  | 7 => test7 config 4
  | 12 => test12 config 3
  | 13 => tiling13_5_1 config subconfig 0
  | _ => -1
  end.

(** The [switch (edge)]. *)
Definition edge_case (edge : Z) : option (double * double * double * double) :=
  match edge with
  | 0 => Some (edge_values v000iso v001iso v010iso v011iso v110iso v111iso v100iso v101iso)
  | 1 => Some (edge_values v001iso v011iso v000iso v010iso v100iso v110iso v101iso v111iso)
  | 2 => Some (edge_values v011iso v010iso v001iso v000iso v101iso v100iso v111iso v110iso)
  | 3 => Some (edge_values v010iso v000iso v011iso v001iso v111iso v101iso v110iso v100iso)
  | 4 => Some (edge_values v100iso v101iso v110iso v111iso v010iso v011iso v000iso v001iso)
  | 5 => Some (edge_values v101iso v111iso v100iso v110iso v000iso v010iso v001iso v011iso)
  | 6 => Some (edge_values v111iso v110iso v101iso v100iso v001iso v000iso v011iso v010iso)
  | 7 => Some (edge_values v110iso v100iso v111iso v101iso v011iso v001iso v010iso v000iso)
  | 8 => Some (edge_values v000iso v100iso v010iso v110iso v011iso v111iso v001iso v101iso)
  | 9 => Some (edge_values v001iso v101iso v000iso v100iso v010iso v110iso v011iso v111iso)
  | 10 => Some (edge_values v011iso v111iso v001iso v101iso v000iso v100iso v010iso v110iso)
  | 11 => Some (edge_values v010iso v110iso v011iso v111iso v001iso v101iso v000iso v100iso)
  | _ => None
  end.

Definition test_interior (s icase : Z) : outcome bool :=
  match icase with
  | 4 | 10 =>
      let a := ((v100iso - v000iso) * (v111iso - v011iso)
                - (v110iso - v010iso) * (v101iso - v001iso))%D in
      let b := (v011iso * (v100iso - v000iso) + v000iso * (v111iso - v011iso)
                - v001iso * (v110iso - v010iso) - v010iso * (v101iso - v001iso))%D in
      let t := (- b / (of_int 2 * a))%D in
      if (t <? zero)%D || (t >? one)%D then Done (bool_decide (s > 0))
      else
        let At := (v000iso + (v100iso - v000iso) * t)%D in
        let Bt := (v010iso + (v110iso - v010iso) * t)%D in
        let Ct := (v011iso + (v111iso - v011iso) * t)%D in
        let Dt := (v001iso + (v101iso - v001iso) * t)%D in
        Done (sign_test s At Bt Ct Dt)
  | 6 | 7 | 12 | 13 =>
      match edge_case (reference_edge icase) with
      | Some (At, Bt, Ct, Dt) => Done (sign_test s At Bt Ct Dt)
      | None => Abort InvalidEdge
      end
  | _ => Abort InvalidAmbiguousCase
  end.

End cube.

End CubeTests.

(** ** The box of a 3-D cell *)

Module CubeBox.
Import Cubes.

(** A point lies in the box of the cell, faces included. *)
Definition in_box (c : Cube) (p : point) : Prop :=
  ((px (lo c) <=? px p)%D = true ∧ (px p <=? px (hi c))%D = true) ∧
  ((py (lo c) <=? py p)%D = true ∧ (py p <=? py (hi c))%D = true) ∧
  ((pz (lo c) <=? pz p)%D = true ∧ (pz p <=? pz (hi c))%D = true).

(** The eight sign bits of a cell in the order of the bits of [which]. *)
Definition bits (thresh : double) (c : Cube) : list bool :=
  [bit0 thresh c; bit1 thresh c; bit2 thresh c; bit3 thresh c;
   bit4 thresh c; bit5 thresh c; bit6 thresh c; bit7 thresh c].

End CubeBox.

(** ** The edges of a 2-D cell *)

Module SquareEdges.
Import Squares.
Local Open Scope Z_scope.

(** The four edges of a cell, and for each the two corners it joins and
    the point that [marching_squares] puts on it. *)
Inductive edge : Type := ELeft | EBottom | ERight | ETop.

Global Instance edge_eq_dec : EqDecision edge.
Proof. solve_decision. Defined.

Definition edge_corners (e : edge) : corner * corner :=
  match e with
  | ELeft => (C00, C10)
  | EBottom => (C00, C01)
  | ERight => (C01, C11)
  | ETop => (C10, C11)
  end.

(** The edges that a list of pairs of edges names, in order. *)
Definition edges_of (prs : list (edge * edge)) : list edge :=
  prs ≫= fun p => [fst p; snd p].

Section cell.
Variable thresh : double.
Variable s : Square.

Definition edge_point (e : edge) : point :=
  match e with
  | ELeft => pt_left thresh s
  | EBottom => pt_bottom thresh s
  | ERight => pt_right thresh s
  | ETop => pt_top thresh s
  end.

(** The sign bit of a corner, [v <= thresh ? 0 : 1], and the edges whose
    two ends differ in it. *)
Definition above (c : corner) : bool := negb (of_int (corner_value s c) <=? thresh)%D.

Definition crossed (e : edge) : bool :=
  xorb (above (fst (edge_corners e))) (above (snd (edge_corners e))).

(** A point lies on an edge of the box of the cell. *)
Definition on_edge (e : edge) (p : point) : Prop :=
  pz p = zero ∧
  match e with
  | ELeft => px p = fst (lo s) ∧
             (snd (lo s) <=? py p)%D = true ∧ (py p <=? snd (hi s))%D = true
  | ERight => px p = fst (hi s) ∧
              (snd (lo s) <=? py p)%D = true ∧ (py p <=? snd (hi s))%D = true
  | EBottom => py p = snd (lo s) ∧
               (fst (lo s) <=? px p)%D = true ∧ (px p <=? fst (hi s))%D = true
  | ETop => py p = snd (hi s) ∧
            (fst (lo s) <=? px p)%D = true ∧ (px p <=? fst (hi s))%D = true
  end.

End cell.

(** The bounds of a cell are finite and [lo <= hi] in both directions. *)
Definition box_ok (s : Square) : Prop :=
  ∃ a0 a1 b0 b1 : Qc,
    lo s = (Fin a0, Fin a1) ∧ hi s = (Fin b0, Fin b1) ∧ (a0 ≤ b0)%Qc ∧ (a1 ≤ b1)%Qc.

End SquareEdges.

(** ** Data of the worked examples *)

Module Examples.
Import Cleanup.

Definition ipt (x y z : Z) : point := Pt (of_int x) (of_int y) (of_int z).

(** Modelled from the spec: [Geometry::tri_on_hex_face], which is not among
    the sources; the face-classifier that reports whether a triangle lies
    entirely on a specific face of the cell: the index 0..5 of the face
    (xlo, xhi, ylo, yhi, zlo, zhi) that holds all three corner points, or
    -1. *)
Definition tri_on_hex_face (v0 v1 v2 lo hi : point) : Z :=
  let on (k : nat) (b : point) :=
    (coord v0 k =? coord b k)%D && (coord v1 k =? coord b k)%D &&
    (coord v2 k =? coord b k)%D in
  if on 0 lo then 0 else if on 0 hi then 1
  else if on 1 lo then 2 else if on 1 hi then 3
  else if on 2 lo then 4 else if on 2 hi then 5
  else -1.

(** A stand-in for [Grid::neigh_decode] in the examples: three bits of the
    mask for each face; 6 is [NBOUND]. *)
Definition neigh_decode (nmask : Z) (iface : nat) : Z :=
  Z.land (Z.shiftr nmask (3 * Z.of_nat iface)) 7.

Definition mask_of (flags : list Z) : Z :=
  foldr (fun f acc => f + 8 * acc)%Z 0%Z flags.

(** A stand-in for what [Surf::add_tri] stores. *)
Definition new_tri (itype : Z) (q1 q2 q3 : point) : Tri :=
  mkTri 0 itype 1 q1 q2 q3 (ipt 0 0 0).

(** Two unit cells side by side: cell A (ID 11) on [0,1]^3 and cell B
    (ID 12) on [1,2]x[0,1]^2; the face xhi of A is the face xlo of B. *)
Definition cellA (owner : Z) (ns : nat) (ptr : list nat) (nb : nat) : ChildCell :=
  mkCell 11 owner 0 1 ns ptr (mask_of [6; 0; 6; 6; 6; 6]%Z)
    [0; nb; 0; 0; 0; 0] (ipt 0 0 0) (ipt 1 1 1).
Definition cellB (owner : Z) (ns : nat) (ptr : list nat) (nb : nat) : ChildCell :=
  mkCell 12 owner 0 1 ns ptr (mask_of [0; 6; 6; 6; 6; 6]%Z)
    [nb; 0; 0; 0; 0; 0] (ipt 1 0 0) (ipt 2 1 1).

(** Two triangles on the plane x = 1 with normal [(nx, 0, 0)], and one
    triangle inside each cell. *)
Definition face_tri0 (cid nx : Z) : Tri :=
  mkTri cid 1 1 (ipt 1 0 0) (ipt 1 1 0) (ipt 1 0 1) (ipt nx 0 0).
Definition face_tri1 (cid nx : Z) : Tri :=
  mkTri cid 1 1 (ipt 1 1 0) (ipt 1 1 1) (ipt 1 0 1) (ipt nx 0 0).
Definition inner_triA : Tri :=
  mkTri 11 1 1 (ipt 0 0 0) (ipt 1 1 0) (ipt 0 1 1) (ipt 0 0 1).
Definition inner_triB : Tri :=
  mkTri 12 1 1 (ipt 1 0 0) (ipt 2 1 0) (ipt 1 1 1) (ipt 0 0 1).

Definition untallied (ts : list Tri) (cs : list ChildCell) : State :=
  mkState ts cs [] [] [] [] [].

(** One process owns both cells; A holds the pair, with a normal that
    points into B ([nx = 1]) or into A ([nx = -1]). *)
Definition one_proc_pair (nx : Z) : State :=
  untallied [face_tri0 11 nx; face_tri1 11 nx; inner_triA; inner_triB]
    [cellA 0 3 [0; 1; 2] 1; cellB 0 1 [3] 0]%nat.

(** One process owns both cells and each holds a pair on the shared
    face. *)
Definition one_proc_two_pairs : State :=
  untallied [face_tri0 11 1; face_tri1 11 1; inner_triA; inner_triB;
             face_tri0 12 (-1); face_tri1 12 (-1)]
    [cellA 0 3 [0; 1; 2] 1; cellB 0 3 [3; 4; 5] 0]%nat.

(** Process 0 owns A and sees B as a ghost cell of process 1, where B is
    the owned cell 0; process 1 owns B. *)
Definition sender_state (nx : Z) : State :=
  untallied [face_tri0 11 nx; face_tri1 11 nx; inner_triA]
    [cellA 0 3 [0; 1; 2] 1; cellB 1 0 [] 0]%nat.
Definition receiver_state : State :=
  untallied [inner_triB] [cellB 1 1 [0] 1; cellA 0 0 [] 0]%nat.

(** The states after the tally. *)
Definition tallied_state (nglocal : nat) (st : State) : State :=
  match tally tri_on_hex_face nglocal st with Ok st' => st' | Err _ => st end.

(** One cell with a single triangle on its face xhi. *)
Definition lone_face_tri : State :=
  untallied [face_tri0 11 1; inner_triA] [cellA 0 2 [0; 1] 1; cellB 0 0 [] 0]%nat.

End Examples.

Module CubeExamples.
Import Cubes.
Local Open Scope Z_scope.

(** The threshold 127.5 of the byte values 0..255, and a cell on the unit
    box with its eight corner values in the order of the fields. *)
Definition half : double := Fin (Q2Qc (255 # 2)).

Definition unit_cell (a000 a001 a010 a011 a100 a101 a110 a111 : Z) : Cube :=
  mkCube a000 a001 a010 a011 a100 a101 a110 a111
         (Pt zero zero zero) (Pt one one one).

(** Case 4: the two ends of a diagonal are above the threshold, the other
    six corners far below it, or just below it. *)
Definition far : Cube := unit_cell 255 0 0 0 0 0 0 255.
Definition near : Cube := unit_cell 255 127 127 127 127 127 127 255.

(** A saddle on the face 1: 000 and 101 are above the threshold, evenly,
    or 101 by less than 000. *)
Definition even_saddle : Cube := unit_cell 255 0 0 0 0 255 0 0.
Definition saddle_face : Cube := unit_cell 255 0 0 0 0 200 0 0.

Definition half_one : double := Fin (Q2Qc (1 # 2)).

(** Stand-ins for the rows of the test tables of [lookup_table.h]: a row
    that holds [s] everywhere. *)
Definition row (s : Z) : Z → Z := fun _ => s.
Definition rows (s : Z) : Z → Z → Z := fun _ _ => s.

End CubeExamples.

(** ** Data of the further examples *)

Module ReaderExamples.
Import Ingest Reader.
Local Open Scope Z_scope.

(** The file of the 2 x 2 x 2 block whose only non-zero sample is the
    centre of the block, and the values [cvalues] holds after it is read. *)
Definition centre_file : list Z := <[13%nat := 255]> (replicate 27 0).
Definition centre_cvalues : list (list Z) :=
  imap (fun k cv => <[(7 - k)%nat := 255]> cv) block222_cvalues.

(** A type file of the block: the cell with index [a] has type [10 + a]. *)
Definition types_file : list Z := seqZ 10 8.

(** A 100 x 100 block of a 2-D run, none of whose cells is local: 10201
    samples, more than one chunk. *)
Definition plane : Lattice := {| dimension := 2; nx := 100; ny := 100; nz := 1 |}.
Definition plane_file (last : Z) : list Z := replicate (Z.to_nat 10200) 0 ++ [last].

(** A row of two cells along x, of size 2, 1, 1 from the corner (10, 0, 0);
    the local cells are the second of the row, a cell outside the group
    and the first of the row, a little off its place. *)
Definition row2 : Lattice := {| dimension := 3; nx := 2; ny := 1; nz := 1 |}.
Definition row2_corner : point := Pt (of_int 10) zero zero.
Definition row2_size : point := Pt (of_int 2) one one.
Definition row2_cells : list GroupCell :=
  [ mkGroupCell (Pt (of_int 12) zero zero) 1;
    mkGroupCell (Pt (of_int 50) zero zero) 2;
    mkGroupCell (Pt (Fin (Q2Qc (101 # 10))) zero zero) 3 ].
Definition row2_pos (i : nat) : Z * Z * Z :=
  match i with O => (1, 0, 0) | _ => (0, 0, 0) end.

End ReaderExamples.

Module CommandExamples.
Import Command.
Import String.StringSyntax.
Local Open Scope string_scope.
Local Open Scope Z_scope.

(** Stand-ins for the services [command] calls: the grid group [all] is
    the group 0, the block of its cells is 2 x 2 x 2, and the only fix is
    the fix [abl], of style [ablate], on the group 0. *)
Definition find_group (s : string) : Z := if String.eqb s "all" then 0 else -1.
Definition inumeric (s : string) : Z := if String.eqb s "2" then 2 else 0.
Definition numeric (s : string) : double :=
  if String.eqb s "127.5" then CubeExamples.half else zero.
Definition find_fix (s : string) : Z := if String.eqb s "abl" then 0 else -1.
Definition fix_style (ifix : Z) : string := "ablate".
Definition fix_igroup (ifix : Z) : Z := 0.
Definition check_uniform_group (ggroup : Z) : Z * Z * Z := (2, 2, 2).

(** [command] in a 3-D run with a grid, implicit surfaces switched on, and
    neither surfaces nor particles. *)
Definition run (arg : list string) : option (outcome Settings) :=
  command true true false false false 3 find_group inumeric numeric
    find_fix fix_style fix_igroup check_uniform_group arg.

Definition args : list string :=
  ["all"; "2"; "2"; "2"; "corners.bin"; "127.5"; "group"; "inner"; "store"; "abl"].

Definition settings : Settings :=
  mkSettings 0 block222 "corners.bin" CubeExamples.half
    (mkOptions 1 None true (Some "abl")).

End CommandExamples.

Module CompressExamples.
Import Cleanup Examples.

(** [grid->hash] of the two cells of the examples. *)
Definition grid_hash : gmap Z nat := {[ 11%Z := 1; 12%Z := 2 ]}.

(** Process 0 after it has sent the pair of the cell A: A lists its inner
    triangle only, and the pair is on the delete list.  The pair stands
    before the inner triangle in the list of triangles, or behind it. *)
Definition pair_first : State :=
  mkState [face_tri0 11 1; face_tri1 11 1; inner_triA]
    [cellA 0 1 [2; 1; 2] 1; cellB 1 0 [] 0] [] [] [0; 1] [1%Z] [].
Definition pair_last : State :=
  mkState [inner_triA; face_tri0 11 1; face_tri1 11 1]
    [cellA 0 1 [0; 1; 2] 1; cellB 1 0 [] 0] [] [] [1; 2] [1%Z] [].

(** The states after the pass over the faces and after the pass over the
    received faces. *)
Definition after_faces (me : Z) (nglocal : nat) (st : State) : State :=
  match local_pass me neigh_decode nglocal st with Ok st' => st' | Err _ => st end.
Definition after_recv (bufrecv : list SendDatum) (st : State) : State :=
  match recv_pass new_tri bufrecv st with Ok st' => st' | Err _ => st end.

End CompressExamples.

(** * Properties *)

(** *** Properties of the interpolator *)

Section interpolate_props.
Local Open Scope Qc_scope.

Lemma MAX_fin_r (x : double) (l : Qc) :
  ∃ r, MAX x (Fin l) = r ∧
       (r = PInf ∨ ∃ q, r = Fin q ∧ l ≤ q).
Proof.
  destruct x as [q| | |]; unfold MAX; simpl.
  - case_bool_decide as Hlt.
    + eexists; split; [done|right]. eexists; split; [done|].
      by apply Qclt_le_weak.
    + eexists; split; [done|right]. by eexists.
  - eexists; split; [done|by left].
  - eexists; split; [done|right]. by eexists.
  - eexists; split; [done|right]. by eexists.
Qed.

Lemma interpolate_fin_formula (t : Qc) (v0 v1 : Z) (l h : Qc) :
  v0 ≠ v1 →
  interpolate (Fin t) v0 v1 (Fin l) (Fin h)
  = MIN (MAX (Fin (l + (h - l) * (t - Qc_of_Z v0) / (Qc_of_Z v1 - Qc_of_Z v0)))
             (Fin l)) (Fin h).
Proof.
  intros Hne. unfold interpolate, of_int. simpl.
  rewrite decide_False; [by rewrite Z2Qc_inj_sub|].
  rewrite <- Z2Qc_inj_0. intros Heq%Z2Qc_inj. lia.
Qed.

Lemma MIN_MAX_clamp (x l h : Qc) :
  l ≤ h → MIN (MAX (Fin x) (Fin l)) (Fin h) = Fin (clamp l h x).
Proof.
  intros Hlh. unfold MIN, MAX, clamp, gtb, ltb.
  repeat (case_bool_decide || case_decide); try done; qc_order.
Qed.

Lemma clamp_bounds (x l h : Qc) : l ≤ h → l ≤ clamp l h x ∧ clamp l h x ≤ h.
Proof.
  intros Hlh. unfold clamp. repeat case_decide; split; qc_order.
Qed.

End interpolate_props.

(** When the two endpoint values are equal the quotient is a division by
    zero; the comparison macros then return one end of the interval. *)
Lemma interpolate_degenerate (t : Qc) (v : Z) (l h : Qc) :
  (l ≤ h)%Qc →
  interpolate (Fin t) v v (Fin l) (Fin h) = Fin l ∨
  interpolate (Fin t) v v (Fin l) (Fin h) = Fin h.
Proof.
  intros Hlh. unfold interpolate, of_int. rewrite Z.sub_diag. simpl.
  destruct (_ ?= _)%Qc; unfold MAX, MIN; simpl;
    repeat case_bool_decide; auto.
Qed.

(** The result is finite and lies between the two coordinates. *)
Lemma interpolate_between (t : Qc) (v0 v1 : Z) (l h : Qc) :
  (l ≤ h)%Qc →
  ∃ r : Qc, interpolate (Fin t) v0 v1 (Fin l) (Fin h) = Fin r ∧ (l ≤ r)%Qc ∧ (r ≤ h)%Qc.
Proof.
  intros Hlh. destruct (decide (v0 = v1)) as [->|Hne].
  - destruct (interpolate_degenerate t v1 l h Hlh) as [->| ->].
    + exists l. repeat split; [qc_order|done].
    + exists h. repeat split; [done|qc_order].
  - rewrite interpolate_fin_formula, MIN_MAX_clamp by done.
    eexists. split; [done|]. by apply clamp_bounds.
Qed.



Example interpolate_scenario_1 :
  interpolate (Fin (Q2Qc (255 # 2))) 200 0 (Fin 0) (Fin 1) = Fin (Q2Qc (29 # 80)).
Proof. by vm_compute. Qed.

(** *** Properties of the saddle cases *)

Section squares_props.
Import Squares.
Local Open Scope Z_scope.

Lemma ave_mean (s : Square) :
  ave s = Fin (Qc_of_Z (v00 s + v01 s + v10 s + v11 s) / Qc_of_Z 4)%Qc.
Proof.
  unfold ave, of_int. simpl. f_equal. unfold Qcdiv.
  rewrite Qcmult_comm. f_equal.
Qed.

Local Ltac saddle_corners c c' :=
  exists c, c'; do 2 eexists; split; [reflexivity|];
  split; [discriminate|];
  unfold inside, cuts_off; cbn [corner_value corner_crossings fst snd];
  repeat split; try congruence; auto.

(** C5: marching squares emits exactly two segments for the sign indices
    5 and 10 and for no other; there it compares the mean
    [(v00+v01+v10+v11)/4] of the corner values with the threshold, and a
    mean strictly above the threshold gives the pair of segments that
    leaves the inside region connected through the centre of the cell
    (the pair the specification calls crossing), any other mean the pair
    that separates the two inside corners. *)
Theorem saddle_disambiguation (t : Qc) (s : Square) :
  let segs := marching_squares_cell (Fin t) s in
  let mean := (Qc_of_Z (v00 s + v01 s + v10 s + v11 s) / Qc_of_Z 4)%Qc in
  (length segs = 2%nat ↔ which (Fin t) s = 5 ∨ which (Fin t) s = 10) ∧
  (which (Fin t) s = 5 ∨ which (Fin t) s = 10 →
   ((t < mean)%Qc → connected_pair (Fin t) s segs) ∧
   (¬ (t < mean)%Qc → separated_pair (Fin t) s segs)).
Proof.
  intros segs mean. subst segs.
  unfold marching_squares_cell, switch_which, connected_pair, separated_pair.
  rewrite ave_mean. fold mean. unfold gtb. simpl ltb.
  unfold which, bit0, bit1, bit2, bit3, bit_of.
  destruct (of_int (v00 s) <=? Fin t)%D eqn:E00,
    (of_int (v01 s) <=? Fin t)%D eqn:E01,
    (of_int (v10 s) <=? Fin t)%D eqn:E10,
    (of_int (v11 s) <=? Fin t)%D eqn:E11; simpl.
  all: try (split; [split; [discriminate|intros [?|?]; discriminate]
                   |intros [?|?]; discriminate]).
  - split; [case_bool_decide; simpl; split; auto|].
    intros _. split; intros Hm.
    + rewrite bool_decide_true by done. saddle_corners C00 C11.
    + rewrite bool_decide_false by done. saddle_corners C10 C01.
  - split; [case_bool_decide; simpl; split; auto|].
    intros _. split; intros Hm.
    + rewrite bool_decide_true by done. saddle_corners C10 C01.
    + rewrite bool_decide_false by done. saddle_corners C00 C11.
Qed.

Example saddle_above_segments :
  which (Fin (Q2Qc (255 # 2))) saddle_above = 5 ∧
  marching_squares_cell (Fin (Q2Qc (255 # 2))) saddle_above =
    [ (Pt zero (Fin (Q2Qc (29 # 40))) zero, Pt (Fin (Q2Qc (11 # 40))) one zero);
      (Pt one (Fin (Q2Qc (11 # 40))) zero, Pt (Fin (Q2Qc (29 # 40))) zero zero) ].
Proof. by vm_compute. Qed.

Example saddle_below_segments :
  which (Fin (Q2Qc (255 # 2))) saddle_below = 5 ∧
  marching_squares_cell (Fin (Q2Qc (255 # 2))) saddle_below =
    [ (Pt zero (Fin (Q2Qc (29 # 80))) zero, Pt (Fin (Q2Qc (29 # 80))) zero zero);
      (Pt one (Fin (Q2Qc (51 # 80))) zero, Pt (Fin (Q2Qc (51 # 80))) one zero) ].
Proof. by vm_compute. Qed.

End squares_props.

(** *** The boundary test *)

Section ingest_props.
Import Ingest.
Local Open Scope Z_scope.
Variable L : Lattice.
Variable hash : gmap Z nat.

Lemma wrap_int_small (z : Z) : 0 ≤ z ≤ INT_MAX → wrap_int z = z.
Proof.
  unfold wrap_int, INT_MAX. intros Hz.
  rewrite Z.mod_small; lia.
Qed.

(** Decoding a point index gives back the lattice coordinates. *)
Lemma decode_lattice_index (x y z : Z) :
  extents_ok L → in_lattice L x y z →
  pix L (lattice_index L x y z) = x ∧
  piy L (lattice_index L x y z) = y ∧
  piz L (lattice_index L x y z) = z.
Proof.
  intros (Hx & Hy & Hz & Hmax) (Hxr & Hyr & Hzr).
  assert (0 ≤ z) as Hz0 by (case_bool_decide; lia).
  unfold pix, piy, piz, lattice_index.
  rewrite wrap_int_small by nia.
  assert (0 ≤ y + (ny L + 1) * z) by nia.
  rewrite Z.rem_mod_nonneg, Z.quot_div_nonneg by nia.
  rewrite Z.rem_mod_nonneg by (try apply Z.div_pos; nia).
  rewrite Z.quot_div_nonneg by nia.
  assert ((x + (nx L + 1) * (y + (ny L + 1) * z)) `div` (nx L + 1) = y + (ny L + 1) * z) as Hq.
  { symmetry. apply (Z.div_unique _ _ _ x); lia. }
  rewrite Hq. repeat split.
  - symmetry. apply (Z.mod_unique _ _ (y + (ny L + 1) * z)); lia.
  - symmetry. apply (Z.mod_unique _ _ z); lia.
  - symmetry. apply (Z.div_unique _ _ _ (x + (nx L + 1) * y)); nia.
Qed.

(** Every sample of the file is a lattice point ([nz] is 1 in a 2-D run). *)
Lemma index_in_lattice (idx : Z) :
  extents_ok L → (dimension L ≠ 3 → nz L = 1) →
  0 ≤ idx < ncorners L →
  ∃ x y z, in_lattice L x y z ∧ idx = lattice_index L x y z.
Proof.
  intros (Hx & Hy & Hz & Hmax) H2d Hidx.
  exists (idx `mod` (nx L + 1)), ((idx `div` (nx L + 1)) `mod` (ny L + 1)),
    ((idx `div` (nx L + 1)) `div` (ny L + 1)).
  pose proof (Z.mod_pos_bound idx (nx L + 1) ltac:(lia)).
  pose proof (Z.mod_pos_bound (idx `div` (nx L + 1)) (ny L + 1) ltac:(lia)).
  pose proof (Z.div_mod idx (nx L + 1) ltac:(lia)) as E1.
  pose proof (Z.div_mod (idx `div` (nx L + 1)) (ny L + 1) ltac:(lia)) as E2.
  set (x := idx `mod` (nx L + 1)) in *.
  set (q := idx `div` (nx L + 1)) in *.
  set (y := q `mod` (ny L + 1)) in *.
  set (z := q `div` (ny L + 1)) in *.
  assert (0 ≤ q) by (apply Z.div_pos; lia).
  assert (0 ≤ z) by (apply Z.div_pos; lia).
  split; [|unfold lattice_index; lia].
  unfold in_lattice. split; [lia|]. split; [lia|].
  unfold ncorners in Hidx. case_bool_decide.
  - split; [done|]. nia.
  - rewrite H2d in Hidx by done. nia.
Qed.

Lemma boundary_error_spec (x y z v : Z) :
  extents_ok L → in_lattice L x y z →
  boundary_error L (lattice_index L x y z) v = true ↔
  v ≠ 0 ∧ on_boundary L x y z.
Proof.
  intros Hok Hin.
  destruct (decode_lattice_index x y z Hok Hin) as (Ex & Ey & Ez).
  unfold boundary_error, zeroflag, on_boundary. rewrite Ex, Ey, Ez.
  repeat case_bool_decide; simpl; split; try done; try tauto; intros [? ?]; try done.
  all: exfalso; tauto || lia.
Qed.

Lemma assign_loop_err (buf : list Z) (idx : Z) (cvalues : list (list Z)) (e : error) :
  assign_loop L hash idx buf cvalues = Err e ↔
  e = BoundaryNotZero ∧
  ∃ (i : nat) v, buf !! i = Some v ∧ boundary_error L (idx + Z.of_nat i) v = true.
Proof.
  revert idx cvalues. induction buf as [|v buf IH]; intros idx cvalues; simpl.
  - split; [done|]. by intros (_ & i & w & ? & _).
  - destruct (boundary_error L idx v) eqn:Hb.
    + split.
      * intros [= <-]. split; [done|]. exists 0%nat, v. by rewrite Z.add_0_r.
      * by intros [-> _].
    + rewrite IH. split; intros (-> & i & w & Hi & Hw); (split; [done|]).
      * exists (S i), w. split; [done|]. by replace (idx + Z.of_nat (S i)) with (idx + 1 + Z.of_nat i) by lia.
      * destruct i as [|i]; simplify_eq/=.
        -- rewrite Z.add_0_r in Hw. congruence.
        -- exists i, w. split; [done|]. by replace (idx + 1 + Z.of_nat i) with (idx + Z.of_nat (S i)) by lia.
Qed.

(** C6: ingestion of a chunk aborts with [BoundaryNotZero] exactly when
    the chunk holds a non-zero sample whose lattice coordinates lie on the
    outer boundary of the lattice (x index 0 or [nx], y index 0 or [ny],
    and in 3-D z index 0 or [nz]); zero samples and interior samples never
    abort it, and it aborts for no other reason. *)
Theorem boundary_zero_enforced (n : nat) (offset : Z) (buf : list Z)
    (cvalues : list (list Z)) :
  extents_ok L → (dimension L ≠ 3 → nz L = 1) →
  0 ≤ offset → offset + Z.of_nat (n `min` length buf) ≤ ncorners L →
  (assign_corners L hash n offset buf cvalues = Err BoundaryNotZero ↔
   ∃ (i : nat) v x y z,
     (i < n)%nat ∧ buf !! i = Some v ∧
     in_lattice L x y z ∧ offset + Z.of_nat i = lattice_index L x y z ∧
     v ≠ 0 ∧ on_boundary L x y z) ∧
  (∀ e, assign_corners L hash n offset buf cvalues = Err e → e = BoundaryNotZero).
Proof.
  intros Hok H2d Hoff Hlen. unfold assign_corners. split.
  - rewrite assign_loop_err. split.
    + intros (_ & i & v & Hi & Hb).
      apply lookup_take_Some in Hi as [Hi Hin].
      pose proof (lookup_lt_Some _ _ _ Hi) as Hil.
      destruct (index_in_lattice (offset + Z.of_nat i) Hok H2d) as (x & y & z & Hxyz & Hidx);
        [lia|].
      rewrite Hidx in Hb. apply boundary_error_spec in Hb as [? ?]; [|done..].
      by exists i, v, x, y, z.
    + intros (i & v & x & y & z & Hin & Hi & Hxyz & Hidx & Hv & Hbd).
      split; [done|]. exists i, v. split.
      * by apply lookup_take_Some.
      * rewrite Hidx. by apply boundary_error_spec.
  - intros e He. by apply assign_loop_err in He as [-> _].
Qed.

End ingest_props.

(** Only the centre sample (1,1,1), index 13, is set: ingestion succeeds
    and the sample is corner 7 of cell 0, ..., corner 0 of cell 7. *)
Example interior_sample_accepted :
  Ingest.assign_corners block222 block222_hash 27 0
    (<[13%nat := 255%Z]> (replicate 27 0%Z)) block222_cvalues
  = Ok (imap (fun k cv => <[(7 - k)%nat := 255%Z]> cv) block222_cvalues).
Proof. by vm_compute. Qed.

(** A non-zero sample at x = nx, here (2,1,1) with index 14, aborts. *)
Example boundary_sample_rejected :
  Ingest.assign_corners block222 block222_hash 27 0
    (<[14%nat := 255%Z]> (replicate 27 0%Z)) block222_cvalues
  = Err BoundaryNotZero.
Proof. by vm_compute. Qed.

Lemma boundary_zero_enforced_witness :
  (Ingest.assign_corners block222 block222_hash 27 0
     (<[14%nat := 255%Z]> (replicate 27 0%Z)) block222_cvalues = Err BoundaryNotZero ↔
   ∃ (i : nat) v x y z,
     (i < 27)%nat ∧ <[14%nat := 255%Z]> (replicate 27 0%Z) !! i = Some v ∧
     Ingest.in_lattice block222 x y z ∧
     (0 + Z.of_nat i)%Z = Ingest.lattice_index block222 x y z ∧
     v ≠ 0%Z ∧ Ingest.on_boundary block222 x y z) ∧
  (∀ e, Ingest.assign_corners block222 block222_hash 27 0
          (<[14%nat := 255%Z]> (replicate 27 0%Z)) block222_cvalues = Err e →
        e = BoundaryNotZero).
Proof.
  apply (boundary_zero_enforced block222 block222_hash 27 0
           (<[14%nat := 255%Z]> (replicate 27 0%Z)) block222_cvalues).
  - unfold Ingest.extents_ok, Ingest.INT_MAX. simpl. lia.
  - simpl. lia.
  - lia.
  - vm_compute. discriminate.
Defined.

(** ** Face cleanup *)

Section cleanup_props.
Import Cleanup.
Variable me : Z.
Variable neigh_decode : Z → nat → Z.
Variable new_tri : Z → point → point → point → Tri.

Lemma get_Ok {A} (l : list A) (i : nat) (x : A) : l !! i = Some x → get l i = Ok x.
Proof. unfold get. by intros ->. Qed.

Lemma get_Ok_inv {A} (l : list A) (i : nat) (x : A) : get l i = Ok x → l !! i = Some x.
Proof. unfold get. by destruct (l !! i); intros [= ->]. Qed.

(** Overwriting the entry found by the last entry and dropping the last
    entry removes one occurrence and keeps the others. *)
Lemma remove_surf_perm (ptr : list nat) (ns m : nat) :
  ns ≤ length ptr → m ∈ take ns ptr →
  ∃ ptr', remove_surf ptr ns m = Ok ptr' ∧
          length ptr' = length ptr ∧
          take ns ptr ≡ₚ m :: take (ns - 1) ptr'.
Proof.
  intros Hns Hm. unfold remove_surf.
  destruct (list_find (λ x, x = m) (take ns ptr)) as [[k x]|] eqn:Hfind.
  2:{ apply list_find_None in Hfind.
      exfalso. by eapply (proj1 (list.Forall_forall _ _) Hfind m). }
  apply list_find_Some in Hfind as (Hk & -> & _).
  pose proof (lookup_lt_Some _ _ _ Hk) as Hklt. rewrite length_take in Hklt.
  assert (k < ns) as Hkns by lia.
  destruct (lookup_lt_is_Some_2 ptr (ns - 1)) as [lst Hlst]; [lia|].
  rewrite (get_Ok _ _ _ Hlst). simpl. eexists. split; [done|].
  split; [by rewrite length_insert|].
  rewrite lookup_take_lt in Hk by done.
  destruct (decide (k = ns - 1)) as [->|Hne].
  - rewrite take_insert_ge by lia.
    replace ns with (S (ns - 1)) at 1 by lia.
    erewrite take_S_r by done. simplify_eq. by rewrite Permutation_app_comm.
  - rewrite take_insert_lt by lia.
    replace ns with (S (ns - 1)) at 1 by lia.
    erewrite take_S_r by done.
    assert (take (ns - 1) ptr !! k = Some m) as Hk'
      by (rewrite lookup_take_lt by lia; done).
    apply list_elem_of_split_length in Hk' as (l1 & l2 & Heq & Hlen).
    rewrite Heq. subst k.
    rewrite insert_app_r_alt, Nat.sub_diag by lia. simpl.
    rewrite <- app_assoc. simpl. rewrite <- !Permutation_middle.
    f_equiv. rewrite app_assoc. by rewrite Permutation_app_comm.
Qed.

Lemma remove_pair_spec (c ns m0 m1 : nat) (st : State) (cell : ChildCell) :
  cells st !! c = Some cell →
  ns = nsurf cell → nsurf cell ≤ length (csurfs cell) →
  m0 ∈ surfs cell → m1 ∈ surfs cell → m0 ≠ m1 →
  ∃ cell', remove_pair c ns m0 m1 st = Ok (set_cells (<[c := cell']> (cells st)) st) ∧
           same_cell_but_surfs cell cell' ∧
           nsurf cell' = nsurf cell - 2 ∧
           surfs cell ≡ₚ m0 :: m1 :: surfs cell'.
Proof.
  intros Hc -> Hlen Hm0 Hm1 Hne. unfold remove_pair, surfs in *.
  rewrite (get_Ok _ _ _ Hc). simpl.
  destruct (remove_surf_perm (csurfs cell) (nsurf cell) m0 Hlen Hm0)
    as (ptr1 & -> & Hl1 & Hp1). simpl.
  assert (m1 ∈ take (nsurf cell - 1) ptr1) as Hm1'.
  { rewrite Hp1 in Hm1. apply elem_of_cons in Hm1 as [?|?]; [congruence|done]. }
  assert (nsurf cell - 1 ≤ length ptr1) as Hlen1 by lia.
  destruct (remove_surf_perm ptr1 (nsurf cell - 1) m1 Hlen1 Hm1')
    as (ptr2 & -> & Hl2 & Hp2). simpl.
  eexists. split; [done|]. split; [|split].
  - unfold same_cell_but_surfs. simpl. repeat split; lia.
  - done.
  - simpl. rewrite Hp1, Hp2. by replace (nsurf cell - 1 - 1) with (nsurf cell - 2) by lia.
Qed.

Lemma append_pair_spec (c m0 m1 : nat) (st : State) (cell : ChildCell) :
  cells st !! c = Some cell → nsurf cell ≤ length (csurfs cell) →
  ∃ cell', append_pair c m0 m1 st = Ok (set_cells (<[c := cell']> (cells st)) st) ∧
           same_cell_but_surfs cell cell' ∧
           nsurf cell' = nsurf cell + 2 ∧
           surfs cell' = surfs cell ++ [m0; m1].
Proof.
  intros Hc Hlen. unfold append_pair. rewrite (get_Ok _ _ _ Hc). simpl.
  rewrite bool_decide_false by lia.
  eexists. split; [done|].
  assert (length (surfs cell) = nsurf cell) as Hl
    by (unfold surfs; rewrite length_take; lia).
  split; [|split].
  - unfold same_cell_but_surfs. simpl. repeat split.
    rewrite length_app, Hl. simpl. lia.
  - done.
  - unfold surfs at 1. simpl. rewrite take_ge; [done|].
    rewrite length_app, Hl. simpl. lia.
Qed.

Lemma same_proc_keep (st : State) (icell iface ocell oface ns : nat) :
  get2 (nfacetri st) ocell oface = Ok 0 →
  same_proc icell iface ocell oface true ns st = Ok (ns, st).
Proof. intros Hn. unfold same_proc. by rewrite Hn. Qed.

Lemma same_proc_move (st : State) (icell iface ocell oface : nat)
    (ci co : ChildCell) (m0 m1 : nat) (t0 t1 : Tri) :
  icell ≠ ocell →
  face_pair st icell iface ci m0 m1 →
  cells st !! ocell = Some co → nsurf co ≤ length (csurfs co) →
  tris st !! m0 = Some t0 → tris st !! m1 = Some t1 →
  get2 (nfacetri st) ocell oface = Ok 0 →
  ∃ st' ci' co',
    same_proc icell iface ocell oface false (nsurf ci) st = Ok (nsurf ci - 2, st') ∧
    cells st' = <[icell := ci']> (<[ocell := co']> (cells st)) ∧
    same_cell_but_surfs ci ci' ∧ same_cell_but_surfs co co' ∧
    surfs co' = surfs co ++ [m0; m1] ∧
    surfs ci ≡ₚ m0 :: m1 :: surfs ci' ∧
    tris st' = <[m1 := set_id (cell_id co) t1]> (<[m0 := set_id (cell_id co) t0]> (tris st)) ∧
    dellist st' = dellist st ∧ nfacetri st' = nfacetri st ∧
    facetris st' = facetris st ∧ bufsend st' = bufsend st.
Proof.
  intros Hne (Hci & Hlen & Hft & Hm0 & Hm1 & Hm) Hco Hleno Ht0 Ht1 Hn.
  unfold same_proc. rewrite Hn. simpl. rewrite Hft. simpl.
  rewrite (get_Ok _ _ _ Hco). simpl.
  destruct (append_pair_spec ocell m0 m1 st co Hco Hleno) as (co' & -> & Hsame & Hns & Hsurfs).
  simpl. unfold retag at 2. simpl. rewrite (get_Ok _ _ _ Ht0). simpl.
  unfold retag. simpl.
  assert (<[m0:=set_id (cell_id co) t0]> (tris st) !! m1 = Some t1) as Ht1'
    by (rewrite list_lookup_insert_ne; done).
  rewrite (get_Ok _ _ _ Ht1'). simpl.
  match goal with |- context [remove_pair _ _ _ _ ?s] => set (st1 := s) end.
  assert (cells st1 !! icell = Some ci) as Hci1
    by (subst st1; simpl; rewrite list_lookup_insert_ne; done).
  destruct (remove_pair_spec icell (nsurf ci) m0 m1 st1 ci Hci1 eq_refl Hlen Hm0 Hm1 Hm)
    as (ci' & -> & Hsamei & Hnsi & Hperm).
  simpl. eexists _, ci', co'. by repeat (split; [done|]).
Qed.

Lemma get2_Ok_inv {A} (l : list (list A)) (i j : nat) (x : A) :
  get2 l i j = Ok x → ∃ row, l !! i = Some row ∧ row !! j = Some x.
Proof.
  unfold get2, get. destruct (l !! i) as [row|]; simpl; [|done].
  destruct (row !! j) eqn:E; simpl; [|done]. intros [= ->]. by exists row.
Qed.

Lemma same_proc_delete (st : State) (icell iface ocell oface : nat) (inward : bool)
    (ci co : ChildCell) (m0 m1 o0 o1 : nat) :
  icell ≠ ocell →
  face_pair st icell iface ci m0 m1 →
  face_pair st ocell oface co o0 o1 →
  get2 (nfacetri st) ocell oface = Ok 2 →
  ∃ st' ci' co',
    same_proc icell iface ocell oface inward (nsurf ci) st = Ok (nsurf ci - 2, st') ∧
    cells st' = <[icell := ci']> (<[ocell := co']> (cells st)) ∧
    same_cell_but_surfs ci ci' ∧ same_cell_but_surfs co co' ∧
    surfs ci ≡ₚ m0 :: m1 :: surfs ci' ∧
    surfs co ≡ₚ o0 :: o1 :: surfs co' ∧
    dellist st' = dellist st ++ [m0; m1; o0; o1] ∧
    tris st' = tris st ∧
    get2 (nfacetri st') ocell oface = Ok 0 ∧
    facetris st' = facetris st ∧ bufsend st' = bufsend st.
Proof.
  intros Hne (Hci & Hlen & Hft & Hm0 & Hm1 & Hm) (Hco & Hleno & Hfto & Ho0 & Ho1 & Ho) Hn.
  unfold same_proc. rewrite Hn. simpl. rewrite Hft. simpl.
  destruct (get2_Ok_inv _ _ _ _ Hn) as (row & Hrow & Hrowj).
  rewrite (get_Ok _ _ _ Hrow). simpl.
  rewrite (get_Ok _ _ _ Hco). simpl. rewrite Hfto. simpl.
  match goal with |- context [remove_pair ocell _ _ _ ?s] => set (st1 := s) end.
  destruct (remove_pair_spec ocell (nsurf co) o0 o1 st1 co Hco eq_refl Hleno Ho0 Ho1 Ho)
    as (co' & -> & Hsameo & Hnso & Hpermo).
  simpl.
  match goal with |- context [remove_pair icell _ _ _ ?s] => set (st2 := s) end.
  assert (cells st2 !! icell = Some ci) as Hci2
    by (subst st2; simpl; rewrite list_lookup_insert_ne; done).
  destruct (remove_pair_spec icell (nsurf ci) m0 m1 st2 ci Hci2 eq_refl Hlen Hm0 Hm1 Hm)
    as (ci' & -> & Hsamei & Hnsi & Hperm).
  simpl. rewrite Hfto. simpl.
  eexists _, ci', co'. repeat (split; [done|]). split; [|done]. simpl.
  unfold get2. rewrite (get_Ok _ _ (<[oface:=0]> row)).
  - simpl. apply get_Ok, list_lookup_insert_eq. by eapply lookup_lt_Some.
  - apply list_lookup_insert_eq. by eapply lookup_lt_Some.
Qed.

Lemma face_step_same_proc (st : State) (icell iface ocell : nat) (ci co : ChildCell)
    (m0 m1 : nat) (t0 t1 : Tri) :
  shared_face neigh_decode st icell iface ocell ci co m0 m1 t0 t1 → proc co = me →
  face_step me neigh_decode icell (Ok (nsurf ci, st)) iface
  = same_proc icell iface ocell (other_face iface)
      (inward_normal iface (norm t0)) (nsurf ci) st.
Proof.
  intros (Hne & Hfp & Hn & Hflag & Hneigh & Hco & Hleno & Ht0 & Ht1) Hme.
  destruct Hfp as (Hci & Hlen & Hft & Hm0 & Hm1 & Hm).
  unfold face_step. simpl. rewrite Hn. simpl.
  rewrite (get_Ok _ _ _ Hci). simpl.
  rewrite bool_decide_false by (intros [? ?]; destruct Hflag; done).
  rewrite (get_Ok _ _ _ Hneigh). simpl.
  rewrite bool_decide_false by done.
  rewrite Hft. simpl. rewrite (get_Ok _ _ _ Ht0). simpl.
  rewrite (get_Ok _ _ _ Hco). simpl.
  by rewrite bool_decide_true.
Qed.


Lemma face_step_other_proc (st : State) (icell iface ocell : nat) (ci co : ChildCell)
    (m0 m1 : nat) (t0 t1 : Tri) :
  shared_face neigh_decode st icell iface ocell ci co m0 m1 t0 t1 → proc co ≠ me →
  face_step me neigh_decode icell (Ok (nsurf ci, st)) iface
  = other_proc icell iface (proc co) (ilocal co) (other_face iface)
      (inward_normal iface (norm t0)) (nsurf ci) st.
Proof.
  intros (Hne & Hfp & Hn & Hflag & Hneigh & Hco & Hleno & Ht0 & Ht1) Hme.
  destruct Hfp as (Hci & Hlen & Hft & Hm0 & Hm1 & Hm).
  unfold face_step. simpl. rewrite Hn. simpl.
  rewrite (get_Ok _ _ _ Hci). simpl.
  rewrite bool_decide_false by (intros [? ?]; destruct Hflag; done).
  rewrite (get_Ok _ _ _ Hneigh). simpl.
  rewrite bool_decide_false by done.
  rewrite Hft. simpl. rewrite (get_Ok _ _ _ Ht0). simpl.
  rewrite (get_Ok _ _ _ Hco). simpl.
  by rewrite bool_decide_false.
Qed.

Lemma other_proc_inward (st : State) (icell iface oface olocal ns : nat) (oproc : Z)
    (m0 m1 : nat) (t0 t1 : Tri) :
  get2 (facetris st) icell iface = Ok [m0; m1] →
  tris st !! m0 = Some t0 → tris st !! m1 = Some t1 →
  other_proc icell iface oproc olocal oface true ns st
  = Ok (ns, push_send oproc (mkDatum icell iface olocal oface true t0 t1) st).
Proof.
  intros Hft Ht0 Ht1. unfold other_proc. rewrite Hft. simpl.
  by rewrite (get_Ok _ _ _ Ht0), (get_Ok _ _ _ Ht1).
Qed.

Lemma other_proc_outward (st : State) (icell iface oface olocal : nat) (oproc : Z)
    (ci : ChildCell) (m0 m1 : nat) (t0 t1 : Tri) :
  face_pair st icell iface ci m0 m1 →
  tris st !! m0 = Some t0 → tris st !! m1 = Some t1 →
  ∃ ci',
    other_proc icell iface oproc olocal oface false (nsurf ci) st
    = Ok (nsurf ci - 2,
          set_dellist (dellist st ++ [m0; m1])
            (set_cells (<[icell := ci']> (cells st))
               (push_send oproc (mkDatum icell iface olocal oface false t0 t1) st))) ∧
    same_cell_but_surfs ci ci' ∧
    surfs ci ≡ₚ m0 :: m1 :: surfs ci'.
Proof.
  intros (Hci & Hlen & Hft & Hm0 & Hm1 & Hm) Ht0 Ht1.
  unfold other_proc. rewrite Hft. simpl.
  rewrite (get_Ok _ _ _ Ht0), (get_Ok _ _ _ Ht1). simpl.
  match goal with |- context [remove_pair _ _ _ _ ?s] => set (st1 := s) end.
  assert (cells st1 !! icell = Some ci) as Hci1 by done.
  destruct (remove_pair_spec icell (nsurf ci) m0 m1 st1 ci Hci1 eq_refl Hlen Hm0 Hm1 Hm)
    as (ci' & -> & Hsamei & Hnsi & Hperm).
  simpl. by exists ci'.
Qed.

Lemma recv_step_keep (st : State) (d : SendDatum) :
  get2 (nfacetri st) (othercell d) (otherface d) = Ok 0 → inwardnorm d = true →
  recv_step new_tri (Ok st) d = Ok st.
Proof. intros Hn Hin. unfold recv_step. simpl. by rewrite Hn, Hin. Qed.

Lemma memcpy_add_tri (st : State) (n : nat) (itype : Z) (q1 q2 q3 : point) (t : Tri) :
  n = length (tris st) →
  memcpy_tri n t (add_tri new_tri itype q1 q2 q3 st) = Ok (set_tris (tris st ++ [t]) st).
Proof.
  intros ->. unfold memcpy_tri, add_tri. simpl.
  rewrite bool_decide_true by (rewrite length_app; simpl; lia).
  by rewrite insert_app_r_alt, Nat.sub_diag by lia.
Qed.

Lemma retag_last (st : State) (l : list Tri) (n : nat) (t : Tri) (cid : Z) :
  n = length l →
  retag n cid (set_tris (l ++ [t]) st) = Ok (set_tris (l ++ [set_id cid t]) st).
Proof.
  intros ->. unfold retag. simpl.
  unfold get. rewrite lookup_app_r, Nat.sub_diag by lia. simpl.
  by rewrite insert_app_r_alt, Nat.sub_diag by lia.
Qed.

Lemma recv_step_adopt (st : State) (d : SendDatum) (cell : ChildCell) :
  get2 (nfacetri st) (othercell d) (otherface d) = Ok 0 → inwardnorm d = false →
  cells st !! othercell d = Some cell → nsurf cell ≤ length (csurfs cell) →
  ∃ cell',
    recv_step new_tri (Ok st) d
    = Ok (set_cells (<[othercell d := cell']> (cells st))
            (set_tris (tris st ++ [set_id (cell_id cell) (tri1 d);
                                   set_id (cell_id cell) (tri2 d)]) st)) ∧
    same_cell_but_surfs cell cell' ∧
    surfs cell' = surfs cell ++ [length (tris st); length (tris st) + 1].
Proof.
  intros Hn Hin Hc Hlen. unfold recv_step.
  cbn [mbind result_bind]. rewrite Hn, Hin. cbn [mbind result_bind andb].
  rewrite bool_decide_true by done.
  rewrite (get_Ok _ _ _ Hc). cbn [mbind result_bind].
  rewrite memcpy_add_tri by done. cbn [mbind result_bind].
  rewrite retag_last by done. cbn [mbind result_bind].
  rewrite memcpy_add_tri by (simpl; rewrite length_app; simpl; lia).
  cbn [mbind result_bind]. cbn [tris set_tris].
  rewrite retag_last by (rewrite length_app; simpl; lia).
  cbn [mbind result_bind].
  match goal with |- context [append_pair _ _ _ ?s] => set (st1 := s) end.
  assert (cells st1 !! othercell d = Some cell) as Hc1 by done.
  destruct (append_pair_spec (othercell d) (length (tris st))
              (length (tris st) + 1) st1 cell Hc1 Hlen)
    as (cell' & -> & Hsame & Hns & Hsurfs).
  cbn [mbind result_bind]. rewrite bool_decide_false by done.
  exists cell'. split; [|done].
  subst st1. unfold set_cells, set_tris. simpl. by rewrite <- (assoc app).
Qed.

Lemma inward_normal_spec (iface : nat) (n : point) :
  inward_normal iface n = true ↔ points_into_holder iface n.
Proof.
  unfold inward_normal, points_into_holder.
  pose proof (Nat.mod_upper_bound iface 2 ltac:(lia)) as Hlt.
  destruct (iface `mod` 2 =? 0) eqn:E; cbn [negb andb].
  - apply Nat.eqb_eq in E.
    destruct (coord n (iface / 2) >? zero)%D; split; try done.
    + intros _. right. by split.
    + intros [[? ?]|[? ?]]; [lia|done].
  - apply Nat.eqb_neq in E.
    destruct (coord n (iface / 2) <? zero)%D; split; try done.
    + intros _. left. split; [lia|done].
    + intros [[? ?]|[? ?]]; [done|lia].
Qed.


(** C10: when a receiving process adopts a pair, each triangle it appends
    is a copy of the triangle the sender sent (corner points, normal,
    material label and mask unchanged) in which only the owning cell ID
    is rewritten, to the ID of the receiving cell; the triangles it already
    had stay as they are. *)
Theorem adoption_copies_triangles (rst : State) (d : SendDatum) (rcell : ChildCell) :
  get2 (nfacetri rst) (othercell d) (otherface d) = Ok 0 →
  inwardnorm d = false →
  cells rst !! othercell d = Some rcell → nsurf rcell ≤ length (csurfs rcell) →
  ∃ rst' a b,
    recv_step new_tri (Ok rst) d = Ok rst' ∧
    tris rst' = tris rst ++ [a; b] ∧
    copy_but_id (tri1 d) a ∧ id a = cell_id rcell ∧
    copy_but_id (tri2 d) b ∧ id b = cell_id rcell.
Proof.
  intros Hn Hin Hc Hlen.
  destruct (recv_step_adopt rst d rcell Hn Hin Hc Hlen) as (rcell' & -> & _ & _).
  eexists _, _, _. split; [done|]. simpl. split; [done|].
  unfold copy_but_id. by simpl.
Qed.

End cleanup_props.

(** *** The tally and the pairing check *)

Section tally_props.
Import Cleanup.
Variable tri_on_hex_face : point → point → point → point → point → Z.

Lemma tally_fold (tris : list Tri) (c : ChildCell) (l : list nat)
    (nft : list nat) (ft : list (list nat)) :
  length nft = 6 →
  (∀ m, m ∈ l → ∃ f, face_of tri_on_hex_face tris c m = Some f ∧ (f < 6)%Z) →
  ∃ nft' ft',
    foldl (tally_tri tri_on_hex_face tris (lo c) (hi c)) (Ok (nft, ft)) l = Ok (nft', ft') ∧
    length nft' = 6 ∧
    ∀ iface, iface < 6 →
      nft' !! iface =
      (fun n => n + length (filter (fun m => face_of tri_on_hex_face tris c m
                                             = Some (Z.of_nat iface)) l)) <$> nft !! iface.
Proof.
  revert nft ft. induction l as [|m l IH]; intros nft ft Hlen Hok.
  - exists nft, ft. split; [done|]. split; [done|]. intros iface _. simpl.
    destruct (nft !! iface); simpl; [f_equal; lia|done].
  - destruct (Hok m) as (f & Hf & Hf6); [by left|].
    assert (∀ m', m' ∈ l → ∃ f, face_of tri_on_hex_face tris c m' = Some f ∧ (f < 6)%Z)
      as Hok' by (intros; apply Hok; by right).
    cbn [foldl]. unfold tally_tri at 2. cbn [mbind result_bind].
    unfold face_of in Hf. destruct (tris !! m) as [t|] eqn:Ht; simplify_eq/=.
    rewrite (get_Ok _ _ _ Ht). cbn [mbind result_bind].
    case_bool_decide as Hneg.
    + destruct (IH nft ft Hlen Hok') as (nft' & ft' & -> & Hlen' & Hcount).
      exists nft', ft'. split; [done|]. split; [done|].
      intros iface Hi. rewrite Hcount by done.
      rewrite filter_cons_False; [done|].
      unfold face_of. rewrite Ht. simpl. intros [= Heq]. lia.
    + set (fz := tri_on_hex_face (p1 t) (p2 t) (p3 t) (lo c) (hi c)) in *.
      destruct (lookup_lt_is_Some_2 nft (Z.to_nat fz)) as [n Hn]; [lia|].
      rewrite (get_Ok _ _ _ Hn). cbn [mbind result_bind].
      match goal with |- context [foldl _ (Ok (?a, ?b)) l] =>
        destruct (IH a b) as (nft' & ft' & -> & Hlen' & Hcount) end;
        [by rewrite length_insert|done|].
      exists nft', ft'. split; [done|]. split; [done|].
      intros iface Hi. rewrite Hcount by done.
      destruct (decide (iface = Z.to_nat fz)) as [->|Hne].
      * rewrite list_lookup_insert_eq by lia. rewrite Hn. simpl.
        rewrite filter_cons_True; [simpl; f_equal; lia|].
        unfold face_of. rewrite Ht. simpl. f_equal. fold fz. lia.
      * rewrite list_lookup_insert_ne by done.
        rewrite filter_cons_False; [done|].
        unfold face_of. rewrite Ht. simpl. fold fz. intros [= Heq]. lia.
Qed.

(** The tally of a cell counts, for each face, the triangles of the cell
    that lie on it. *)
Lemma tally_cell_counts (tris : list Tri) (c : ChildCell) :
  cell_ok tri_on_hex_face tris c →
  ∃ nft ft,
    tally_cell tri_on_hex_face tris c = Ok (nft, ft) ∧ length nft = 6 ∧
    ∀ iface, iface < 6 →
      nft !! iface = Some (face_count tri_on_hex_face tris c iface).
Proof.
  intros (Hlen & Hok). unfold tally_cell, face_count.
  case_bool_decide as Hsplit.
  { eexists _, _. split; [done|]. split; [done|]. intros iface Hi.
    exact (lookup_replicate_2 6 0 iface Hi). }
  case_bool_decide as Hns.
  { eexists _, _. split; [done|]. split; [done|]. intros iface Hi.
    unfold surfs. rewrite Hns. simpl. exact (lookup_replicate_2 6 0 iface Hi). }
  rewrite bool_decide_false by lia.
  destruct (tally_fold tris c (surfs c) (replicate 6 0) (replicate 6 [0; 0]))
    as (nft & ft & Hfold & Hl & Hcount); [done|done|].
  exists nft, ft. split; [done|]. split; [done|].
  intros iface Hi. rewrite Hcount by done.
  by rewrite (lookup_replicate_2 6 0 iface Hi).
Qed.

Lemma tally_cells_counts (tris : list Tri) (cs : list ChildCell) :
  Forall (cell_ok tri_on_hex_face tris) cs →
  ∃ nfts fts,
    tally_cells tri_on_hex_face tris cs = Ok (nfts, fts) ∧
    Forall2 (counts_of tri_on_hex_face tris) cs nfts.
Proof.
  induction 1 as [|c cs Hc Hcs IH]; simpl.
  - by exists [], [].
  - destruct (tally_cell_counts tris c Hc) as (nft & ft & -> & Hl & Hcount).
    destruct IH as (nfts & fts & -> & Hall).
    cbn [mbind result_bind]. exists (nft :: nfts), (ft :: fts).
    split; [done|]. by constructor.
Qed.

Lemma sum_list_zero (l : list nat) : sum_list l = 0 ↔ ∀ x, x ∈ l → x = 0.
Proof.
  induction l as [|x l IH]; simpl.
  - split; [by intros _ x ?%elem_of_nil|done].
  - split.
    + intros H y [->|Hy]%elem_of_cons; [lia|]. apply IH; [lia|done].
    + intros H. rewrite (H x) by (by left).
      apply IH. intros y Hy. apply H. by right.
Qed.

Lemma filter_nil_iff {A} (P : A → Prop) `{∀ x, Decision (P x)} (l : list A) :
  filter P l = [] ↔ ∀ x, x ∈ l → ¬ P x.
Proof.
  split.
  - intros Hnil x Hx HP. by apply (filter_nil_not_elem_of P l x).
  - intros Hall. destruct (filter P l) as [|x l'] eqn:E; [done|].
    assert (x ∈ filter P l) as [HP Hx]%list_elem_of_filter by (rewrite E; by left).
    by destruct (Hall x Hx).
Qed.

(** The flag of a process is zero exactly when each of the six counts of
    each owned cell is 0 or 2. *)
Lemma count_flag_zero (nft : list (list nat)) :
  count_flag nft = 0 ↔
  ∀ icell row iface n,
    nft !! icell = Some row → iface < 6 → row !! iface = Some n → n = 0 ∨ n = 2.
Proof.
  unfold count_flag. rewrite sum_list_zero. split.
  - intros H icell row iface n Hrow Hi Hn.
    assert (length (filter (λ n, bad_count n = true) (take 6 row)) = 0) as Hz.
    { apply H. apply list_elem_of_fmap. exists row. split; [done|].
      apply list_elem_of_lookup. by exists icell. }
    apply length_zero_iff_nil in Hz.
    assert (n ∈ take 6 row) as Hin.
    { apply list_elem_of_lookup. exists iface. by rewrite lookup_take_lt. }
    pose proof (proj1 (filter_nil_iff _ _) Hz n Hin) as Hgood.
    unfold bad_count in Hgood.
    destruct (decide (n = 0)); [by left|]. destruct (decide (n = 2)); [by right|].
    rewrite !bool_decide_true in Hgood by done. done.
  - intros H x (row & -> & Hrow)%list_elem_of_fmap.
    apply list_elem_of_lookup in Hrow as [icell Hrow].
    apply length_zero_iff_nil, filter_nil_iff.
    intros n Hn%list_elem_of_lookup. destruct Hn as [iface Hn].
    apply lookup_take_Some in Hn as [Hn Hi].
    destruct (H icell row iface n Hrow Hi Hn) as [-> | ->]; by vm_compute.
Qed.

Lemma check_pairing_Ok (flags : list nat) :
  check_pairing flags = Ok () ↔ ∀ x, x ∈ flags → x = 0.
Proof.
  unfold check_pairing. rewrite <- sum_list_zero.
  case_bool_decide; split; (done || lia).
Qed.

Lemma check_pairing_cases (flags : list nat) :
  check_pairing flags = Ok () ∨ check_pairing flags = Err NonPairedFace.
Proof. unfold check_pairing. case_bool_decide; auto. Qed.

Lemma tally_all_ok (world : list (nat * State)) :
  world_ok tri_on_hex_face world →
  ∃ sts, tally_all tri_on_hex_face world = Ok sts ∧ Forall2 (tallied tri_on_hex_face) world sts.
Proof.
  induction world as [|[n st] world IH]; intros Hok; simpl.
  - by exists [].
  - destruct (tally_cells_counts (tris st) (take n (cells st))) as (nfts & fts & Ht & Hall).
    { apply Hok. by left. }
    unfold tally. simpl. rewrite Ht. cbn [mbind result_bind].
    destruct IH as (sts & -> & Hsts).
    { intros n' st' Hin. apply Hok. by right. }
    cbn [mbind result_bind]. eexists. split; [done|].
    constructor; [|done]. unfold tallied. by simpl.
Qed.

Lemma sum_list_nonzero (l : list nat) : sum_list l ≠ 0 → ∃ x, x ∈ l ∧ x ≠ 0.
Proof.
  induction l as [|x l IH]; simpl; [done|]. intros Hs.
  destruct (decide (x = 0)) as [->|Hx].
  - destruct IH as (y & Hy & Hy0); [lia|]. exists y. split; [by right|done].
  - exists x. split; [by left|done].
Qed.

Lemma count_flag_nonzero (nft : list (list nat)) :
  count_flag nft ≠ 0 →
  ∃ icell row iface n,
    nft !! icell = Some row ∧ iface < 6 ∧ row !! iface = Some n ∧ n ≠ 0 ∧ n ≠ 2.
Proof.
  unfold count_flag. intros (x & (row & -> & Hrow)%list_elem_of_fmap & Hx)%sum_list_nonzero.
  apply list_elem_of_lookup in Hrow as [icell Hrow].
  destruct (filter (λ n, bad_count n = true) (take 6 row)) as [|n l] eqn:E; [done|].
  assert (n ∈ filter (λ n, bad_count n = true) (take 6 row)) as [Hbad Hn]%list_elem_of_filter
    by (rewrite E; by left).
  apply list_elem_of_lookup in Hn as [iface Hn].
  apply lookup_take_Some in Hn as [Hn Hi].
  exists icell, row, iface, n. repeat split; try done.
  - intros ->. by vm_compute in Hbad.
  - intros ->. by vm_compute in Hbad.
Qed.

(** C7: before any reconciliation the triangles on each face of each owned
    cell are counted; the faces whose count is neither 0 nor 2 are summed
    over all processes, and the run fails with [NonPairedFace] exactly when
    there is such a face; when every count is 0 or 2 the check passes and
    the cleanup goes on with the tallied data. *)
Theorem pairing_check_enforced (world : list (nat * State)) :
  world_ok tri_on_hex_face world →
  (tally_and_check tri_on_hex_face world = Err NonPairedFace ↔
   non_paired_face tri_on_hex_face world) ∧
  ((∃ sts, tally_and_check tri_on_hex_face world = Ok sts) ↔
   ¬ non_paired_face tri_on_hex_face world).
Proof.
  intros Hok. destruct (tally_all_ok world Hok) as (sts & Hsts & Hall).
  unfold tally_and_check. rewrite Hsts. cbn [mbind result_bind].
  set (flags := (λ st, count_flag (nfacetri st)) <$> sts).
  assert (non_paired_face tri_on_hex_face world → check_pairing flags ≠ Ok ()) as HA.
  { intros (n & st & icell & c & iface & Hin & Hi & Hc & Hf & H0 & H2) Hz.
    rewrite check_pairing_Ok in Hz.
    apply list_elem_of_lookup in Hin as [k Hk].
    destruct (Forall2_lookup_l _ _ _ _ _ Hall Hk) as (st' & Hst' & Htal).
    unfold tallied in Htal. simpl in Htal.
    assert (take n (cells st) !! icell = Some c) as Hc'
      by (by rewrite lookup_take_lt).
    destruct (Forall2_lookup_l _ _ _ _ _ Htal Hc') as (row & Hrow & _ & Hcount).
    assert (count_flag (nfacetri st') = 0) as Hflag.
    { apply Hz. subst flags. apply list_elem_of_fmap. exists st'. split; [done|].
      apply list_elem_of_lookup. by exists k. }
    destruct (proj1 (count_flag_zero _) Hflag icell row iface _ Hrow Hf (Hcount iface Hf));
      congruence. }
  assert (check_pairing flags = Err NonPairedFace → non_paired_face tri_on_hex_face world)
    as HB.
  { unfold check_pairing. case_bool_decide as Hsum; [intros _|done].
    apply sum_list_nonzero in Hsum as (x & (st' & -> & Hin)%list_elem_of_fmap & Hx).
    apply list_elem_of_lookup in Hin as [k Hk].
    destruct (Forall2_lookup_r _ _ _ _ _ Hall Hk) as ([n st] & Hp & Htal).
    unfold tallied in Htal. simpl in Htal.
    destruct (count_flag_nonzero _ Hx) as (icell & row & iface & m & Hrow & Hf & Hm & H0 & H2).
    destruct (Forall2_lookup_r _ _ _ _ _ Htal Hrow) as (c & Hc & _ & Hcount).
    rewrite (Hcount iface Hf) in Hm. simplify_eq.
    apply lookup_take_Some in Hc as [Hc Hi].
    exists n, st, icell, c, iface.
    repeat split; try done. apply list_elem_of_lookup. by exists k. }
  destruct (check_pairing_cases flags) as [HOk|HErr].
  - rewrite HOk in *. cbn [mbind result_bind]. split.
    + split; [done|]. intros Hb. by destruct (HA Hb).
    + split; [intros _ Hb; by destruct (HA Hb)|]. intros _. by exists sts.
  - rewrite HErr in *. cbn [mbind result_bind]. split.
    + split; [|done]. intros _. by apply HB.
    + split; [by intros [? ?]|]. intros Hnb. destruct Hnb. by apply HB.
Qed.

End tally_props.

(** ** The cleanup on the two-cell examples *)

Section cleanup_examples.
Import Cleanup Examples.


(** The three outcomes on the two-cell example, run through the whole
    local pass: the pair moves to B and carries its ID 12, *)
Example local_pass_moves_pair :
  (fun st => (id <$> tris st, surfs <$> cells st, dellist st)) <$>
    local_pass 0 neigh_decode 2 (tallied_state 2 (one_proc_pair 1))
  = Ok ([12; 12; 11; 12]%Z, [[2]; [3; 0; 1]], []).
Proof. by vm_compute. Qed.

(** stays in A when its normal points into A, *)
Example local_pass_keeps_pair :
  local_pass 0 neigh_decode 2 (tallied_state 2 (one_proc_pair (-1)))
  = Ok (tallied_state 2 (one_proc_pair (-1))).
Proof. by vm_compute. Qed.

(** and both pairs are unlinked and queued for deletion when B has a pair
    too. *)
Example local_pass_deletes_pairs :
  (fun st => (id <$> tris st, surfs <$> cells st, dellist st)) <$>
    local_pass 0 neigh_decode 2 (tallied_state 2 one_proc_two_pairs)
  = Ok ([11; 11; 11; 12; 12; 12]%Z, [[2]; [3]], [0; 1; 4; 5]).
Proof. by vm_compute. Qed.


Lemma adoption_copies_triangles_witness :
  let rst := tallied_state 1 receiver_state in
  let d := mkDatum 0 1 0 0 false (face_tri0 11 1) (face_tri1 11 1) in
  ∃ rst' a b,
    recv_step new_tri (Ok rst) d = Ok rst' ∧
    tris rst' = tris rst ++ [a; b] ∧
    copy_but_id (face_tri0 11 1) a ∧ id a = 12%Z ∧
    copy_but_id (face_tri1 11 1) b ∧ id b = 12%Z.
Proof.
  intros rst d.
  apply (adoption_copies_triangles new_tri rst d (cellB 1 1 [0] 1)).
  - reflexivity.
  - reflexivity.
  - reflexivity.
  - vm_compute. lia.
Defined.

Lemma pairing_check_enforced_witness :
  tally_and_check tri_on_hex_face [(2, lone_face_tri)] = Err NonPairedFace ↔
  non_paired_face tri_on_hex_face [(2, lone_face_tri)].
Proof.
  apply (pairing_check_enforced tri_on_hex_face [(2, lone_face_tri)]).
  intros n st Hin. apply list_elem_of_singleton in Hin as [= -> ->].
  repeat constructor.
  - intros m Hm. apply elem_of_cons in Hm as [->|Hm];
      [|apply list_elem_of_singleton in Hm as ->]; eexists; split; by vm_compute.
  - intros m Hm. by apply elem_of_nil in Hm.
Defined.

(** The cross-process example: process 0 sends the pair of A, whose
    normal points into B, and unlinks it; process 1 adopts it. *)
Example sender_enqueues_and_unlinks :
  (fun st => (surfs <$> cells st, dellist st, proclist st, bufsend st)) <$>
    local_pass 0 neigh_decode 1 (tallied_state 1 (sender_state 1))
  = Ok ([[2]; []], [0; 1], [1%Z],
        [mkDatum 0 1 0 0 false (face_tri0 11 1) (face_tri1 11 1)]).
Proof. by vm_compute. Qed.

Example receiver_adopts :
  (fun st => (tris st, surfs <$> cells st, dellist st)) <$>
    recv_pass new_tri [mkDatum 0 1 0 0 false (face_tri0 11 1) (face_tri1 11 1)]
      (tallied_state 1 receiver_state)
  = Ok ([inner_triB; face_tri0 12 1; face_tri1 12 1], [[0; 1; 2]; []], []).
Proof. by vm_compute. Qed.

End cleanup_examples.

(** ** Marching cubes *)

Section cubes_props.
Import Cubes.
Local Open Scope Z_scope.
Variable thresh : double.
Variable c : Cube.
Variable config : Z.
Variable test4 : Z → Z.
Variable test6 test10 test12 : Z → Z → Z.

Lemma vote_01 (a b : double) (At Bt Ct Dt : double → double) :
  vote a b At Bt Ct Dt = 0 ∨ vote a b At Bt Ct Dt = 1.
Proof. unfold vote. repeat case_match; auto. Qed.

Lemma vote_zero_iff (a b : double) (At Bt Ct Dt : double → double) :
  vote a b At Bt Ct Dt = 0 ↔
  (a >? zero)%D = false ∧
  let t := (- b / (of_int 2 * a))%D in
  (t <? zero)%D = false ∧ (t >? one)%D = false ∧
  (At t * Ct t - Bt t * Dt t >? zero)%D = true.
Proof.
  unfold vote. cbv zeta.
  destruct (a >? zero)%D; [split; [done|by intros [? _]]|].
  destruct (_ <? zero)%D; [split; [done|by intros (_ & ? & _)]|].
  destruct (_ >? one)%D; [split; [done|by intros (_ & _ & ? & _)]|].
  cbn [orb].
  destruct (_ >? zero)%D; [done|].
  split; [by case_match|by intros (_ & _ & _ & ?)].
Qed.

Ltac edge_cases e H :=
  assert (e = 0 ∨ e = 1 ∨ e = 2 ∨ e = 3 ∨ e = 4 ∨ e = 5 ∨ e = 6 ∨ e = 7 ∨
          e = 8 ∨ e = 9 ∨ e = 10 ∨ e = 11) as H by lia;
  destruct H as [->|[->|[->|[->|[->|[->|[->|[->|[->|[->|[->| ->]]]]]]]]]]].

(** Every [case] of [interior_ambiguity_verification] is the quadratic of
    its four lines. *)
Lemma verification_quadratic (edge : Z) :
  0 ≤ edge < 12 →
  ∃ ls, edge_lines thresh c edge = Some ls ∧
        interior_ambiguity_verification thresh c edge
        = let '(A, B, C, D) := ls in
          vote (quad_a ls) (quad_b ls) (along A) (along B) (along C) (along D).
Proof.
  intros Hr. edge_cases edge H; (eexists; split; [reflexivity|reflexivity]).
Qed.

Lemma verification_01 (edge : Z) :
  interior_ambiguity_verification thresh c edge = 0 ∨
  interior_ambiguity_verification thresh c edge = 1.
Proof.
  destruct (decide (0 ≤ edge < 12)) as [Hr|Hr].
  - destruct (verification_quadratic edge Hr) as ([[[A B] C] D] & _ & ->).
    apply vote_01.
  - right. unfold interior_ambiguity_verification.
    repeat (case_match; try lia); done.
Qed.

Lemma verification_zero_iff (edge : Z) :
  interior_ambiguity_verification thresh c edge = 0 ↔ positive_verify thresh c edge.
Proof.
  unfold positive_verify.
  destruct (decide (0 ≤ edge < 12)) as [Hr|Hr].
  - destruct (verification_quadratic edge Hr) as ([[[A B] C] D] & Hls & ->).
    rewrite vote_zero_iff. split.
    + intros H. eexists. split; [done|]. exact H.
    + intros (ls & Hls' & H). rewrite Hls in Hls'. simplify_eq. exact H.
  - split.
    + unfold interior_ambiguity_verification. repeat (case_match; try lia); done.
    + intros (ls & Hls & _). unfold edge_lines in Hls.
      repeat (case_match; try lia); done.
Qed.
Lemma verification_vote (edge : Z) :
  (interior_ambiguity_verification thresh c edge = 0 ∧ positive_verify thresh c edge) ∨
  (interior_ambiguity_verification thresh c edge = 1 ∧ ¬ positive_verify thresh c edge).
Proof.
  destruct (verification_01 edge) as [H|H].
  - left. split; [done|]. by apply verification_zero_iff.
  - right. split; [done|]. intros Hp%verification_zero_iff. lia.
Qed.

Lemma inter_amb_sum (s : Z) (faces edges : list Z) :
  Forall2 (fun f e => interior_ambiguity thresh c f s = Ok e) faces edges →
  inter_amb thresh c s faces
  = Ok (sum_votes (interior_ambiguity_verification thresh c <$> edges)).
Proof.
  induction 1 as [|f e faces edges Hf _ IH]; simpl; [done|].
  rewrite Hf. cbn [mbind result_bind]. rewrite IH. done.
Qed.

(** C2, as the code has it: the modified interior test of the cases 4, 6,
    7, 10 and 12 takes, for each ambiguous face, the edge [interior_ambiguity] picks
    and the vote of its quadratic: 0 when [verify = At*Ct - Bt*Dt] is
    reached and positive, 1 otherwise.  It sums the votes and answers true
    exactly when the sum is not zero.  In the arms of the cases 4 and 6 a
    true answer selects the simple tiling ([tiling4_1] with 2 triangles,
    [tiling6_1_1] with 3) and a false one, the sum being zero, the
    subdivided tiling ([tiling4_2] with 6, [tiling6_1_2] with 9). *)
Theorem modified_interior_test_selection (s icase : Z) (faces edges : list Z) :
  amb_faces config test6 test10 test12 icase = Some faces →
  Forall2 (fun f e => interior_ambiguity thresh c f
                        (if bool_decide (icase = 7) then s * -1 else s) = Ok e)
          faces edges →
  let sum := sum_votes (interior_ambiguity_verification thresh c <$> edges) in
  Forall (fun e =>
            (interior_ambiguity_verification thresh c e = 0 ∧ positive_verify thresh c e) ∨
            (interior_ambiguity_verification thresh c e = 1 ∧ ¬ positive_verify thresh c e))
         edges ∧
  modified_test_interior thresh c config test6 test10 test12 s icase
  = Ok (bool_decide (sum ≠ 0)) ∧
  (icase = 4 → s = test4 config →
   marching_cubes_case4 thresh c config test4 test6 test10 test12
   = Ok (if bool_decide (sum ≠ 0) then (tiling4_1, 2%nat) else (tiling4_2, 6%nat))) ∧
  (icase = 6 → s = test6 config 1 →
   test_face thresh c (test6 config 0) = Ok false →
   marching_cubes_case6 thresh c config test6 test10 test12
   = Ok (if bool_decide (sum ≠ 0) then (tiling6_1_1, 3%nat) else (tiling6_1_2, 9%nat))).
Proof.
  intros Hfaces Hedges sum.
  assert (modified_test_interior thresh c config test6 test10 test12 s icase
          = Ok (bool_decide (sum ≠ 0))) as Hmod.
  { unfold modified_test_interior. rewrite Hfaces.
    rewrite (inter_amb_sum _ _ _ Hedges). cbn [mbind result_bind]. fold sum.
    by repeat case_bool_decide. }
  split; [|split; [done|split]].
  - apply Forall_forall. intros e _. apply verification_vote.
  - intros -> ->. unfold marching_cubes_case4. rewrite Hmod.
    cbn [mbind result_bind]. by case_bool_decide.
  - intros -> -> Hface. unfold marching_cubes_case6. rewrite Hface.
    cbn [mbind result_bind]. rewrite Hmod. cbn [mbind result_bind].
    by case_bool_decide.
Qed.
End cubes_props.

(** *** The face test *)

Section face_props.
Import Cubes.
Local Open Scope Z_scope.

Lemma face_values_iso (t : Qc) (c : Cube) (face : Z) :
  match face_iso t c face with
  | Some (A, B, C, D) => face_values (Fin t) c face = Ok (Fin A, Fin B, Fin C, Fin D)
  | None => face_values (Fin t) c face = Err InvalidFace
  end.
Proof.
  unfold face_iso.
  destruct (decide (1 ≤ Z.abs face ≤ 6)) as [Hr|Hr].
  - assert (face = 1 ∨ face = 2 ∨ face = 3 ∨ face = 4 ∨ face = 5 ∨ face = 6 ∨
            face = -1 ∨ face = -2 ∨ face = -3 ∨ face = -4 ∨ face = -5 ∨ face = -6)
      as H by lia.
    destruct H as [->|[->|[->|[->|[->|[->|[->|[->|[->|[->|[->| ->]]]]]]]]]]]; reflexivity.
  - unfold face_values. repeat (case_match; try lia); done.
Qed.

Lemma fabs_lt (x e : Qc) :
  (fabs (Fin x) <? Fin e)%D = true ↔ (- e < x)%Qc ∧ (x < e)%Qc.
Proof.
  unfold fabs, ltb. case_decide; rewrite bool_decide_eq_true; split.
  - intros H'. split; qc_order.
  - intros [? ?]. qc_order.
  - intros H'. split; qc_order.
  - intros [? ?]. qc_order.
Qed.


End face_props.

(** *** The points of a tiling *)

Section point_props.
Import Cubes.
Local Open Scope Z_scope.
Variable thresh : double.
Variable c : Cube.

Lemma crossing_tests_table :
  crossing_tests thresh c
  = (fun e => (crosses thresh c e, crossing thresh c e)) <$> seqZ 0 12.
Proof. reflexivity. Qed.

Lemma add_if_filter (l : list (bool * point)) (u : Z) (s : point) :
  foldl add_if (u, s) l
  = (u + Z.of_nat (length (filter (fun bp => fst bp = true) l)),
     foldl padd s (snd <$> filter (fun bp => fst bp = true) l)).
Proof.
  revert u s. induction l as [|[b p] l IH]; intros u s.
  - simpl. f_equal. lia.
  - cbn [foldl]. destruct b; unfold add_if at 2; cbn [fst snd].
    + rewrite filter_cons_True by done. rewrite IH.
      rewrite fmap_cons. cbn [length foldl snd]. f_equal. lia.
    + rewrite filter_cons_False by done. apply IH.
Qed.

Lemma filter_crossing (l : list Z) :
  filter (fun bp => fst bp = true)
    ((fun e => (crosses thresh c e, crossing thresh c e)) <$> l)
  = (fun e => (crosses thresh c e, crossing thresh c e)) <$>
      filter (fun e => crosses thresh c e = true) l.
Proof.
  induction l as [|e l IH]; [done|].
  rewrite fmap_cons.
  destruct (crosses thresh c e) eqn:E.
  - rewrite !filter_cons_True by done. rewrite fmap_cons, E. by f_equal.
  - rewrite !filter_cons_False by (simpl; congruence). done.
Qed.

(** The point of the virtual edge 12 is the mean of the crossings on the
    edges whose end signs differ. *)
Lemma tunnel_centre_mean :
  tunnel_centre thresh c
  = mean_point (crossing thresh c <$> crossing_edges thresh c).
Proof.
  unfold tunnel_centre, mean_point, crossing_edges.
  rewrite crossing_tests_table, add_if_filter, filter_crossing.
  rewrite length_fmap, <- list_fmap_compose. simpl.
  rewrite length_fmap. done.
Qed.

End point_props.

Section box_props.
Import Cubes.
Local Open Scope Z_scope.
Variable t : Qc.
Variable c : Cube.

Ltac edge_cases e H :=
  assert (e = 0 ∨ e = 1 ∨ e = 2 ∨ e = 3 ∨ e = 4 ∨ e = 5 ∨ e = 6 ∨ e = 7 ∨
          e = 8 ∨ e = 9 ∨ e = 10 ∨ e = 11) as H by lia;
  destruct H as [->|[->|[->|[->|[->|[->|[->|[->|[->|[->|[->| ->]]]]]]]]]]].

Lemma interp_between (v0 v1 : Z) (l h : Qc) :
  (l ≤ h)%Qc →
  (Fin l <=? interp (Fin t) v0 v1 (Fin l) (Fin h))%D = true ∧
  (interp (Fin t) v0 v1 (Fin l) (Fin h) <=? Fin h)%D = true.
Proof.
  intros Hlh. unfold interp.
  destruct (interpolate_between t v0 v1 l h Hlh) as (r & -> & Hl & Hh).
  unfold leb. by rewrite !bool_decide_eq_true.
Qed.

Lemma edge_on_box (e : Z) :
  box_ok c → 0 ≤ e < 12 →
  ∃ k1 k2 p, edge_ends e = Some (k1, k2) ∧ switch_trig (Fin t) c e = Some p ∧
             on_cell_edge c k1 k2 p.
Proof.
  intros (a0 & a1 & a2 & b0 & b1 & b2 & Hlo & Hhi & H0 & H1 & H2) Hr.
  edge_cases e H; (eexists _, _, _; split; [reflexivity|]; split; [reflexivity|]);
    intros d Hd; destruct d as [|[|[|d]]]; try lia;
    cbn [corner_bit fst snd coordp]; case_bool_decide; try done;
    rewrite ?Hlo, ?Hhi; cbn [px py pz]; by apply interp_between.
Qed.
Lemma add_triangle_fold (trig : list Z) (pt : list point) (m : nat) :
  length (foldl (add_triangle_step (Fin t) c trig) pt (seq 0 m)) = length pt ∧
  ∀ i e, (i < m)%nat → (i < length pt)%nat → trig !! i = Some e →
         is_Some (switch_trig (Fin t) c e) →
         foldl (add_triangle_step (Fin t) c trig) pt (seq 0 m) !! i
         = switch_trig (Fin t) c e.
Proof.
  induction m as [|m [IHlen IH]]; [split; [done|lia]|].
  rewrite seq_S, foldl_app. cbn [foldl Nat.add].
  set (pt' := foldl (add_triangle_step (Fin t) c trig) pt (seq 0 m)) in *.
  assert (length (add_triangle_step (Fin t) c trig pt' m) = length pt) as Hlen.
  { unfold add_triangle_step. repeat case_match; rewrite ?length_insert; done. }
  split; [done|].
  intros i e Hi Hipt He [p Hp].
  destruct (decide (i = m)) as [->|Hne].
  - unfold add_triangle_step. rewrite He, Hp.
    rewrite list_lookup_insert_eq by lia. done.
  - unfold add_triangle_step.
    repeat case_match; rewrite ?list_lookup_insert_ne by done;
      apply IH; (lia || done || eauto).
Qed.

End box_props.

(** ** The tests and the points on the example cells *)

Section cube_examples.
Import Cubes CubeExamples.
Local Open Scope Z_scope.

(** On the face 1 of [saddle_face] the product [A*C - B*D] is negative and
    [A] positive: the test holds for the face code -1 only.  On
    [even_saddle] the product is zero and the sign of the code decides. *)
Example test_face_saddle :
  test_face half saddle_face 1 = Ok false ∧
  test_face half saddle_face (-1) = Ok true ∧
  test_face half even_saddle 1 = Ok true ∧
  test_face half even_saddle (-1) = Ok false ∧
  test_face half saddle_face 7 = Err InvalidFace.
Proof. by vm_compute. Qed.

Lemma modified_interior_test_selection_witness :
  modified_test_interior half far 0 (rows 1) (rows 1) (rows 1) 7 4 = Ok true ∧
  marching_cubes_case4 half far 0 (row 7) (rows 1) (rows 1) (rows 1)
  = Ok (tiling4_1, 2%nat).
Proof.
  destruct (modified_interior_test_selection half far 0 (row 7) (rows 1) (rows 1)
              (rows 1) 7 4 [1; 2; 5] [5; 3; 8]) as (_ & Hmod & H4 & _).
  - reflexivity.
  - repeat constructor.
  - split; [exact Hmod|]. apply H4; reflexivity.
Defined.

(** On [far] each of the three faces votes 1: the sum is 3, the test
    answers true and the arm of the case 4 takes [tiling4_1] with 2
    triangles, for an entry 7 as for an entry -7 of [test4]. *)
Lemma nonzero_sum_takes_simple_tiling :
  interior_ambiguity_verification half far <$> [5; 3; 8] = [1; 1; 1] ∧
  inter_amb half far 7 [1; 2; 5] = Ok 3 ∧
  modified_test_interior half far 0 (rows 1) (rows 1) (rows 1) 7 4 = Ok true ∧
  marching_cubes_case4 half far 0 (row 7) (rows 1) (rows 1) (rows 1)
  = Ok (tiling4_1, 2%nat) ∧
  inter_amb half far (-7) [1; 2; 5] = Ok 3 ∧
  marching_cubes_case4 half far 0 (row (-7)) (rows 1) (rows 1) (rows 1)
  = Ok (tiling4_1, 2%nat).
Proof. by vm_compute. Qed.

(** On [near] every vote is 0 and the arm takes [tiling4_2] with 6. *)
Example zero_sum_takes_subdivided_tiling :
  inter_amb half near 7 [1; 2; 5] = Ok 0 ∧
  marching_cubes_case4 half near 0 (row 7) (rows 1) (rows 1) (rows 1)
  = Ok (tiling4_2, 6%nat).
Proof. by vm_compute. Qed.


Lemma Pt_Fin_eq (a b c a' b' c' : Qc) :
  (a == a')%Q → (b == b')%Q → (c == c')%Q →
  Pt (Fin a) (Fin b) (Fin c) = Pt (Fin a') (Fin b') (Fin c').
Proof. intros Ha Hb Hc. f_equal; f_equal; by apply Qc_is_canon. Qed.

(** Six edges of [far] cross the threshold; the point of the edge 12 is
    the centre of the cell, and the point of the edge 0 lies on it. *)
Example tunnel_centre_far :
  crossing_edges half far = [0; 3; 5; 6; 8; 10] ∧
  switch_trig half far 12 = Some (Pt half_one half_one half_one) ∧
  switch_trig half far 0 = Some (Pt half_one zero zero).
Proof.
  split; [by vm_compute|].
  split; vm_compute; apply (f_equal Some), Pt_Fin_eq; reflexivity.
Qed.

End cube_examples.

(** ** The reader *)

(** *** The loop over the chunks *)

Section chunk_props.
Import Ingest Reader.
Local Open Scope Z_scope.
Context {A St : Type}.
Variable assign : nat → Z → list A → St → result St.
Variable whole : Z → list A → St → result St.
Variable total : Z.

Lemma fread_take (n : nat) (buf fp : list A) :
  (n ≤ length fp)%nat → take n (fst (fread n buf fp)) = take n fp.
Proof.
  intros Hn. unfold fread. cbn [fst].
  rewrite take_app_le by (rewrite length_take; lia).
  rewrite take_take. f_equal. lia.
Qed.

(** A loop over chunks whose passes compose is one pass over the file. *)
Lemma read_chunks_whole (fuel : nat) (nread : Z) (buf fp : list A) (s : St) :
  (∀ n off buf s, assign n off buf s = whole off (take n buf) s) →
  (∀ off a b s,
     whole off (a ++ b) s = whole off a s ≫= whole (off + Z.of_nat (length a)) b) →
  (∀ off s, whole off [] s = Ok s) →
  (Z.to_nat (total - nread) ≤ fuel)%nat →
  (Z.to_nat (total - nread) ≤ length fp)%nat →
  read_chunks assign total fuel nread buf fp s
  = Some (whole nread (take (Z.to_nat (total - nread)) fp) s).
Proof.
  intros assign_whole whole_app whole_nil.
  revert nread buf fp s. induction fuel as [|fuel IH]; intros nread buf fp s Hfuel Hfp.
  - cbn [read_chunks]. case_bool_decide; [lia|].
    replace (Z.to_nat (total - nread)) with 0%nat by lia. by rewrite take_0, whole_nil.
  - cbn [read_chunks]. case_bool_decide as Hlt.
    + set (nchunk := if bool_decide (total - nread > CHUNK) then CHUNK else total - nread).
      assert (0 < nchunk ≤ total - nread) as Hn.
      { unfold nchunk, CHUNK. case_bool_decide; lia. }
      destruct (fread (Z.to_nat nchunk) buf fp) as [buf' fp'] eqn:Hread.
      assert (take (Z.to_nat nchunk) buf' = take (Z.to_nat nchunk) fp) as Hbuf.
      { replace buf' with (fst (fread (Z.to_nat nchunk) buf fp)) by by rewrite Hread.
        apply fread_take. lia. }
      assert (fp' = drop (Z.to_nat nchunk) fp) as ->.
      { unfold fread in Hread. by simplify_eq. }
      rewrite assign_whole, Hbuf.
      replace (Z.to_nat (total - nread))
        with (Z.to_nat nchunk + Z.to_nat (total - (nread + nchunk)))%nat by lia.
      rewrite <- take_take_drop, whole_app.
      rewrite length_take_le by lia. rewrite Z2Nat.id by lia.
      destruct (whole nread (take (Z.to_nat nchunk) fp) s) as [s'|e]; [|done].
      cbn [mbind result_bind]. apply IH; [lia|].
      rewrite length_drop. lia.
    + replace (Z.to_nat (total - nread)) with 0%nat by lia. by rewrite take_0, whole_nil.
Qed.

End chunk_props.

(** *** [assign_corners] over a whole file *)

Section reader_props.
Import Ingest Reader.
Local Open Scope Z_scope.
Variable L : Lattice.
Variable hash : gmap Z nat.

Lemma assign_loop_app (off : Z) (a b : list Z) (cv : list (list Z)) :
  assign_loop L hash off (a ++ b) cv
  = assign_loop L hash off a cv ≫= assign_loop L hash (off + Z.of_nat (length a)) b.
Proof.
  revert off cv. induction a as [|v a IH]; intros off cv.
  - cbn. by rewrite Z.add_0_r.
  - cbn [app assign_loop length]. destruct (boundary_error L off v); [done|].
    rewrite IH. by replace (off + 1 + Z.of_nat (length a)) with (off + Z.of_nat (S (length a))) by lia.
Qed.





Lemma foldl_omap_write {C : Type} (store : list (list Z) → C → list (list Z))
    (target : C → option (nat * nat)) (v : Z) (cs : list C) (cv : list (list Z)) :
  (∀ cv c, store cv c = match target c with Some t => write v cv t | None => cv end) →
  foldl store cv cs = foldl (write v) cv (omap target cs).
Proof.
  intros Hstep. revert cv. induction cs as [|c cs IH]; intros cv; [done|].
  cbn [foldl omap list_omap]. rewrite Hstep.
  destruct (target c); cbn [foldl]; apply IH.
Qed.

Lemma store_corner_3d_write (v : Z) (cv : list (list Z)) (cs : list (Z * Z * Z * nat)) :
  foldl (store_corner_3d L hash v) cv cs = foldl (write v) cv (omap (target_3d L hash) cs).
Proof.
  apply foldl_omap_write. intros cv' [[[cix ciy] ciz] nc].
  unfold store_corner_3d, target_3d. case_bool_decide; [done|].
  by destruct (hash !! _).
Qed.

Lemma store_corner_2d_write (v : Z) (cv : list (list Z)) (cs : list (Z * Z * Z * nat)) :
  foldl (store_corner_2d L hash v) cv cs = foldl (write v) cv (omap (target_2d L hash) cs).
Proof.
  apply foldl_omap_write. intros cv' [[[cix ciy] ciz] nc].
  unfold store_corner_2d, target_2d. case_bool_decide; [done|].
  by destruct (hash !! _).
Qed.

Lemma store_point_writes (p v : Z) (cv : list (list Z)) :
  store_point L hash p v cv = foldl (write v) cv (targets L hash p).
Proof.
  unfold store_point, targets. case_bool_decide.
  - apply store_corner_3d_write.
  - apply store_corner_2d_write.
Qed.

Lemma entry_write (v : Z) (cv : list (list Z)) (t : nat * nat) (i k : nat) :
  entry (write v cv t) i k = if decide (t = (i, k)) then (const v <$> entry cv i k) else entry cv i k.
Proof.
  destruct t as [i' k']. unfold entry, write. cbn [fst snd].
  destruct (decide (i' = i)) as [->|Hi].
  - rewrite list_lookup_alter_eq. destruct (cv !! i) as [row|] eqn:Hrow; cbn.
    + destruct (decide (k' = k)) as [->|Hk].
      * rewrite decide_True by done.
        destruct (decide (k < length row)%nat).
        -- rewrite list_lookup_insert_eq by done.
           destruct (lookup_lt_is_Some_2 row k) as [w ->]; done.
        -- rewrite list_insert_ge by lia. rewrite lookup_ge_None_2 by lia. done.
      * rewrite decide_False by congruence. by rewrite list_lookup_insert_ne.
    + by case_decide.
  - rewrite list_lookup_alter_ne by done. rewrite decide_False by congruence. done.
Qed.

Lemma entry_writes (v : Z) (ts : list (nat * nat)) (cv : list (list Z)) (i k : nat) :
  entry (foldl (write v) cv ts) i k
  = if decide ((i, k) ∈ ts) then (const v <$> entry cv i k) else entry cv i k.
Proof.
  revert cv. induction ts as [|t ts IH]; intros cv.
  - cbn. rewrite decide_False; [done|]. apply not_elem_of_nil.
  - cbn [foldl]. rewrite IH, entry_write.
    destruct (decide (t = (i, k))) as [->|Hne].
    + rewrite (decide_True (P := (i, k) ∈ (i, k) :: ts)) by apply list_elem_of_here.
      destruct (decide ((i, k) ∈ ts)); [|done]. by destruct (entry cv i k).
    + destruct (decide ((i, k) ∈ ts)) as [Hin|Hin].
      * rewrite decide_True; [done|]. by apply list_elem_of_further.
      * rewrite decide_False; [done|]. rewrite elem_of_cons. by intros [?|?].
Qed.



Lemma cell_index_inj (a1 a2 a3 b1 b2 b3 : Z) :
  in_block L a1 a2 a3 → in_block L b1 b2 b3 →
  cell_index L a1 a2 a3 = cell_index L b1 b2 b3 → a1 = b1 ∧ a2 = b2 ∧ a3 = b3.
Proof.
  unfold in_block, cell_index. intros (Ha1 & Ha2 & Ha3) (Hb1 & Hb2 & Hb3) Heq.
  assert (0 ≤ nx L * a2 + a1 < nx L * ny L) as HA by nia.
  assert (0 ≤ nx L * b2 + b1 < nx L * ny L) as HB by nia.
  assert (a3 = b3) as ->.
  { destruct (Z.lt_trichotomy a3 b3) as [?|[?|?]]; [|done|]; nia. }
  assert (a2 = b2) as ->.
  { destruct (Z.lt_trichotomy a2 b2) as [?|[?|?]]; [|done|]; nia. }
  lia.
Qed.

Lemma corner_number_inj (dx dy dz dx' dy' dz' : bool) :
  corner_number dx dy dz = corner_number dx' dy' dz' → dx = dx' ∧ dy = dy' ∧ dz = dz'.
Proof. by destruct dx, dy, dz, dx', dy', dz'. Qed.

Local Ltac try_corners tac :=
  first [ exists false, false, false; tac | exists true, false, false; tac
        | exists false, true, false; tac | exists true, true, false; tac
        | exists false, false, true; tac | exists true, false, true; tac
        | exists false, true, true; tac | exists true, true, true; tac ].

Lemma targets_spec (x y z : Z) (i k : nat) :
  extents_ok L → in_lattice L x y z →
  (i, k) ∈ targets L hash (lattice_index L x y z) ↔
  ∃ dx dy dz : bool,
    (dimension L ≠ 3 → dz = false) ∧
    in_block L (x - Z.b2z dx) (y - Z.b2z dy) (z - Z.b2z dz) ∧
    hash !! cell_index L (x - Z.b2z dx) (y - Z.b2z dy) (z - Z.b2z dz) = Some i ∧
    k = corner_number dx dy dz.
Proof.
  intros Hok Hin.
  destruct (decode_lattice_index L x y z Hok Hin) as (Ex & Ey & Ez).
  unfold targets. rewrite Ex, Ey, Ez.
  destruct Hok as (Hx & Hy & Hz & _). destruct Hin as (Hxr & Hyr & Hzr).
  case_bool_decide as Hdim; rewrite list_elem_of_omap.
  - split.
    + intros (c & Hc & Ht). unfold corner_cells_3d in Hc. cbn in Hc.
      repeat (apply elem_of_cons in Hc as [->|Hc]); [..|by apply elem_of_nil in Hc];
        unfold target_3d in Ht; case_bool_decide; try done;
        destruct (hash !! _) as [j|] eqn:Hj; try done; cbn in Ht; simplify_eq;
        try_corners ltac:(split; [done|]; split; [unfold in_block; cbn; lia|];
                          split; [rewrite <- Hj; f_equal; unfold cell_index; cbn; lia
                                 |reflexivity]).
    + intros (dx & dy & dz & _ & Hb & Hh & ->).
      exists (x - Z.b2z dx, y - Z.b2z dy, z - Z.b2z dz, corner_number dx dy dz). split.
      * unfold corner_cells_3d. destruct dx, dy, dz; cbn;
          rewrite ?Z.sub_0_r; repeat (first [apply list_elem_of_here|apply list_elem_of_further]).
      * unfold target_3d. unfold in_block in Hb. rewrite bool_decide_false by lia.
        unfold cell_index in Hh. by rewrite Hh.
  - split.
    + intros (c & Hc & Ht). unfold corner_cells_2d in Hc. cbn in Hc.
      repeat (apply elem_of_cons in Hc as [->|Hc]); [..|by apply elem_of_nil in Hc];
        unfold target_2d in Ht; case_bool_decide; try done;
        destruct (hash !! _) as [j|] eqn:Hj; try done; cbn in Ht; simplify_eq;
        try_corners ltac:(split; [done|]; split; [unfold in_block; cbn; lia|];
                          split; [rewrite <- Hj; f_equal; unfold cell_index; cbn; lia
                                 |reflexivity]).
    + intros (dx & dy & dz & Hdz & Hb & Hh & ->). rewrite Hdz in * by done.
      exists (x - Z.b2z dx, y - Z.b2z dy, 0, corner_number dx dy false). split.
      * unfold corner_cells_2d. destruct dx, dy; cbn;
          rewrite ?Z.sub_0_r; repeat (first [apply list_elem_of_here|apply list_elem_of_further]).
      * unfold target_2d. unfold in_block in Hb. rewrite bool_decide_false by lia.
        unfold cell_index in Hh. cbn in Hh.
        replace (nx L * (y - Z.b2z dy) + (x - Z.b2z dx))
          with (nx L * ny L * (z - 0) + nx L * (y - Z.b2z dy) + (x - Z.b2z dx)) by lia.
        by rewrite Hh.
Qed.

Lemma assign_loop_entry_other (off : Z) (buf : list Z) (cv cv' : list (list Z)) (i k : nat) :
  assign_loop L hash off buf cv = Ok cv' →
  (∀ j : nat, (j < length buf)%nat → (i, k) ∉ targets L hash (off + Z.of_nat j)) →
  entry cv' i k = entry cv i k.
Proof.
  revert off cv. induction buf as [|v buf IH]; intros off cv Hrun Hno.
  - cbn in Hrun. by simplify_eq.
  - cbn [assign_loop] in Hrun. destruct (boundary_error L off v); [done|].
    rewrite (IH _ _ Hrun).
    + rewrite store_point_writes, entry_writes. rewrite decide_False; [done|].
      specialize (Hno 0%nat). rewrite Z.add_0_r in Hno. apply Hno. cbn. lia.
    + intros j Hj. replace (off + 1 + Z.of_nat j) with (off + Z.of_nat (S j)) by lia.
      apply Hno. cbn. lia.
Qed.

Lemma assign_loop_entry_at (off : Z) (buf : list Z) (cv cv' : list (list Z))
    (i k j : nat) (v : Z) :
  assign_loop L hash off buf cv = Ok cv' →
  buf !! j = Some v →
  (i, k) ∈ targets L hash (off + Z.of_nat j) →
  (∀ j' : nat, (j' < length buf)%nat → j' ≠ j →
               (i, k) ∉ targets L hash (off + Z.of_nat j')) →
  entry cv' i k = const v <$> entry cv i k.
Proof.
  intros Hrun Hj Hin Hno.
  pose proof (lookup_lt_Some _ _ _ Hj) as Hlt.
  rewrite <- (take_drop_middle _ _ _ Hj) in Hrun.
  rewrite assign_loop_app in Hrun.
  destruct (assign_loop L hash off (take j buf) cv) as [cv1|] eqn:H1; [|done].
  cbn [mbind result_bind] in Hrun. rewrite length_take_le in Hrun by lia.
  cbn [assign_loop] in Hrun.
  destruct (boundary_error L (off + Z.of_nat j) v); [done|].
  rewrite (assign_loop_entry_other _ _ _ _ _ _ Hrun).
  - rewrite store_point_writes, entry_writes, decide_True by done.
    f_equal. apply (assign_loop_entry_other _ _ _ _ _ _ H1).
    intros j' Hj'. rewrite length_take in Hj'. apply Hno; lia.
  - intros j' Hj'. rewrite length_drop in Hj'.
    replace (off + Z.of_nat j + 1 + Z.of_nat j') with (off + Z.of_nat (S j + j')) by lia.
    apply Hno; lia.
Qed.

(** Each local cell of the block ends up with the samples of its corners. *)
Lemma assign_loop_corners (file : list Z) (cv0 cv : list (list Z))
    (cx cy cz : Z) (icell : nat) (dx dy dz : bool) :
  extents_ok L → (dimension L ≠ 3 → nz L = 1 ∧ dz = false) →
  hash_injective hash →
  length file = Z.to_nat (ncorners L) →
  assign_loop L hash 0 file cv0 = Ok cv →
  in_block L cx cy cz → hash !! cell_index L cx cy cz = Some icell →
  is_Some (entry cv0 icell (corner_number dx dy dz)) →
  is_Some (sample L file (cx + Z.b2z dx) (cy + Z.b2z dy) (cz + Z.b2z dz)) ∧
  entry cv icell (corner_number dx dy dz)
  = sample L file (cx + Z.b2z dx) (cy + Z.b2z dy) (cz + Z.b2z dz).
Proof.
  intros Hok H2d Hinj Hlen Hrun Hb Hh [w Hw].
  set (x := cx + Z.b2z dx). set (y := cy + Z.b2z dy). set (z := cz + Z.b2z dz).
  assert (in_lattice L x y z) as Hin.
  { unfold in_lattice, in_block in *. subst x y z.
    destruct dx, dy, dz; cbn; case_bool_decide; try lia;
      destruct H2d as [? ?]; try done; lia. }
  assert (0 ≤ lattice_index L x y z < ncorners L) as Hidx.
  { unfold lattice_index, ncorners, in_lattice in *. destruct Hok as (? & ? & ? & _).
    case_bool_decide.
    - nia.
    - destruct H2d as [-> _]; [done|]. nia. }
  unfold sample. fold x y z.
  destruct (lookup_lt_is_Some_2 file (Z.to_nat (lattice_index L x y z))) as [v Hv]; [lia|].
  rewrite Hv. split; [by eexists|].
  rewrite (assign_loop_entry_at 0 file cv0 cv icell _ _ v Hrun Hv).
  - by rewrite Hw.
  - rewrite Z.add_0_l, Z2Nat.id by lia. apply targets_spec; [done..|].
    exists dx, dy, dz. subst x y z.
    replace (cx + Z.b2z dx - Z.b2z dx) with cx by lia.
    replace (cy + Z.b2z dy - Z.b2z dy) with cy by lia.
    replace (cz + Z.b2z dz - Z.b2z dz) with cz by lia.
    split; [|done]. intros Hd. by destruct (H2d Hd).
  - intros j' Hj' Hne Hin'. rewrite Z.add_0_l in Hin'.
    destruct (index_in_lattice L (Z.of_nat j') Hok) as (x' & y' & z' & Hin2 & Hidx2);
      [intros Hd; by destruct (H2d Hd)|lia|].
    rewrite Hidx2 in Hin'. apply targets_spec in Hin' as (dx' & dy' & dz' & _ & Hb' & Hh' & Hk); [|done..].
    apply corner_number_inj in Hk as (<- & <- & <-).
    pose proof (Hinj _ _ _ Hh Hh') as Hci.
    apply cell_index_inj in Hci as (? & ? & ?); [|done..].
    apply Hne. apply Nat2Z.inj. rewrite Hidx2, Z2Nat.id by lia.
    subst x y z. f_equal; lia.
Qed.


Lemma assign_corners_whole (n : nat) (off : Z) (buf : list Z) (cv : list (list Z)) :
  assign_corners L hash n off buf cv = assign_loop L hash off (take n buf) cv.
Proof. done. Qed.

Lemma read_corners_chunks (fp buf : list Z) (cv : list (list Z)) :
  (Z.to_nat (ncorners L) ≤ length fp)%nat →
  read_chunks (assign_corners L hash) (ncorners L) (Z.to_nat (ncorners L)) 0 buf fp cv
  = Some (assign_loop L hash 0 (take (Z.to_nat (ncorners L)) fp) cv).
Proof.
  intros Hlen.
  rewrite (read_chunks_whole _ (assign_loop L hash));
    rewrite ?Z.sub_0_r; try done; try lia; auto using assign_loop_app.
Qed.

(** X1: [read_corners] passes the first [ncorners] samples of the file
    through [assign_corners] as if in one chunk, whatever the buffer held,
    unless the header of the file does not fit the block, in which case it
    reads no sample. *)
Theorem read_corners_one_pass (n0 n1 n2 : Z) (fp buf : list Z) (cv : list (list Z)) :
  (Z.to_nat (ncorners L) ≤ length fp)%nat →
  read_corners L hash (n0, n1, n2) fp buf cv
  = Some (if decide (n0 = nx L + 1 ∧ n1 = ny L + 1 ∧ (dimension L = 3 → n2 = nz L + 1))
          then raise (assign_loop L hash 0 (take (Z.to_nat (ncorners L)) fp) cv)
          else Abort CornerFileMismatch).
Proof.
  intros Hlen. unfold read_corners.
  rewrite read_corners_chunks by done. cbn [fmap option_fmap option_map].
  repeat case_bool_decide; cbn [andb]; case_decide; try done; exfalso; tauto.
Qed.

Lemma read_corners_Done (nxyz : Z * Z * Z) (fp buf : list Z) (cv0 cv : list (list Z)) :
  (Z.to_nat (ncorners L) ≤ length fp)%nat →
  read_corners L hash nxyz fp buf cv0 = Some (Done cv) →
  assign_loop L hash 0 (take (Z.to_nat (ncorners L)) fp) cv0 = Ok cv.
Proof.
  intros Hlen. unfold read_corners. destruct nxyz as [[n0 n1] n2].
  rewrite read_corners_chunks by done. cbn [fmap option_fmap option_map].
  repeat case_bool_decide; cbn [andb]; try done;
    destruct (assign_loop _ _ _ _ _); cbn; intros; by simplify_eq.
Qed.

(** X2: After [read_corners], the entry [cvalues[icell][k]] of a local cell of
    the block holds the sample of the file at corner [k] of the cell: the
    lattice point [dx], [dy], [dz] steps from the position of the cell,
    [k] being [4*dz + 2*dy + dx]; in a 2-D run [dz] is 0. *)
Theorem corners_reach_their_cells (nxyz : Z * Z * Z) (fp buf : list Z)
    (cv0 cv : list (list Z)) (cx cy cz : Z) (icell : nat) (dx dy dz : bool) :
  extents_ok L → (dimension L ≠ 3 → nz L = 1 ∧ dz = false) →
  hash_injective hash →
  (Z.to_nat (ncorners L) ≤ length fp)%nat →
  read_corners L hash nxyz fp buf cv0 = Some (Done cv) →
  in_block L cx cy cz → hash !! cell_index L cx cy cz = Some icell →
  is_Some (entry cv0 icell (corner_number dx dy dz)) →
  is_Some (sample L fp (cx + Z.b2z dx) (cy + Z.b2z dy) (cz + Z.b2z dz)) ∧
  entry cv icell (corner_number dx dy dz)
  = sample L fp (cx + Z.b2z dx) (cy + Z.b2z dy) (cz + Z.b2z dz).
Proof.
  intros Hok H2d Hinj Hlen Hrun Hb Hh Hw.
  apply read_corners_Done in Hrun; [|done].
  destruct (assign_loop_corners (take (Z.to_nat (ncorners L)) fp) cv0 cv cx cy cz icell
              dx dy dz) as [[v Hv] Heq]; try done.
  { rewrite length_take. lia. }
  rewrite Heq. unfold sample in *.
  apply lookup_take_Some in Hv as [Hv _]. rewrite Hv.
  split; [by eexists|]. apply lookup_take_Some. split; [done|].
  apply lookup_lt_Some in Hv. 
  destruct (decide (Z.to_nat (lattice_index L (cx + Z.b2z dx) (cy + Z.b2z dy) (cz + Z.b2z dz)) < Z.to_nat (ncorners L))%nat); [done|].
  exfalso.
  destruct (assign_loop_corners (take (Z.to_nat (ncorners L)) fp) cv0 cv cx cy cz icell
              dx dy dz) as [[v' Hv'] _]; try done.
  { rewrite length_take. lia. }
  unfold sample in Hv'. apply lookup_lt_Some in Hv'. rewrite length_take in Hv'. lia.
Qed.


Lemma write_rows (v : Z) (cv : list (list Z)) (t : nat * nat) :
  length (write v cv t) = length cv ∧
  ∀ i, length <$> write v cv t !! i = length <$> cv !! i ∧
       (i ≠ fst t → write v cv t !! i = cv !! i).
Proof.
  unfold write. split; [apply length_alter|]. intros i. split.
  - destruct (decide (i = fst t)) as [->|Hne].
    + rewrite list_lookup_alter_eq. destruct (cv !! fst t); [|done].
      cbn. by rewrite length_insert.
    + by rewrite list_lookup_alter_ne.
  - intros Hne. by rewrite list_lookup_alter_ne.
Qed.

Lemma writes_rows (v : Z) (ts : list (nat * nat)) (cv : list (list Z)) :
  length (foldl (write v) cv ts) = length cv ∧
  ∀ i, length <$> foldl (write v) cv ts !! i = length <$> cv !! i ∧
       ((∀ t, t ∈ ts → i ≠ fst t) → foldl (write v) cv ts !! i = cv !! i).
Proof.
  revert cv. induction ts as [|t ts IH]; intros cv; [done|].
  cbn [foldl]. destruct (IH (write v cv t)) as [Hlen Hrows].
  destruct (write_rows v cv t) as [Hlen1 Hrows1].
  split; [congruence|]. intros i.
  destruct (Hrows i) as [Hl Hsame]. destruct (Hrows1 i) as [Hl1 Hsame1].
  split; [congruence|]. intros Hno.
  rewrite Hsame, Hsame1; [done|..].
  - apply Hno, list_elem_of_here.
  - intros t' Ht'. by apply Hno, list_elem_of_further.
Qed.

Lemma targets_local (p : Z) (t : nat * nat) :
  t ∈ targets L hash p → ∃ a, hash !! a = Some (fst t).
Proof.
  unfold targets. case_bool_decide; rewrite list_elem_of_omap;
    intros ([[[cix ciy] ciz] nc] & _ & Ht).
  - unfold target_3d in Ht. case_bool_decide; [done|].
    destruct (hash !! _) eqn:Hh; [|done]. cbn in Ht. simplify_eq. by eexists.
  - unfold target_2d in Ht. case_bool_decide; [done|].
    destruct (hash !! _) eqn:Hh; [|done]. cbn in Ht. simplify_eq. by eexists.
Qed.

Lemma assign_loop_rows (off : Z) (buf : list Z) (cv cv' : list (list Z)) :
  assign_loop L hash off buf cv = Ok cv' →
  length cv' = length cv ∧
  ∀ i, length <$> cv' !! i = length <$> cv !! i ∧
       ((∀ a, hash !! a ≠ Some i) → cv' !! i = cv !! i).
Proof.
  revert off cv. induction buf as [|v buf IH]; intros off cv Hrun.
  - cbn in Hrun. by simplify_eq.
  - cbn [assign_loop] in Hrun. destruct (boundary_error L off v); [done|].
    apply IH in Hrun as [Hlen Hrows]. rewrite store_point_writes in Hlen, Hrows.
    destruct (writes_rows v (targets L hash off) cv) as [Hlen1 Hrows1].
    split; [congruence|]. intros i.
    destruct (Hrows i) as [Hl Hsame]. destruct (Hrows1 i) as [Hl1 Hsame1].
    split; [congruence|]. intros Hno. rewrite Hsame, Hsame1; [done| |done].
    intros t Ht ->. destruct (targets_local _ _ Ht) as [a Ha]. by apply (Hno a).
Qed.

(** X3: [read_corners] keeps the shape of [cvalues], and the rows of the cells
    that the dictionary does not name. *)
Theorem read_corners_frame (nxyz : Z * Z * Z) (fp buf : list Z) (cv0 cv : list (list Z)) :
  (Z.to_nat (ncorners L) ≤ length fp)%nat →
  read_corners L hash nxyz fp buf cv0 = Some (Done cv) →
  length cv = length cv0 ∧
  ∀ i, length <$> cv !! i = length <$> cv0 !! i ∧
       ((∀ a, hash !! a ≠ Some i) → cv !! i = cv0 !! i).
Proof.
  intros Hlen Hrun. apply read_corners_Done in Hrun; [|done].
  by apply assign_loop_rows in Hrun.
Qed.

End reader_props.

(** *** [assign_types] and [read_types] *)

Section types_props.
Import Ingest Reader.
Local Open Scope Z_scope.
Variable L : Lattice.
Variable hash : gmap Z nat.

Lemma types_loop_app (off : Z) (a b : list Z) (sv : list Z) :
  types_loop hash off (a ++ b) sv
  = types_loop hash off a sv ≫= types_loop hash (off + Z.of_nat (length a)) b.
Proof.
  revert off sv. induction a as [|v a IH]; intros off sv.
  - cbn. by rewrite Z.add_0_r.
  - cbn [app types_loop length].
    replace (off + Z.of_nat (S (length a))) with (off + 1 + Z.of_nat (length a)) by lia.
    destruct (hash !! off); [case_bool_decide|]; try done; apply IH.
Qed.

Lemma types_loop_length (off : Z) (buf sv sv' : list Z) :
  types_loop hash off buf sv = Ok sv' → length sv' = length sv.
Proof.
  revert off sv. induction buf as [|v buf IH]; intros off sv Hrun.
  - cbn in Hrun. by simplify_eq.
  - cbn [types_loop] in Hrun. destruct (hash !! off).
    + case_bool_decide; [|done]. apply IH in Hrun. by rewrite length_insert in Hrun.
    + by apply IH in Hrun.
Qed.

Lemma types_loop_other (off : Z) (buf sv sv' : list Z) (i : nat) :
  types_loop hash off buf sv = Ok sv' →
  (∀ j : nat, (j < length buf)%nat → hash !! (off + Z.of_nat j) ≠ Some i) →
  sv' !! i = sv !! i.
Proof.
  revert off sv. induction buf as [|v buf IH]; intros off sv Hrun Hno.
  - cbn in Hrun. by simplify_eq.
  - assert (hash !! off ≠ Some i) as H0.
    { specialize (Hno 0%nat). rewrite Z.add_0_r in Hno. apply Hno. cbn. lia. }
    assert (∀ j : nat, (j < length buf)%nat → hash !! (off + 1 + Z.of_nat j) ≠ Some i) as Hno'.
    { intros j Hj. replace (off + 1 + Z.of_nat j) with (off + Z.of_nat (S j)) by lia.
      apply Hno. cbn. lia. }
    cbn [types_loop] in Hrun. destruct (hash !! off) as [i'|].
    + case_bool_decide; [|done]. rewrite (IH _ _ Hrun Hno').
      apply list_lookup_insert_ne. congruence.
    + by apply (IH _ _ Hrun).
Qed.

Lemma types_loop_at (off : Z) (buf sv sv' : list Z) (i j : nat) (v : Z) :
  types_loop hash off buf sv = Ok sv' →
  buf !! j = Some v → hash !! (off + Z.of_nat j) = Some i →
  (∀ j' : nat, (j' < length buf)%nat → j' ≠ j → hash !! (off + Z.of_nat j') ≠ Some i) →
  sv' !! i = Some v.
Proof.
  intros Hrun Hj Hh Hno.
  pose proof (lookup_lt_Some _ _ _ Hj) as Hlt.
  rewrite <- (take_drop_middle _ _ _ Hj) in Hrun.
  rewrite types_loop_app in Hrun.
  destruct (types_loop hash off (take j buf) sv) as [sv1|] eqn:H1; [|done].
  cbn [mbind result_bind] in Hrun. rewrite length_take_le in Hrun by lia.
  cbn [types_loop] in Hrun. rewrite Hh in Hrun.
  case_bool_decide; [|done].
  rewrite (types_loop_other _ _ _ _ i Hrun).
  - by apply list_lookup_insert_eq.
  - intros j' Hj'. rewrite length_drop in Hj'.
    replace (off + Z.of_nat j + 1 + Z.of_nat j') with (off + Z.of_nat (S j + j')) by lia.
    apply Hno; lia.
Qed.

Lemma types_loop_Err (off : Z) (buf sv : list Z) (e : error) :
  types_loop hash off buf sv = Err e ↔
  e = OutOfBounds ∧
  ∃ (j : nat) (i : nat), (j < length buf)%nat ∧ hash !! (off + Z.of_nat j) = Some i ∧
                         (length sv ≤ i)%nat.
Proof.
  revert off sv. induction buf as [|v buf IH]; intros off sv.
  - cbn. split; [done|]. intros (_ & j & i & ? & _). lia.
  - cbn [types_loop]. destruct (hash !! off) as [i0|] eqn:H0.
    + case_bool_decide as Hi0.
      * rewrite IH. rewrite length_insert. split; intros (-> & j & i & Hj & Hh & Hi); (split; [done|]).
        -- exists (S j), i. replace (off + Z.of_nat (S j)) with (off + 1 + Z.of_nat j) by lia.
           cbn. split; [lia|done].
        -- destruct j as [|j].
           ++ rewrite Z.add_0_r in Hh. simplify_eq. lia.
           ++ exists j, i. replace (off + 1 + Z.of_nat j) with (off + Z.of_nat (S j)) by lia.
              cbn in Hj. split; [lia|done].
      * split.
        -- intros [= <-]. split; [done|]. exists 0%nat, i0. rewrite Z.add_0_r. cbn. split; [lia|]. split; [done|lia].
        -- by intros [-> _].
    + rewrite IH. split; intros (-> & j & i & Hj & Hh & Hi); (split; [done|]).
      * exists (S j), i. replace (off + Z.of_nat (S j)) with (off + 1 + Z.of_nat j) by lia.
        cbn. split; [lia|done].
      * destruct j as [|j].
        -- rewrite Z.add_0_r in Hh. congruence.
        -- exists j, i. replace (off + 1 + Z.of_nat j) with (off + Z.of_nat (S j)) by lia.
           cbn in Hj. split; [lia|done].
Qed.

Lemma assign_types_whole (n : nat) (off : Z) (buf sv : list Z) :
  assign_types hash n off buf sv = types_loop hash off (take n buf) sv.
Proof. done. Qed.

Lemma read_types_chunks (fp buf sv : list Z) :
  (Z.to_nat (ntypes L) ≤ length fp)%nat →
  read_chunks (assign_types hash) (ntypes L) (Z.to_nat (ntypes L)) 0 buf fp sv
  = Some (types_loop hash 0 (take (Z.to_nat (ntypes L)) fp) sv).
Proof.
  intros Hlen.
  rewrite (read_chunks_whole _ (types_loop hash));
    rewrite ?Z.sub_0_r; try done; try lia; auto using types_loop_app.
Qed.

(** X4: [read_types] on a file whose header fits the block: the entry
    [svalues[icell]] of a local cell holds the value of the file at the
    index of the cell in the block, the entries of the other cells are as
    they were and the array has kept its length.  A header that does not
    fit aborts the run. *)
Theorem types_reach_their_cells (n0 n1 n2 : Z) (fp buf sv0 : list Z) :
  hash_injective hash →
  (∀ a i, hash !! a = Some i → (i < length sv0)%nat) →
  (Z.to_nat (ntypes L) ≤ length fp)%nat →
  if decide (n0 = nx L ∧ n1 = ny L ∧ (dimension L = 3 → n2 = nz L))
  then
    ∃ sv, read_types L hash (n0, n1, n2) fp buf sv0 = Some (Done sv) ∧
          length sv = length sv0 ∧
          ∀ icell : nat,
            (∀ a, 0 ≤ a < ntypes L → hash !! a = Some icell →
                  is_Some (fp !! Z.to_nat a) ∧ sv !! icell = fp !! Z.to_nat a) ∧
            ((∀ a, 0 ≤ a < ntypes L → hash !! a ≠ Some icell) →
             sv !! icell = sv0 !! icell)
  else read_types L hash (n0, n1, n2) fp buf sv0 = Some (Abort TypeFileMismatch).
Proof.
  intros Hinj Hbound Hlen. unfold read_types.
  rewrite read_types_chunks by done. cbn [fmap option_fmap option_map].
  case_decide as Hhdr.
  2:{ repeat case_bool_decide; cbn [andb]; try done; exfalso; tauto. }
  replace (if bool_decide (dimension L = 3) && bool_decide (n2 ≠ nz L) then true
           else if bool_decide (n1 ≠ ny L) then true
                else if bool_decide (n0 ≠ nx L) then true else false)
    with false by (repeat case_bool_decide; cbn [andb]; try done; exfalso; tauto).
  set (file := take (Z.to_nat (ntypes L)) fp).
  assert (length file = Z.to_nat (ntypes L)) as Hfile by (unfold file; rewrite length_take; lia).
  destruct (types_loop hash 0 file sv0) as [sv|e] eqn:Hrun.
  - exists sv. split; [done|]. split; [by eapply types_loop_length|].
    intros icell. split.
    + intros a Ha Hh.
      destruct (lookup_lt_is_Some_2 file (Z.to_nat a)) as [v Hv]; [lia|].
      assert (fp !! Z.to_nat a = Some v) as Hfp.
      { unfold file in Hv. by apply lookup_take_Some in Hv as [? _]. }
      rewrite Hfp. split; [by eexists|].
      apply (types_loop_at 0 file sv0 sv icell (Z.to_nat a) v Hrun Hv).
      * by rewrite Z.add_0_l, Z2Nat.id by lia.
      * intros j' Hj' Hne Hh'. rewrite Z.add_0_l in Hh'.
        apply Hne. pose proof (Hinj _ _ _ Hh Hh'). lia.
    + intros Hno. apply (types_loop_other 0 file _ _ _ Hrun).
      intros j Hj. rewrite Z.add_0_l. apply Hno. lia.
  - apply types_loop_Err in Hrun as (-> & j & i & Hj & Hh & Hi).
    apply Hbound in Hh. lia.
Qed.

End types_props.


(** *** [create_hash] *)

Section hash_props.
Import Ingest Reader.
Local Open Scope Z_scope.

Lemma to_int_floor (q : Qc) (i : Z) :
  0 ≤ i ≤ INT_MAX → (Qc_of_Z i ≤ q)%Qc → (q < Qc_of_Z (i + 1))%Qc →
  to_int (Fin q) = Some i.
Proof.
  intros Hi Hle Hlt. unfold to_int.
  unfold Qcle, Qclt, Qle, Qlt in *. cbn in Hle, Hlt.
  assert (Qnum q `quot` Z.pos (Qden q) = i) as ->.
  { rewrite Z.quot_div_nonneg by lia. symmetry.
    apply (Z.div_unique _ _ _ (Qnum q - i * Z.pos (Qden q))); lia. }
  rewrite bool_decide_true; [done|]. unfold INT_MAX in *. lia.
Qed.

Lemma round_to_position (l c s : Qc) (i : Z) :
  (0 < s)%Qc → (2 * (c + Qc_of_Z i * s - l) < s)%Qc → (2 * (l - (c + Qc_of_Z i * s)) < s)%Qc →
  (Qc_of_Z i ≤ (l + - c) / s + Q2Qc (1 # 2))%Qc ∧
  ((l + - c) / s + Q2Qc (1 # 2) < Qc_of_Z (i + 1))%Qc.
Proof.
  intros Hs H1 H2.
  set (u := ((l + - c) / s)%Qc).
  assert (u * s = l + - c)%Qc as Hu.
  { unfold u. rewrite Qcmult_comm. apply Qcmult_div_r. intros ->. by apply Qclt_not_eq in Hs. }
  rewrite Z2Qc_inj_add.
  revert Hs H1 H2 Hu. generalize u (Qc_of_Z i). clear. intros u k Hs H1 H2 Hu.
  assert (this (u * s)%Qc == this (l + - c)%Qc)%Q as Hq by by rewrite Hu.
  clear Hu. revert Hq.
  unfold Qclt, Qcle, Qcminus, Qcopp, Qcplus, Qcmult, Q2Qc, Qc_of_Z in *; cbn [this] in *.
  rewrite !Qred_correct in *. intros Hq.
  repeat match goal with
         | H : context [Qred ?q] |- _ => rewrite (Qred_correct q) in H
         | |- context [Qred ?q] => rewrite (Qred_correct q)
         end.
  split.
  - destruct (Qlt_le_dec (u + (1 # 2)) k) as [Hlt|Hle]; [|done].
    pose proof (Qmult_lt_0_compat (k - u - (1 # 2)) s ltac:(lra) Hs). lra.
  - destruct (Qlt_le_dec (u + (1 # 2)) (k + inject_Z 1)) as [Hlt|Hle]; [done|].
    assert (0 <= (u + (1 # 2) - k - inject_Z 1) * s)%Q as Hp.
    { apply Qmult_le_0_compat; lra. }
    change (inject_Z 1) with 1%Q in *. lra.
Qed.

Variable L : Lattice.
Variable corner xyzsize : point.
Variable groupbit : Z.

Lemma block_coord_sits (c : GroupCell) (cx cy cz : Z) :
  sits_at corner xyzsize c cx cy cz →
  0 ≤ cx ≤ INT_MAX → 0 ≤ cy ≤ INT_MAX → 0 ≤ cz ≤ INT_MAX →
  block_coord corner xyzsize 0 c = Some cx ∧
  block_coord corner xyzsize 1 c = Some cy ∧
  block_coord corner xyzsize 2 c = Some cz.
Proof.
  intros (l0 & l1 & l2 & c0 & c1 & c2 & s0 & s1 & s2 & Hl & Hc & Hs & (Hs0 & Hs1 & Hs2)
          & [Hx1 Hx2] & [Hy1 Hy2] & [Hz1 Hz2]) Hcx Hcy Hcz.
  unfold block_coord. rewrite Hl, Hc, Hs. cbn [Cleanup.coord px py pz].
  unfold sub, neg, add, div.
  rewrite !decide_False by (intros ->; by eapply Qclt_not_eq).
  repeat split; apply to_int_floor; try done; by apply round_to_position.
Qed.

Lemma create_hash_snoc (cells : list GroupCell) (c : GroupCell) :
  create_hash L corner xyzsize groupbit (cells ++ [c])
  = hash_step L corner xyzsize groupbit
      (create_hash L corner xyzsize groupbit cells) (length cells, c).
Proof.
  unfold create_hash. rewrite imap_app, foldl_app. cbn. by rewrite Nat.add_0_r.
Qed.

End hash_props.


Section command_props.
Import Command.
Import String.StringSyntax.
Local Open Scope string_scope.
Local Open Scope Z_scope.
Variable find_fix : string → Z.
Variable fix_style : Z → string.
Variable fix_igroup : Z → Z.

Lemma process_loop_pairs (n : nat) (g : Z) (iarg : nat) (arg : list string) (o o' : Options) :
  (length arg ≤ n)%nat →
  process_loop find_fix fix_style fix_igroup g iarg arg o = Done o' →
  ∃ pairs,
    arg = flatten pairs ∧ Forall (accepted find_fix fix_style fix_igroup g) pairs ∧
    typefile o' = from_option Some (typefile o) (last_value "type" pairs) ∧
    storeID o' = from_option Some (storeID o) (last_value "store" pairs) ∧
    storeflag o' = (if last_place "store" pairs is Some _ then true else storeflag o) ∧
    sgrouparg o' = from_option (fun k => iarg + 2 * k + 1)%nat (sgrouparg o)
                     (last_place "group" pairs).
Proof.
  revert iarg arg o. induction n as [|n IH]; intros iarg arg o Hlen Hrun.
  { destruct arg; [|cbn in Hlen; lia]. cbn in Hrun. simplify_eq. by exists []. }
  destruct arg as [|kw [|v rest]].
  - cbn in Hrun. simplify_eq. by exists [].
  - cbn in Hrun. by repeat destruct (String.eqb _ _).
  - cbn [process_loop] in Hrun. cbn in Hlen.
    destruct (String.eqb kw "group") eqn:Eg; [|destruct (String.eqb kw "type") eqn:Et;
      [|destruct (String.eqb kw "store") eqn:Es; [|done]]].
    + apply String.eqb_eq in Eg as ->.
      apply IH in Hrun as (pairs & -> & Hkw & Ht & Hs & Hf & Hg); [|lia].
      exists (("group", v) :: pairs). cbn in *.
      split; [done|]. split; [constructor; [by split; [left|]|done]|].
      rewrite Ht, Hs, Hf, Hg.
      destruct (last_value "type" pairs), (last_value "store" pairs),
        (last_place "store" pairs), (last_place "group" pairs); cbn; repeat split; try done; lia.
    + apply String.eqb_eq in Et as ->.
      apply IH in Hrun as (pairs & -> & Hkw & Ht & Hs & Hf & Hg); [|lia].
      exists (("type", v) :: pairs). cbn in *.
      split; [done|]. split; [constructor; [by split; [right; left|]|done]|].
      rewrite Ht, Hs, Hf, Hg.
      destruct (last_value "type" pairs), (last_value "store" pairs),
        (last_place "store" pairs), (last_place "group" pairs); cbn; repeat split; try done; lia.
    + apply String.eqb_eq in Es as ->.
      case_bool_decide as Hfix; [done|].
      destruct (String.eqb (fix_style (find_fix v)) "ablate") eqn:Hstyle; [|done].
      cbn [negb] in Hrun. case_bool_decide as Hgrp; [done|].
      apply String.eqb_eq in Hstyle.
      apply IH in Hrun as (pairs & -> & Hkw & Ht & Hs & Hf & Hg); [|lia].
      exists (("store", v) :: pairs). cbn in *.
      split; [done|].
      split; [constructor; [split; [by right; right|]; intros _; cbn; split; [lia|];
                            split; [done|]; by destruct (decide (g = fix_igroup (find_fix v)))
                           |done]|].
      rewrite Ht, Hs, Hf, Hg.
      destruct (last_value "type" pairs), (last_value "store" pairs),
        (last_place "store" pairs), (last_place "group" pairs); cbn; repeat split; try done; lia.
Qed.


Lemma process_args_Done (g : Z) (arg : list string) (o : Options) :
  process_args find_fix fix_style fix_igroup g arg = Done o →
  ∃ pairs,
    arg = flatten pairs ∧ Forall (accepted find_fix fix_style fix_igroup g) pairs ∧
    typefile o = last_value "type" pairs ∧
    storeID o = last_value "store" pairs ∧
    storeflag o = (if last_place "store" pairs is Some _ then true else false) ∧
    sgrouparg o = from_option (fun k => 2 * k + 1)%nat 0%nat (last_place "group" pairs).
Proof.
  intros Hrun.
  apply (process_loop_pairs (length arg)) in Hrun as (pairs & ? & ? & Ht & Hs & ? & ?);
    [|done].
  exists pairs. cbn in *. rewrite Ht, Hs.
  split; [done|]. split; [done|].
  split; [by destruct (last_value "type" pairs)|].
  split; [by destruct (last_value "store" pairs)|]. done.
Qed.

Lemma process_loop_accepts (g : Z) (pairs : list (string * string)) (iarg : nat)
    (o : Options) :
  Forall (accepted find_fix fix_style fix_igroup g) pairs →
  ∃ o', process_loop find_fix fix_style fix_igroup g iarg (flatten pairs) o = Done o'.
Proof.
  intros Hall. revert iarg o. induction Hall as [|[kw v] pairs [Hkw Hst] _ IH]; intros iarg o.
  - by eexists.
  - cbn [flatten mbind list_bind app fst snd] in *.
    change (foldr _ _ _) with (flatten pairs).
    cbn [process_loop].
    destruct Hkw as [->|[->| ->]]; cbn [String.eqb Ascii.eqb Bool.eqb andb]; [apply IH..|].
    destruct Hst as (Hfix & Hstyle & Hgrp); [done|].
    rewrite bool_decide_false by lia. rewrite Hstyle.
    cbn [String.eqb Ascii.eqb Bool.eqb andb negb].
    rewrite bool_decide_false by (by intros ?). apply IH.
Qed.

(** X6: The option lists [process_args] accepts are exactly the lists of
    pairs of a keyword ([group], [type], [store]) and a value in which
    every [store] names a fix [ablate] of the grid group; each member it
    sets comes from the last pair with its keyword, and [sgrouparg] is the
    place of the value of the last [group] pair in the list of options. *)
Theorem process_args_pairs (g : Z) (arg : list string) :
  (∀ o, process_args find_fix fix_style fix_igroup g arg = Done o →
        ∃ pairs,
          arg = flatten pairs ∧ Forall (accepted find_fix fix_style fix_igroup g) pairs ∧
          typefile o = last_value "type" pairs ∧
          storeID o = last_value "store" pairs ∧
          storeflag o = (if last_place "store" pairs is Some _ then true else false) ∧
          sgrouparg o = from_option (fun k => 2 * k + 1)%nat 0%nat
                          (last_place "group" pairs)) ∧
  (∀ pairs,
     arg = flatten pairs →
     Forall (accepted find_fix fix_style fix_igroup g) pairs →
     ∃ o, process_args find_fix fix_style fix_igroup g arg = Done o).
Proof.
  split.
  - intros o Hrun. by apply (process_args_Done g).
  - intros pairs -> Hall. by apply process_loop_accepts.
Qed.

Lemma last_place_lookup (kw : string) (pairs : list (string * string)) (k : nat) :
  last_place kw pairs = Some k → ∃ v, pairs !! k = Some (kw, v).
Proof.
  revert k. induction pairs as [|[kw' v] pairs IH]; intros k; [done|].
  cbn. destruct (last_place kw pairs) as [k'|].
  - intros [= <-]. by apply IH.
  - destruct (String.eqb kw' kw) eqn:E; [|done]. intros [= <-].
    apply String.eqb_eq in E as ->. by exists v.
Qed.

Lemma flatten_lookup (pairs : list (string * string)) (k : nat) (kw v : string) :
  pairs !! k = Some (kw, v) →
  flatten pairs !! (2 * k)%nat = Some kw ∧ flatten pairs !! (2 * k + 1)%nat = Some v.
Proof.
  revert k. induction pairs as [|p pairs IH]; intros k; [done|].
  destruct k as [|k]; cbn.
  - by intros [= ->].
  - intros Hk. apply IH in Hk as [H1 H2].
    replace (k + S (k + 0))%nat with (S (2 * k)) by lia. cbn.
    split; [done|]. by replace (k + (k + 0) + 1)%nat with (2 * k + 1)%nat by lia.
Qed.

Section checks.
Variable grid_exist surf_implicit surf_exist particle_exist axisymmetric : bool.
Variable dimension : Z.
Variable find_group : string → Z.
Variable inumeric : string → Z.
Variable numeric : string → double.
Variable check_uniform_group : Z → Z * Z * Z.

Let command :=
  command grid_exist surf_implicit surf_exist particle_exist axisymmetric dimension
    find_group inumeric numeric find_fix fix_style fix_igroup check_uniform_group.

Lemma command_Done (arg : list string) (s : Settings) :
  command arg = Some (Done s) →
  ∃ a0 a1 a2 a3 a4 a5 rest ithresh,
    arg = a0 :: a1 :: a2 :: a3 :: a4 :: a5 :: rest ∧
    0 ≤ find_group a0 ∧
    ¬ (dimension = 2 ∧ inumeric a3 ≠ 1) ∧
    (numeric a5 <=? zero)%D = false ∧ (numeric a5 >=? of_int 255)%D = false ∧
    Reader.to_int (numeric a5) = Some ithresh ∧
    (of_int ithresh =? numeric a5)%D = false ∧
    process_args find_fix fix_style fix_igroup (find_group a0) rest = Done (options s) ∧
    check_uniform_group (find_group a0) = (inumeric a1, inumeric a2, inumeric a3) ∧
    s = mkSettings (find_group a0)
          (Ingest.Build_Lattice dimension (inumeric a1) (inumeric a2) (inumeric a3))
          a4 (numeric a5) (options s).
Proof.
  unfold command, Command.command. intros Hrun.
  destruct grid_exist, surf_implicit, surf_exist, particle_exist, axisymmetric;
    cbn [negb] in Hrun; try done.
  destruct arg as [|a0 [|a1 [|a2 [|a3 [|a4 [|a5 rest]]]]]]; try done.
  case_bool_decide as Hg; [done|].
  destruct (bool_decide (dimension = 2) && bool_decide (inumeric a3 ≠ 1)) eqn:Hd; [done|].
  destruct ((numeric a5 <=? zero)%D || (numeric a5 >=? of_int 255)%D) eqn:Ht; [done|].
  apply orb_false_elim in Ht as [Ht1 Ht2].
  destruct (Reader.to_int (numeric a5)) as [ithresh|] eqn:Hi; [|done].
  cbn [mbind option_bind] in Hrun.
  destruct (of_int ithresh =? numeric a5)%D eqn:He; [done|].
  destruct (process_args _ _ _ _ rest) as [o|] eqn:Hp; [|done].
  destruct (check_uniform_group _) as [[n0 n1] n2] eqn:Hc.
  case_bool_decide as Hb; [done|]. simplify_eq. cbn.
  exists a0, a1, a2, a3, a4, a5, rest, ithresh.
  split; [done|]. split; [lia|]. split.
  { intros [H2 H3]. by rewrite (bool_decide_true _ H2), (bool_decide_true _ H3) in Hd. }
  repeat (split; [done|]). split; [|done].
  rewrite Hc. replace n0 with (inumeric a1) by lia. replace n1 with (inumeric a2) by lia.
  by replace n2 with (inumeric a3) by lia.
Qed.

(** X7: A threshold that [command] accepts is a finite value strictly between
    0 and 255 that is no integer, so that no corner value equals it and
    the test [v <= thresh] of the marching routines is [v < thresh]; and
    a 2-D run has [nz = 1]. *)
Theorem accepted_threshold (arg : list string) (s : Settings) :
  command arg = Some (Done s) →
  (∃ q : Qc, thresh s = Fin q ∧ (0 < q)%Qc ∧ (q < Qc_of_Z 255)%Qc ∧
             ∀ v : Z, Qc_of_Z v ≠ q) ∧
  (∀ v : Z, (of_int v <=? thresh s)%D = (of_int v <? thresh s)%D) ∧
  (dimension = 2 → Ingest.nz (lattice s) = 1).
Proof.
  intros (a0 & a1 & a2 & a3 & a4 & a5 & rest & ithresh & -> & Hg & Hd & Ht1 & Ht2 & Hi & He
          & Hp & Hc & ->)%command_Done.
  cbn [thresh lattice Ingest.nz].
  destruct (numeric a5) as [q| | |] eqn:Hq; try done.
  assert (∀ v : Z, Qc_of_Z v ≠ q) as Hint.
  { intros v <-. unfold Reader.to_int in Hi. cbn in Hi. rewrite Z.quot_1_r in Hi.
    case_bool_decide; [|done]. simplify_eq.
    unfold eqb, of_int in He. by rewrite bool_decide_true in He. }
  split; [|split].
  - exists q. unfold leb, geb, zero, of_int in *.
    apply bool_decide_eq_false in Ht1, Ht2.
    split; [done|]. split; [by apply Qcnot_le_lt|]. split; [by apply Qcnot_le_lt|done].
  - intros v. unfold leb, ltb, of_int. apply bool_decide_ext. split.
    + intros Hle. apply Qcle_lt_or_eq in Hle as [?|Heq]; [done|]. by apply Hint in Heq.
    + apply Qclt_le_weak.
  - intros Hdim. destruct (decide (inumeric a3 = 1)); [done|]. by destruct Hd.
Qed.

(** X8: The surface group of a [group] option: [command] reads its name from
    its own argument list at the place that [process_args] counted in the
    list of options, six arguments further on; for an option list whose
    last [group] pair is pair [k], the value of the pair is argument
    [6 + 2k + 1] of the command and the name read is argument [2k + 1]. *)
Theorem group_name_place (arg : list string) (s : Settings) :
  command arg = Some (Done s) →
  ∃ pairs,
    drop 6 arg = flatten pairs ∧
    match last_place "group" pairs with
    | None => sgroup_name arg (options s) = None
    | Some k =>
        ∃ v, pairs !! k = Some ("group", v) ∧
             arg !! (6 + (2 * k + 1))%nat = Some v ∧
             sgroup_name arg (options s) = arg !! (2 * k + 1)%nat
    end.
Proof.
  intros (a0 & a1 & a2 & a3 & a4 & a5 & rest & ithresh & -> & _ & _ & _ & _ & _ & _
          & Hp & _ & _)%command_Done.
  apply process_args_Done in Hp as (pairs & -> & _ & _ & _ & _ & Hg).
  exists pairs. split; [done|]. unfold sgroup_name. rewrite Hg.
  destruct (last_place "group" pairs) as [k|] eqn:Hk; cbn [from_option].
  - destruct (last_place_lookup _ _ _ Hk) as [v Hv]. exists v. split; [done|].
    split; [|by rewrite bool_decide_false by lia].
    apply (flatten_lookup _ _ _ _ Hv).
  - by rewrite bool_decide_true.
Qed.

End checks.
End command_props.

Section square_edges.
Import Squares SquareEdges.
Local Open Scope Z_scope.

Section cell.
Variable thresh : double.
Variable s : Square.

Local Ltac use_edges prs :=
  exists prs; split; [reflexivity|]; split; [reflexivity|];
  split; [by apply (bool_decide_unpack _); vm_compute|];
  intros []; unfold crossed, above; cbn [edge_corners fst snd corner_value];
  repeat match goal with H : leb _ _ = _ |- _ => rewrite H end; cbn [negb xorb];
  by apply (bool_decide_unpack _); vm_compute.

Local Ltac find_edges :=
  first [ use_edges (@nil (edge * edge))
        | use_edges [(ELeft, EBottom)] | use_edges [(EBottom, ERight)]
        | use_edges [(ELeft, ERight)] | use_edges [(ERight, ETop)]
        | use_edges [(ELeft, ETop); (ERight, EBottom)]
        | use_edges [(ELeft, EBottom); (ERight, ETop)]
        | use_edges [(EBottom, ETop)] | use_edges [(ELeft, ETop)]
        | use_edges [(ETop, ELeft)] | use_edges [(ETop, EBottom)]
        | use_edges [(EBottom, ELeft); (ETop, ERight)]
        | use_edges [(ETop, ELeft); (EBottom, ERight)]
        | use_edges [(ETop, ERight)] | use_edges [(ERight, ELeft)]
        | use_edges [(ERight, EBottom)] | use_edges [(EBottom, ELeft)] ].

(** Each case of the [switch] joins edges in pairs; the edges it uses are
    the edges whose ends differ in sign, each once. *)
Lemma squares_pairs :
  ∃ prs : list (edge * edge),
    switch_which thresh s
    = (length prs, (switch_which thresh s).1.2, edge_point thresh s <$> edges_of prs) ∧
    marching_squares_cell thresh s
    = (fun p => (edge_point thresh s (fst p), edge_point thresh s (snd p))) <$> prs ∧
    NoDup (edges_of prs) ∧ ∀ e, e ∈ edges_of prs ↔ crossed thresh s e = true.
Proof.
  unfold marching_squares_cell, switch_which, which, bit0, bit1, bit2, bit3, bit_of.
  destruct (of_int (v00 s) <=? thresh)%D eqn:E00,
    (of_int (v01 s) <=? thresh)%D eqn:E01,
    (of_int (v10 s) <=? thresh)%D eqn:E10,
    (of_int (v11 s) <=? thresh)%D eqn:E11; simpl;
    try destruct (ave s >? thresh)%D; find_edges.
Qed.

(** X10: What the [switch] of [marching_squares] hands on is consistent with
    the signs of the corners: [nsurf] segments, two points for each, and
    the points are those of the cell edges whose two ends differ in sign,
    each edge giving one end of one segment. *)
Theorem squares_join_crossed_edges :
  ∃ prs : list (edge * edge),
    let '(nsurf, _, pt) := switch_which thresh s in
    nsurf = length prs ∧ length pt = (2 * nsurf)%nat ∧
    pt = edge_point thresh s <$> edges_of prs ∧
    marching_squares_cell thresh s
    = (fun p => (edge_point thresh s (fst p), edge_point thresh s (snd p))) <$> prs ∧
    NoDup (edges_of prs) ∧
    (∀ e, e ∈ edges_of prs ↔ crossed thresh s e = true) ∧
    (nsurf = 0%nat ↔ ∀ e, crossed thresh s e = false).
Proof.
  destruct squares_pairs as (prs & Hsw & Hsegs & Hnd & Hin).
  exists prs. rewrite Hsw.
  split; [done|]. split.
  { rewrite length_fmap. unfold edges_of. clear. induction prs as [|p prs IH]; [done|].
    cbn in *. lia. }
  repeat (split; [done|]). split.
  - intros Hlen e. destruct prs; [|done].
    destruct (crossed thresh s e) eqn:Hc; [|done]. apply Hin in Hc. by apply elem_of_nil in Hc.
  - intros Hno. destruct prs as [|[e e'] prs]; [done|].
    assert (e ∈ edges_of ((e, e') :: prs)) as He by apply list_elem_of_here.
    apply Hin in He. by rewrite Hno in He.
Qed.

End cell.

Lemma edge_point_on_edge (t : Qc) (s : Square) (e : edge) :
  box_ok s → on_edge s e (edge_point (Fin t) s e).
Proof.
  intros (a0 & a1 & b0 & b1 & Hlo & Hhi & H0 & H1).
  destruct e; (split; [reflexivity|]); cbn [edge_point pt_left pt_bottom pt_right pt_top px py];
    rewrite Hlo, Hhi; cbn [fst snd]; (split; [reflexivity|]).
  - destruct (interpolate_between t (v00 s) (v10 s) a1 b1 H1) as (r & -> & Hl & Hh).
    unfold leb. by rewrite !bool_decide_eq_true.
  - destruct (interpolate_between t (v00 s) (v01 s) a0 b0 H0) as (r & -> & Hl & Hh).
    unfold leb. by rewrite !bool_decide_eq_true.
  - destruct (interpolate_between t (v01 s) (v11 s) a1 b1 H1) as (r & -> & Hl & Hh).
    unfold leb. by rewrite !bool_decide_eq_true.
  - destruct (interpolate_between t (v10 s) (v11 s) a0 b0 H0) as (r & -> & Hl & Hh).
    unfold leb. by rewrite !bool_decide_eq_true.
Qed.

(** X11: Every segment of a cell joins two distinct edges of the cell whose
    ends differ in sign, and its two points lie on these edges of the box
    of the cell, in the plane z = 0. *)
Theorem squares_points_on_box (t : Qc) (s : Square) (seg : point * point) :
  box_ok s → seg ∈ marching_squares_cell (Fin t) s →
  ∃ e e', e ≠ e' ∧ crossed (Fin t) s e = true ∧ crossed (Fin t) s e' = true ∧
          on_edge s e (fst seg) ∧ on_edge s e' (snd seg).
Proof.
  intros Hbox Hseg.
  destruct (squares_pairs (Fin t) s) as (prs & _ & Hsegs & Hnd & Hin).
  rewrite Hsegs in Hseg. apply list_elem_of_fmap in Hseg as ([e e'] & -> & Hp).
  exists e, e'. cbn [fst snd].
  apply list_elem_of_split in Hp as (l1 & l2 & ->).
  unfold edges_of in Hnd, Hin. rewrite bind_app in Hnd, Hin. cbn in Hnd, Hin.
  apply list.NoDup_app in Hnd as (_ & _ & Hnd). apply list.NoDup_cons in Hnd as [Hne _].
  split; [intros ->; apply Hne, list_elem_of_here|].
  split; [apply Hin; rewrite elem_of_app; right; apply list_elem_of_here|].
  split; [apply Hin; rewrite elem_of_app; right; apply list_elem_of_further, list_elem_of_here|].
  split; by apply edge_point_on_edge.
Qed.

End square_edges.

Section interpolate_more.
Local Open Scope Qc_scope.

Lemma quotient_bounds (w d n m : Qc) :
  w * d = n → (0 < d ∧ 0 ≤ n ∧ n ≤ m * d) ∨ (d < 0 ∧ n ≤ 0 ∧ m * d ≤ n) →
  0 ≤ w ∧ w ≤ m.
Proof.
  intros Hw Hcase.
  assert (this (w * d) == this n)%Q as Hq by by rewrite Hw.
  clear Hw. revert Hq Hcase.
  unfold Qclt, Qcle, Qcminus, Qcopp, Qcplus, Qcmult, Q2Qc; cbn [this].
  rewrite !Qred_correct. intros Hq Hcase.
  change (this 0) with 0%Q in *.
  destruct Hcase as [(Hd & Hn & Hm)|(Hd & Hn & Hm)]; split.
  - destruct (Qlt_le_dec w 0) as [Hlt|]; [|done].
    pose proof (Qmult_lt_0_compat (- w) d ltac:(lra) Hd). lra.
  - destruct (Qlt_le_dec m w) as [Hlt|]; [|done].
    pose proof (Qmult_lt_0_compat (w - m) d ltac:(lra) Hd). lra.
  - destruct (Qlt_le_dec w 0) as [Hlt|]; [|done].
    pose proof (Qmult_lt_0_compat (- w) (- d) ltac:(lra) ltac:(lra)). lra.
  - destruct (Qlt_le_dec m w) as [Hlt|]; [|done].
    pose proof (Qmult_lt_0_compat (w - m) (- d) ltac:(lra) ltac:(lra)). lra.
Qed.

End interpolate_more.

Section cube_tests.
Import Cubes CubeTests.
Local Open Scope Z_scope.

Lemma sign_test_flip (s : Z) (At Bt Ct Dt : double) :
  s ≠ 0 → sign_test (- s) At Bt Ct Dt = negb (sign_test s At Bt Ct Dt).
Proof.
  intros Hs. unfold sign_test.
  destruct (At >=? zero)%D, (Bt >=? zero)%D, (Ct >=? zero)%D, (Dt >=? zero)%D; cbn [Z.add Pos.add];
    try destruct (_ <? EPSILON)%D; try destruct (_ >=? EPSILON)%D;
    repeat case_bool_decide; try done; lia.
Qed.

Variable thresh : double.
Variable c : Cube.
Variable config subconfig : Z.
Variable test6 test7 test12 : Z → Z → Z.
Variable tiling13_5_1 : Z → Z → Z → Z.

Let test_interior := test_interior thresh c config subconfig test6 test7 test12 tiling13_5_1.
Let reference_edge := reference_edge config subconfig test6 test7 test12 tiling13_5_1.

Local Ltac small_cases z :=
  destruct z as [|z|z]; try done;
  do 5 (try (destruct z as [z|z|]; try done)).

(** X15: The answer of [test_interior] depends on [s] through its sign only,
    and it is the opposite for the opposite sign: [s = 7] asks whether the
    interior is empty, [s = -7] whether it is not. *)
Theorem test_interior_flips (s icase : Z) :
  s ≠ 0 →
  match test_interior s icase with
  | Done b => test_interior (- s) icase = Done (negb b) ∧
              ∀ s', (0 < s ↔ 0 < s') → s' ≠ 0 → test_interior s' icase = Done b
  | Abort e => test_interior (- s) icase = Abort e
  end.
Proof.
  intros Hs. unfold test_interior, CubeTests.test_interior.
  assert (∀ s' A B C D, (0 < s ↔ 0 < s') → s' ≠ 0 → sign_test s' A B C D = sign_test s A B C D) as Hsame.
  { intros s' A B C D Hss Hs'. unfold sign_test.
    destruct (A >=? zero)%D, (B >=? zero)%D, (C >=? zero)%D, (D >=? zero)%D; cbn [Z.add Pos.add];
      try destruct (_ <? EPSILON)%D; try destruct (_ >=? EPSILON)%D;
      repeat case_bool_decide; try done; lia. }
  assert (bool_decide (- s > 0) = negb (bool_decide (s > 0))) as Hneg.
  { repeat case_bool_decide; try done; lia. }
  assert (∀ s', (0 < s ↔ 0 < s') → bool_decide (s' > 0) = bool_decide (s > 0)) as Hpos.
  { intros s' Hss. repeat case_bool_decide; try done; lia. }
  small_cases icase.
  all: try (destruct (edge_case _ _ _) as [[[[At Bt] Ct] Dt]|]; [|done]).
  all: try (destruct (_ || _)).
  all: rewrite ?sign_test_flip, ?Hneg by done; split; [done|];
    intros s' Hss Hs'; by rewrite ?Hsame, ?Hpos by done.
Qed.

(** X16: [test_interior] aborts for a case that is none of 4, 6, 7, 10, 12, 13
    and, in the cases 6, 7, 12 and 13, for a reference edge that is none
    of 0..11; it does not abort otherwise. *)
Theorem test_interior_aborts (s icase : Z) (e : abort) :
  test_interior s icase = Abort e ↔
  (e = InvalidAmbiguousCase ∧ icase ∉ [4; 6; 7; 10; 12; 13]) ∨
  (e = InvalidEdge ∧ icase ∈ [6; 7; 12; 13] ∧ ¬ (0 ≤ reference_edge icase < 12)).
Proof.
  unfold test_interior, CubeTests.test_interior.
  assert (∀ edge, edge_case thresh c edge = None ↔ ¬ (0 ≤ edge < 12)) as Hedge.
  { intros edge. split.
    - intros Hnone Hr. assert (edge = 0 ∨ edge = 1 ∨ edge = 2 ∨ edge = 3 ∨ edge = 4 ∨ edge = 5 ∨
        edge = 6 ∨ edge = 7 ∨ edge = 8 ∨ edge = 9 ∨ edge = 10 ∨ edge = 11) as H by lia.
      destruct H as [->|[->|[->|[->|[->|[->|[->|[->|[->|[->|[->| ->]]]]]]]]]]]; done.
    - intros Hr. small_cases edge; lia. }
  assert (∀ x : Z, x ∈ [4; 6; 7; 10; 12; 13] ↔ x = 4 ∨ x = 6 ∨ x = 7 ∨ x = 10 ∨ x = 12 ∨ x = 13) as Hset6.
  { intros x. rewrite !elem_of_cons, elem_of_nil. tauto. }
  assert (∀ x : Z, x ∈ [6; 7; 12; 13] ↔ x = 6 ∨ x = 7 ∨ x = 12 ∨ x = 13) as Hset4.
  { intros x. rewrite !elem_of_cons, elem_of_nil. tauto. }
  rewrite Hset6, Hset4. unfold reference_edge.
  small_cases icase.
  all: try (destruct (_ || _)).
  all: try (destruct (edge_case thresh c _) as [[[[At Bt] Ct] Dt]|] eqn:He;
            [assert (is_Some (edge_case thresh c
               (CubeTests.reference_edge config subconfig test6 test7 test12 tiling13_5_1 _)))
               as Hsome by (by eexists)
            |apply Hedge in He]).
  all: split; [intros ?; simplify_eq|intros [[-> ?]|(-> & ? & Hn)]]; try done; try lia.
  all: try (left; split; [done|]; lia).
  all: try (right; split; [done|]; split; [lia|done]).
  all: try (exfalso; apply Hedge in Hn; destruct Hsome as [? Hs]; congruence).
Qed.

End cube_tests.

Section compress_props.
Import Cleanup Compress.
Variable grid_hash : gmap Z nat.

Lemma elem_of_insert_inv {A} (l : list A) (k : nat) (x y : A) :
  x ∈ <[k := y]> l → x = y ∨ ∃ j, j ≠ k ∧ l !! j = Some x.
Proof.
  intros (j & Hj)%list_elem_of_lookup.
  apply list_lookup_insert_Some in Hj as [(-> & -> & _)|[Hne Hj]]; [by left|].
  right. exists j. split; [done|done].
Qed.

Lemma NoDup_insert_fresh {A} (l : list A) (k : nat) (y : A) :
  NoDup l → y ∉ l → NoDup (<[k := y]> l).
Proof.
  rewrite !NoDup_alt. intros Hnd Hy i j x Hi Hj.
  apply list_lookup_insert_Some in Hi as [(-> & -> & _)|[Hki Hi]];
    apply list_lookup_insert_Some in Hj as [(He & Hx & _)|[Hkj Hj]]; simplify_eq; try done.
  - exfalso. apply Hy. by eapply list_elem_of_lookup_2.
  - exfalso. apply Hy. by eapply list_elem_of_lookup_2.
  - by eapply Hnd.
Qed.

Lemma descending_weaken (b b' : nat) (l : list nat) :
  descending b l → b ≤ b' → descending b' l.
Proof. destruct l; [done|]. cbn. intros [? ?] ?. split; [lia|done]. Qed.

Lemma descending_below (b : nat) (l : list nat) (d : nat) :
  descending b l → d ∈ l → d < b.
Proof.
  revert b. induction l as [|x l IH]; intros b; [by intros _ ?%elem_of_nil|].
  cbn. intros [Hx Hl] [->|Hd]%elem_of_cons; [done|].
  specialize (IH _ Hl Hd). lia.
Qed.

Lemma same_triangles_trans (t1 t2 t3 : list Tri) (c1 c2 c3 : ChildCell) :
  same_triangles t1 t2 c1 c2 → same_triangles t2 t3 c2 c3 → same_triangles t1 t3 c1 c3.
Proof.
  unfold same_triangles. intros (?&?&?&?&?&?&?&?&?&?) (?&?&?&?&?&?&?&?&?&?).
  repeat split; congruence.
Qed.

Lemma compress_step_moves (tris : list Tri) (n : nat) (cells : list ChildCell)
    (m : nat) (D : list nat) :
  consistent grid_hash tris n cells (m :: D) → descending (n - 1) (m :: D) →
  ∃ tris' cells',
    compress_step grid_hash (Done (tris, n, cells)) m = Done (tris', n - 1, cells') ∧
    length tris' = length tris ∧
    consistent grid_hash tris' (n - 1) cells' D ∧
    Forall2 (same_triangles tris tris') cells cells'.
Proof.
  intros (Hn & Hcells & Hlisted) [Hm HD].
  assert (m ∉ D) as HmD.
  { intros Hin. pose proof (descending_below _ _ _ HD Hin). lia. }
  assert (n - 1 ∉ m :: D) as Hlast.
  { intros [Heq|Hin]%elem_of_cons; [lia|]. pose proof (descending_below _ _ _ HD Hin). lia. }
  destruct (Hlisted (n - 1)) as (tl & icell & cell & Htl & Hid & Hcell & Hin); [lia|done|].
  destruct (Hcells _ _ Hcell) as (Hns & Hnd & Hent).
  destruct (list_find_elem_of (fun x => x = n - 1) (surfs cell) (n - 1) Hin eq_refl)
    as [[k x] Hfind].
  pose proof Hfind as Hfind'. apply list_find_Some in Hfind' as (Hk & Hx & _). subst x.
  assert (k < nsurf cell) as Hkn.
  { apply lookup_lt_Some in Hk. unfold surfs in Hk. rewrite length_take in Hk. lia. }
  set (cell' := set_csurfs (nsurf cell) (<[k := m]> (csurfs cell)) cell).
  assert (surfs cell' = <[k := m]> (surfs cell)) as Hsurfs'.
  { unfold surfs, cell'. cbn. by rewrite take_insert_lt. }
  assert (m ∉ surfs cell) as Hmcell.
  { intros Hmin. destruct (Hent _ Hmin) as (_ & Hno & _). apply Hno, list_elem_of_here. }
  exists (<[m := tl]> tris), (<[icell := cell']> cells).
  split; [|split; [by rewrite length_insert|split]].
  - unfold compress_step. cbn [mbind outcome_bind].
    rewrite bool_decide_false by lia.
    unfold get. rewrite Htl. cbn [raise mbind outcome_bind].
    rewrite bool_decide_false by lia.
    rewrite list_lookup_insert_eq by lia. cbn [raise mbind outcome_bind].
    rewrite Hid, Hcell. cbn [raise mbind outcome_bind].
    rewrite bool_decide_false by lia. by rewrite Hfind.
  - split; [rewrite length_insert; lia|]. split.
    + intros ic c Hc.
      destruct (decide (ic = icell)) as [->|Hne].
      * rewrite list_lookup_insert_eq in Hc by (by eapply lookup_lt_Some). simplify_eq.
        split; [cbn; rewrite length_insert; lia|].
        rewrite Hsurfs'. split; [by apply NoDup_insert_fresh|].
        intros e [->|(j & Hj & He)]%elem_of_insert_inv.
        -- split; [lia|]. split; [done|]. exists tl.
           split; [apply list_lookup_insert_eq; lia|done].
        -- destruct (Hent e) as (He1 & He2 & t & Ht & Hh); [by eapply list_elem_of_lookup_2|].
           assert (e ≠ n - 1).
           { intros ->. apply Hj. by eapply NoDup_lookup. }
           split; [lia|]. split; [intros ?; apply He2; by apply list_elem_of_further|].
           exists t. split; [|done]. rewrite list_lookup_insert_ne; [done|].
           intros ->. apply He2, list_elem_of_here.
      * rewrite list_lookup_insert_ne in Hc by done.
        destruct (Hcells _ _ Hc) as (Hns' & Hnd' & Hent').
        split; [done|]. split; [done|]. intros e He.
        destruct (Hent' e He) as (He1 & He2 & t & Ht & Hh).
        assert (e ≠ n - 1).
        { intros ->. rewrite Htl in Ht. simplify_eq. }
        split; [lia|]. split; [intros ?; apply He2; by apply list_elem_of_further|].
        exists t. split; [|done]. rewrite list_lookup_insert_ne; [done|].
        intros ->. apply He2, list_elem_of_here.
    + intros e He HeD. destruct (decide (e = m)) as [->|Hem].
      * exists tl, icell, cell'. split; [apply list_lookup_insert_eq; lia|].
        split; [done|]. split; [apply list_lookup_insert_eq; by eapply lookup_lt_Some|].
        rewrite Hsurfs'. apply list_elem_of_insert.
        by eapply lookup_lt_Some.
      * destruct (Hlisted e) as (t & ic & c & Ht & Hh & Hc & Hin'); [lia| |].
        { intros [->|?]%elem_of_cons; done. }
        destruct (decide (ic = icell)) as [->|Hne].
        -- simplify_eq. exists t, icell, cell'.
           split; [by rewrite list_lookup_insert_ne|]. split; [done|].
           split; [apply list_lookup_insert_eq; by eapply lookup_lt_Some|].
           rewrite Hsurfs'. apply list_elem_of_lookup in Hin' as (j & Hj).
           apply list_elem_of_lookup. exists j. rewrite list_lookup_insert_ne; [done|].
           intros ->. rewrite Hk in Hj. simplify_eq. lia.
        -- exists t, ic, c. split; [by rewrite list_lookup_insert_ne|]. split; [done|].
           split; [by rewrite list_lookup_insert_ne|done].
  - apply Forall2_same_length_lookup_2; [by rewrite length_insert|].
    intros ic c c' Hc Hc'.
    assert (∀ c0, cells !! ic = Some c0 →
                  (fun e => <[m := tl]> tris !! e) <$> surfs c0 = (fun e => tris !! e) <$> surfs c0)
      as Hsame.
    { intros c0 Hc0. apply list_fmap_ext. intros j e He.
      apply list_lookup_insert_ne. intros <-.
      destruct (Hcells _ _ Hc0) as (_ & _ & Hent0).
      destruct (Hent0 m) as (_ & Hno & _); [by eapply list_elem_of_lookup_2|].
      apply Hno, list_elem_of_here. }
    destruct (decide (ic = icell)) as [->|Hne].
    + rewrite list_lookup_insert_eq in Hc' by (by eapply lookup_lt_Some). simplify_eq.
      unfold same_triangles. repeat (split; [done|]).
      rewrite Hsurfs', list_fmap_insert, (Hsame _ Hcell).
      rewrite list_lookup_insert_eq by lia.
      apply list_insert_id. rewrite list_lookup_fmap, Hk. cbn. by rewrite Htl.
    + rewrite list_lookup_insert_ne in Hc' by done. simplify_eq.
      unfold same_triangles. repeat (split; [done|]). by apply Hsame.
Qed.


Lemma same_triangles_refl (tris : list Tri) (cells : list ChildCell) :
  Forall2 (same_triangles tris tris) cells cells.
Proof. apply Forall2_same_length_lookup_2; [done|]. intros i c c' ? ?. by simplify_eq. Qed.

Lemma compress_loop_moves (D : list nat) (tris : list Tri) (n : nat)
    (cells : list ChildCell) :
  consistent grid_hash tris n cells D → descending (n - 1) D →
  ∃ tris' cells',
    foldl (compress_step grid_hash) (Done (tris, n, cells)) D
    = Done (tris', n - length D, cells') ∧
    length tris' = length tris ∧
    consistent grid_hash tris' (n - length D) cells' [] ∧
    Forall2 (same_triangles tris tris') cells cells'.
Proof.
  revert tris n cells. induction D as [|m D IH]; intros tris n cells Hcons Hdesc.
  - exists tris, cells. cbn. rewrite Nat.sub_0_r.
    split; [done|]. split; [done|]. split; [done|]. apply same_triangles_refl.
  - destruct (compress_step_moves _ _ _ _ _ Hcons Hdesc) as (tris1 & cells1 & Hstep & Hlen & Hcons1 & Hsame1).
    destruct Hdesc as [Hm HD].
    destruct (IH tris1 (n - 1) cells1 Hcons1) as (tris2 & cells2 & Hloop & Hlen2 & Hcons2 & Hsame2).
    { eapply descending_weaken; [done|lia]. }
    exists tris2, cells2. cbn [foldl length]. rewrite Hstep, Hloop.
    replace (n - S (length D)) with (n - 1 - length D) by lia.
    split; [done|]. split; [congruence|]. split; [done|].
    apply Forall2_same_length_lookup_2.
    { apply Forall2_length in Hsame1, Hsame2. congruence. }
    intros i c c2 Hc Hc2.
    destruct (Forall2_lookup_l _ _ _ _ _ Hsame1 Hc) as (c1 & Hc1 & H1).
    pose proof (Forall2_lookup_lr _ _ _ _ _ _ Hsame2 Hc1 Hc2) as H2.
    by eapply same_triangles_trans.
Qed.

Lemma compress_step_Abort (e : abort) (D : list nat) :
  foldl (compress_step grid_hash) (Abort e) D = Abort e.
Proof. by induction D. Qed.

Lemma before_ge (i j : nat) : before i j ↔ j ≤ i.
Proof.
  unfold before, compare_indices. repeat case_bool_decide; split; intros; lia.
Qed.

Lemma qsort_descending (l : list nat) (b : nat) :
  NoDup l → (∀ d, d ∈ l → d < b) →
  descending b (qsort l) ∧ qsort l ≡ₚ l.
Proof.
  intros Hnd Hb.
  assert (qsort l ≡ₚ l) as Hperm by apply sorting.merge_sort_Permutation.
  split; [|done].
  assert (Sorted.StronglySorted before (qsort l)) as Hs.
  { apply sorting.StronglySorted_merge_sort.
    - intros i j k. rewrite !before_ge. lia.
    - intros i j. rewrite !before_ge. lia. }
  assert (NoDup (qsort l)) as Hnd' by by rewrite Hperm.
  assert (∀ d, d ∈ qsort l → d < b) as Hb'.
  { intros d Hd. apply Hb. by rewrite <- Hperm. }
  clear Hperm Hnd Hb. revert b Hb'. induction Hs as [|x k Hk IH Hall]; intros b Hb; [done|].
  apply list.NoDup_cons in Hnd' as [Hx Hnd']. cbn. split.
  - apply Hb, list_elem_of_here.
  - apply IH; [done|]. intros d Hd.
    rewrite List.Forall_forall in Hall. specialize (Hall d).
    rewrite before_ge in Hall.
    assert (d ≤ x) by (apply Hall; by apply list_elem_of_In).
    assert (d ≠ x) by (by intros ->). lia.
Qed.

(** X23: The compression, when the last triangle of the list is not deleted:
    the list shrinks by the number of deleted triangles, every cell keeps
    a list of the same length that names the same triangles in the same
    order, and the lists of the cells and the triangle list stay
    consistent. *)
Theorem compress_keeps_triangles (st : State) :
  NoDup (dellist st) →
  (∀ d, d ∈ dellist st → d < length (tris st) - 1) →
  consistent grid_hash (tris st) (length (tris st)) (cells st) (dellist st) →
  ∃ st',
    compress grid_hash st = Done st' ∧
    length (tris st') = length (tris st) - length (dellist st) ∧
    dellist st' = [] ∧
    Forall2 (same_triangles (tris st) (tris st')) (cells st) (cells st') ∧
    consistent grid_hash (tris st') (length (tris st')) (cells st') [].
Proof.
  intros Hnd Hlt Hcons.
  destruct (qsort_descending _ _ Hnd Hlt) as [Hdesc Hperm].
  destruct (compress_loop_moves (qsort (dellist st)) (tris st) (length (tris st)) (cells st))
    as (tris' & cells' & Hloop & Hlen & Hcons' & Hsame); [|done|].
  { destruct Hcons as (H1 & H2 & H3). split; [done|]. split.
    - intros ic c Hc. destruct (H2 _ _ Hc) as (? & ? & Hent).
      split; [done|]. split; [done|]. intros e He.
      destruct (Hent e He) as (? & ? & ?). split; [done|]. split; [by rewrite Hperm|done].
    - intros e He HeD. apply H3; [done|]. by rewrite <- Hperm. }
  assert (length (qsort (dellist st)) = length (dellist st)) as Hql by (by rewrite Hperm).
  rewrite Hql in Hloop, Hcons'.
  set (n' := length (tris st) - length (dellist st)) in *.
  assert (length (take n' tris') = n') as Hlen'.
  { rewrite length_take. unfold n'. lia. }
  destruct Hcons' as (H1 & H2 & H3).
  assert (∀ ic c e, cells' !! ic = Some c → e ∈ surfs c → take n' tris' !! e = tris' !! e) as Htake.
  { intros ic c e Hc He. destruct (H2 _ _ Hc) as (_ & _ & Hent).
    destruct (Hent e He) as (? & _). by apply lookup_take_lt. }
  eexists. split; [unfold compress; rewrite Hloop; reflexivity|].
  cbn [tris cells dellist set_dellist set_cells set_tris].
  split; [done|]. split; [done|]. split.
  - apply Forall2_same_length_lookup_2; [by apply Forall2_length in Hsame|].
    intros ic c c' Hc Hc'.
    pose proof (Forall2_lookup_lr _ _ _ _ _ _ Hsame Hc Hc') as Hs.
    unfold same_triangles in *. destruct Hs as (?&?&?&?&?&?&?&?&?&Hs).
    repeat (split; [done|]). rewrite <- Hs. apply list_fmap_ext.
    intros j e He. eapply Htake; [done|]. by eapply list_elem_of_lookup_2.
  - rewrite Hlen'. split; [lia|]. split.
    + intros ic c Hc. destruct (H2 _ _ Hc) as (? & ? & Hent).
      split; [done|]. split; [done|]. intros e He.
      destruct (Hent e He) as (? & ? & t & Ht & Hh). split; [done|]. split; [done|].
      exists t. split; [|done]. by rewrite (Htake _ _ _ Hc He).
    + intros e He HeD. destruct (H3 e He HeD) as (t & ic & c & Ht & Hh & Hc & Hin).
      exists t, ic, c. split; [by rewrite lookup_take_lt|done].
Qed.

(** X24: The compression aborts when the last triangle of the list is one of
    the deleted ones: the triangle then stays where it is, and the cell
    that its ID names no longer lists it. *)
Theorem compress_last_deleted (st : State) (t : Tri) (icell : nat) (cell : ChildCell) :
  NoDup (dellist st) →
  (∀ d, d ∈ dellist st → d < length (tris st)) →
  length (tris st) - 1 ∈ dellist st →
  tris st !! (length (tris st) - 1) = Some t →
  grid_hash !! id t = Some (S icell) →
  cells st !! icell = Some cell →
  nsurf cell ≤ length (csurfs cell) →
  (∀ e, e ∈ surfs cell → e ∉ dellist st) →
  compress grid_hash st = Abort MovedTriNotFound.
Proof.
  intros Hnd Hlt Hlast Ht Hid Hcell Hns Hent.
  set (n := length (tris st)) in *.
  assert (0 < n) as Hn by (apply lookup_lt_Some in Ht; lia).
  destruct (qsort_descending _ n Hnd Hlt) as [Hdesc Hperm].
  unfold compress. destruct (qsort (dellist st)) as [|m D] eqn:Hq.
  { rewrite <- Hperm in Hlast. by apply elem_of_nil in Hlast. }
  assert (m = n - 1) as ->.
  { destruct Hdesc as [Hm HD]. rewrite <- Hperm in Hlast.
    apply elem_of_cons in Hlast as [?|Hin]; [done|].
    pose proof (descending_below _ _ _ HD Hin). lia. }
  cbn [foldl]. unfold compress_step at 2. cbn [mbind outcome_bind]. fold n.
  rewrite bool_decide_false by lia.
  unfold get. rewrite Ht. cbn [raise mbind outcome_bind].
  rewrite bool_decide_false by lia.
  rewrite list_lookup_insert_eq by lia. cbn [raise mbind outcome_bind].
  rewrite Hid, Hcell. cbn [raise mbind outcome_bind].
  rewrite bool_decide_false by lia.
  destruct (list_find _ _) as [[k x]|] eqn:Hfind.
  { apply list_find_Some in Hfind as (Hk & -> & _).
    exfalso. apply (Hent (n - 1)); [by eapply list_elem_of_lookup_2|done]. }
  by rewrite compress_step_Abort.
Qed.

End compress_props.

Section cleanup_more.
Import Cleanup.
Variable me : Z.
Variable neigh_decode : Z → nat → Z.
Variable new_tri : Z → point → point → point → Tri.

Lemma recv_step_two_outward (st : State) (d : SendDatum) (m0 m1 : nat) (t0 : Tri) :
  get2 (nfacetri st) (othercell d) (otherface d) = Ok 2 →
  get2 (facetris st) (othercell d) (otherface d) = Ok [m0; m1] →
  tris st !! m0 = Some t0 →
  inward_normal (otherface d) (norm t0) = false →
  recv_step new_tri (Ok st) d = Ok st.
Proof.
  intros Hn Hft Ht0 Hin. unfold recv_step. cbn [mbind result_bind].
  rewrite Hn. cbn [mbind result_bind].
  rewrite (bool_decide_false (2 = 0)) by lia. cbn [andb mbind result_bind].
  rewrite (bool_decide_true (2 = 2)) by done.
  rewrite Hft. cbn [mbind result_bind].
  change (get [m0; m1] 0) with (Ok m0). change (get [m0; m1] 1) with (Ok m1).
  cbn [mbind result_bind]. rewrite (get_Ok _ _ _ Ht0). cbn [mbind result_bind].
  by rewrite Hin.
Qed.

Lemma recv_step_two_inward (st : State) (d : SendDatum) (cell : ChildCell)
    (m0 m1 : nat) (t0 : Tri) :
  get2 (nfacetri st) (othercell d) (otherface d) = Ok 2 →
  face_pair st (othercell d) (otherface d) cell m0 m1 →
  tris st !! m0 = Some t0 →
  inward_normal (otherface d) (norm t0) = true →
  ∃ cell',
    recv_step new_tri (Ok st) d
    = Ok (set_dellist (dellist st ++ [m0; m1])
            (set_cells (<[othercell d := cell']> (cells st)) st)) ∧
    same_cell_but_surfs cell cell' ∧
    surfs cell ≡ₚ m0 :: m1 :: surfs cell'.
Proof.
  intros Hn (Hc & Hlen & Hft & Hm0 & Hm1 & Hm) Ht0 Hin.
  unfold recv_step. cbn [mbind result_bind].
  rewrite Hn. cbn [mbind result_bind].
  rewrite (bool_decide_false (2 = 0)) by lia. cbn [andb mbind result_bind].
  rewrite (bool_decide_true (2 = 2)) by done.
  rewrite Hft. cbn [mbind result_bind].
  change (get [m0; m1] 0) with (Ok m0). change (get [m0; m1] 1) with (Ok m1).
  cbn [mbind result_bind]. rewrite (get_Ok _ _ _ Ht0). cbn [mbind result_bind].
  rewrite Hin. cbn [negb].
  rewrite (get_Ok _ _ _ Hc). cbn [mbind result_bind].
  destruct (remove_pair_spec (othercell d) (nsurf cell) m0 m1 st cell Hc eq_refl Hlen Hm0 Hm1 Hm)
    as (cell' & -> & Hsame & _ & Hperm).
  cbn [mbind result_bind]. by exists cell'.
Qed.

(** X20: A face between two processes on which both cells have two triangles:
    the process unlinks its pair and queues it for deletion once, when it
    fills the send buffer if the normal of the pair is not inward, and
    when it reads what the neighbour sent if it is; what the neighbour
    sent does not matter, and the triangle list is untouched. *)
Theorem both_sides_delete_once (st : State) (icell iface ocell : nat)
    (ci co : ChildCell) (m0 m1 : nat) (t0 t1 : Tri) (d : SendDatum) :
  shared_face neigh_decode st icell iface ocell ci co m0 m1 t0 t1 →
  proc co ≠ me →
  othercell d = icell → otherface d = iface →
  ∃ ns' st1 st2 ci',
    face_step me neigh_decode icell (Ok (nsurf ci, st)) iface = Ok (ns', st1) ∧
    recv_step new_tri (Ok st1) d = Ok st2 ∧
    cells st2 = <[icell := ci']> (cells st) ∧
    same_cell_but_surfs ci ci' ∧ surfs ci ≡ₚ m0 :: m1 :: surfs ci' ∧
    dellist st2 = dellist st ++ [m0; m1] ∧
    tris st2 = tris st ∧
    bufsend st2 = bufsend st ++ [mkDatum icell iface (ilocal co) (other_face iface)
                                   (inward_normal iface (norm t0)) t0 t1].
Proof.
  intros Hsh Hme Hdc Hdf.
  rewrite (face_step_other_proc me neigh_decode st icell iface ocell ci co m0 m1 t0 t1 Hsh Hme).
  destruct Hsh as (Hne & Hfp & Hn2 & Hflag & Hneigh & Hco & Hleno & Ht0 & Ht1).
  pose proof Hfp as (Hci & Hlen & Hft & Hm0 & Hm1 & Hm).
  destruct (inward_normal iface (norm t0)) eqn:Hin.
  - rewrite (other_proc_inward _ _ _ _ _ _ _ _ _ _ _ Hft Ht0 Ht1).
    set (st1 := push_send _ _ st).
    destruct (recv_step_two_inward st1 d ci m0 m1 t0) as (ci' & Hrecv & Hsame & Hperm);
      rewrite ?Hdc, ?Hdf; try done.
    eexists (nsurf ci), st1, _, ci'. split; [done|]. split; [exact Hrecv|].
    rewrite Hdc. done.
  - destruct (other_proc_outward st icell iface (other_face iface) (ilocal co) (proc co)
                ci m0 m1 t0 t1 Hfp Ht0 Ht1) as (ci' & -> & Hsame & Hperm).
    eexists _, _, _, ci'. split; [done|]. split.
    + apply (recv_step_two_outward _ d m0 m1 t0); rewrite ?Hdc, ?Hdf; done.
    + done.
Qed.

Lemma halves (k : nat) :
  ((2 * k) / 2 = k ∧ (2 * k) mod 2 = 0 ∧ (2 * k + 1) / 2 = k ∧ (2 * k + 1) mod 2 = 1)%nat.
Proof.
  repeat split.
  - symmetry. apply (Nat.div_unique _ 2 k 0); lia.
  - symmetry. apply (Nat.mod_unique _ 2 k 0); lia.
  - symmetry. apply (Nat.div_unique _ 2 k 1); lia.
  - symmetry. apply (Nat.mod_unique _ 2 k 1); lia.
Qed.

(** X21: The face [other_face] is the face the neighbour sees: the opposite
    face of the same direction.  A normal is inward to at most one of the
    two cells at a face, and to one of them when its component across the
    face is not zero. *)
Theorem inward_to_one_side (iface : nat) (n : point) :
  other_face (other_face iface) = iface ∧
  (other_face iface / 2)%nat = (iface / 2)%nat ∧
  (iface < 6 → other_face iface < 6) ∧
  ¬ (inward_normal iface n = true ∧ inward_normal (other_face iface) n = true) ∧
  (∀ q : Qc, coord n (iface / 2) = Fin q → q ≠ 0%Qc →
             inward_normal (other_face iface) n = negb (inward_normal iface n)).
Proof.
  assert (∀ q : Qc, q ≠ 0%Qc → (q < 0 ∨ 0 < q)%Qc) as Hsign.
  { intros q Hq. destruct (Qc_dec q 0) as [[?|?]|?]; [by left|by right|done]. }
  destruct (Nat.Even_or_Odd iface) as [[k ->]|[k ->]];
    destruct (halves k) as (E1 & E2 & E3 & E4).
  - assert (other_face (2 * k) = 2 * k + 1) as Ho.
    { unfold other_face. by rewrite E2. }
    rewrite Ho. split; [|split; [congruence|split; [lia|split]]].
    + unfold other_face. rewrite E4. cbn. lia.
    + unfold inward_normal. rewrite E1, E2, E3, E4. cbn [Nat.eqb negb andb].
      destruct (coord n k) as [q| | |]; cbn; repeat case_bool_decide; try done;
        intros [? ?]; try done; qc_order.
    + intros q Hq Hq0. unfold inward_normal. rewrite E1, E2, E3, E4 in *. rewrite Hq.
      cbn [Nat.eqb negb andb]. cbn. destruct (Hsign q Hq0);
        repeat case_bool_decide; try done; qc_order.
  - assert (other_face (2 * k + 1) = 2 * k) as Ho.
    { unfold other_face. rewrite E4. cbn. lia. }
    rewrite Ho. split; [|split; [congruence|split; [lia|split]]].
    + unfold other_face. by rewrite E2.
    + unfold inward_normal. rewrite E1, E2, E3, E4. cbn [Nat.eqb negb andb].
      destruct (coord n k) as [q| | |]; cbn; repeat case_bool_decide; try done;
        intros [? ?]; try done; qc_order.
    + intros q Hq Hq0. unfold inward_normal. rewrite E1, E2, E3, E4 in *. rewrite Hq.
      cbn [Nat.eqb negb andb]. cbn. destruct (Hsign q Hq0);
        repeat case_bool_decide; try done; qc_order.
Qed.

End cleanup_more.

Section ambiguity_props.
Import Cubes.
Local Open Scope Z_scope.
Variable thresh : double.
Variable c : Cube.

Local Ltac small_cases z :=
  destruct z as [|z|z]; try done;
  do 4 (try (destruct z as [z|z|]; try done)).

(** X17: [interior_ambiguity] assigns [edge] only when on one of the four
    diagonals of the cell both corner values lie on the side of the
    threshold that [s] names; it then returns an edge of the direction
    of the face: 4..7 for the faces 1 and 3, 0..3 for 2 and 4, 8..11 for
    5, 6 and 0.  With no such diagonal, or for another face, it returns
    [edge] as it was declared, without a value. *)
Theorem interior_ambiguity_defined (amb_face s : Z) :
  let both x y := pos x s && pos y s in
  let some_diagonal :=
    both (v001iso thresh c) (v110iso thresh c) || both (v000iso thresh c) (v111iso thresh c)
    || both (v010iso thresh c) (v101iso thresh c) || both (v011iso thresh c) (v100iso thresh c) in
  match interior_ambiguity thresh c amb_face s with
  | Ok e =>
      some_diagonal = true ∧
      ((amb_face = 1 ∨ amb_face = 3) ∧ 4 ≤ e ≤ 7 ∨
       (amb_face = 2 ∨ amb_face = 4) ∧ 0 ≤ e ≤ 3 ∨
       (amb_face = 5 ∨ amb_face = 6 ∨ amb_face = 0) ∧ 8 ≤ e ≤ 11)
  | Err x => x = Uninitialized ∧ (¬ (0 ≤ amb_face ≤ 6) ∨ some_diagonal = false)
  end.
Proof.
  intros both some_diagonal. subst both some_diagonal. unfold interior_ambiguity.
  small_cases amb_face; try (split; [done|left; lia]);
    destruct (pos (v001iso thresh c) s), (pos (v110iso thresh c) s),
      (pos (v000iso thresh c) s), (pos (v111iso thresh c) s),
      (pos (v010iso thresh c) s), (pos (v101iso thresh c) s),
      (pos (v011iso thresh c) s), (pos (v100iso thresh c) s);
    cbn [andb orb assign_if]; (split; [done|]); try (by right);
    first [left; split; [lia|lia] | right; left; split; [lia|lia] | right; right; split; [lia|lia]].
Qed.

End ambiguity_props.

Section cube_box.
Import Cubes CubeBox.
Local Open Scope Z_scope.

(** X12: The index [which] into the table [cases] of 256 rows is in range, its
    binary digits are the sign bits of the corners, and it is 0 exactly
    when no corner value is above the threshold. *)
Theorem cube_index_bits (thresh : double) (c : Cube) :
  0 ≤ which thresh c < 256 ∧
  (∀ (k : nat) b, bits thresh c !! k = Some b → Z.testbit (which thresh c) (Z.of_nat k) = b) ∧
  (which thresh c = 0 ↔ Forall (fun b => b = false) (bits thresh c)).
Proof.
  unfold which, bits.
  destruct (bit0 thresh c), (bit1 thresh c), (bit2 thresh c), (bit3 thresh c),
    (bit4 thresh c), (bit5 thresh c), (bit6 thresh c), (bit7 thresh c);
    (split; [by vm_compute|]);
    (split; [intros k b Hb; do 8 (destruct k as [|k]; [simplify_eq/=; by vm_compute|]); done
            |by apply (bool_decide_unpack _); vm_compute]).
Qed.

End cube_box.

Section tunnel_box.
Import Cubes CubeBox.
Local Open Scope Z_scope.

Lemma mean_bounds (s a b n : Qc) :
  (0 < n)%Qc → (a * n ≤ s)%Qc → (s ≤ b * n)%Qc → (a ≤ s / n ∧ s / n ≤ b)%Qc.
Proof.
  intros Hn Ha Hb.
  set (w := (s / n)%Qc).
  assert (w * n = s)%Qc as Hw.
  { unfold w. rewrite Qcmult_comm. apply Qcmult_div_r. intros ->. by eapply Qclt_not_eq. }
  assert (this (w * n)%Qc == this s)%Q as Hq by by rewrite Hw.
  clear Hw. revert Hq Hn Ha Hb. generalize w. clear w. intros w.
  unfold Qclt, Qcle, Qcminus, Qcopp, Qcplus, Qcmult, Q2Qc; cbn [this].
  rewrite !Qred_correct. change (this 0%Qc) with 0%Q. intros Hq Hn Ha Hb.
  split.
  - destruct (Qlt_le_dec w a) as [Hlt|]; [|done].
    pose proof (Qmult_lt_0_compat (a - w) n ltac:(lra) Hn). lra.
  - destruct (Qlt_le_dec b w) as [Hlt|]; [|done].
    pose proof (Qmult_lt_0_compat (w - b) n ltac:(lra) Hn). lra.
Qed.

Lemma step_bounds (a b s x : Qc) (m : Z) :
  (a * Qc_of_Z m ≤ s ∧ s ≤ b * Qc_of_Z m)%Qc → (a ≤ x ∧ x ≤ b)%Qc →
  (a * Qc_of_Z (m + 1) ≤ s + x ∧ s + x ≤ b * Qc_of_Z (m + 1))%Qc.
Proof.
  rewrite Z2Qc_inj_add. generalize (Qc_of_Z m). intros k [? ?] [? ?].
  unfold Qclt, Qcle, Qcminus, Qcopp, Qcplus, Qcmult, Q2Qc, Qc_of_Z in *; cbn [this] in *;
    repeat match goal with
           | H : context [Qred ?q] |- _ => rewrite (Qred_correct q) in H
           | |- context [Qred ?q] => rewrite (Qred_correct q)
           end;
    change (inject_Z 1) with 1%Q; split; lra.
Qed.

Lemma in_box_Fin (c : Cube) (a0 a1 a2 b0 b1 b2 : Qc) (p : point) :
  lo c = Pt (Fin a0) (Fin a1) (Fin a2) → hi c = Pt (Fin b0) (Fin b1) (Fin b2) →
  in_box c p ↔
  ∃ x y z : Qc, p = Pt (Fin x) (Fin y) (Fin z) ∧
                (a0 ≤ x ∧ x ≤ b0)%Qc ∧ (a1 ≤ y ∧ y ≤ b1)%Qc ∧ (a2 ≤ z ∧ z ≤ b2)%Qc.
Proof.
  intros Hlo Hhi. unfold in_box. rewrite Hlo, Hhi. cbn [px py pz]. split.
  - destruct p as [[x| | |] [y| | |] [z| | |]]; cbn; try (intros ([? ?] & [? ?] & [? ?]); done).
    rewrite !bool_decide_eq_true. intros (? & ? & ?). by exists x, y, z.
  - intros (x & y & z & -> & ? & ? & ?). cbn. by rewrite !bool_decide_eq_true.
Qed.

Lemma sum_in_box (a0 a1 a2 b0 b1 b2 : Qc) (ps : list point) (sx sy sz : Qc) (m : Z) :
  Forall (fun p => ∃ x y z : Qc, p = Pt (Fin x) (Fin y) (Fin z) ∧
                (a0 ≤ x ∧ x ≤ b0)%Qc ∧ (a1 ≤ y ∧ y ≤ b1)%Qc ∧ (a2 ≤ z ∧ z ≤ b2)%Qc) ps →
  (a0 * Qc_of_Z m ≤ sx ∧ sx ≤ b0 * Qc_of_Z m)%Qc →
  (a1 * Qc_of_Z m ≤ sy ∧ sy ≤ b1 * Qc_of_Z m)%Qc →
  (a2 * Qc_of_Z m ≤ sz ∧ sz ≤ b2 * Qc_of_Z m)%Qc →
  ∃ sx' sy' sz' : Qc,
    foldl padd (Pt (Fin sx) (Fin sy) (Fin sz)) ps = Pt (Fin sx') (Fin sy') (Fin sz') ∧
    let n := Qc_of_Z (m + Z.of_nat (length ps)) in
    (a0 * n ≤ sx' ∧ sx' ≤ b0 * n)%Qc ∧ (a1 * n ≤ sy' ∧ sy' ≤ b1 * n)%Qc ∧
    (a2 * n ≤ sz' ∧ sz' ≤ b2 * n)%Qc.
Proof.
  intros Hall. revert sx sy sz m.
  induction Hall as [|p ps (x & y & z & -> & Hx & Hy & Hz) _ IH]; intros sx sy sz m Hsx Hsy Hsz.
  - exists sx, sy, sz. cbn. by rewrite Z.add_0_r.
  - cbn [foldl length]. unfold padd at 2. cbn [px py pz add].
    replace (m + Z.of_nat (S (length ps))) with ((m + 1) + Z.of_nat (length ps)) by lia.
    apply IH; by apply step_bounds.
Qed.

Lemma on_cell_edge_in_box (c : Cube) (k1 k2 : corner) (p : point) :
  box_ok c → on_cell_edge c k1 k2 p → in_box c p.
Proof.
  intros (a0 & a1 & a2 & b0 & b1 & b2 & Hlo & Hhi & H0 & H1 & H2) Hon.
  assert (∀ d : nat, (d < 3)%nat →
            (coordp (lo c) d <=? coordp p d)%D = true ∧
            (coordp p d <=? coordp (hi c) d)%D = true) as Hd.
  { intros d Hlt. specialize (Hon d Hlt). destruct (bool_decide _); [|done].
    rewrite Hon, Hlo, Hhi.
    destruct d as [|[|[|d]]]; try lia; destruct (corner_bit k1 _); cbn [coordp px py pz];
      unfold leb; rewrite !bool_decide_eq_true; split; done || qc_order. }
  unfold in_box. split; [apply (Hd 0%nat); lia|]. split; [apply (Hd 1%nat); lia|].
  apply (Hd 2%nat); lia.
Qed.

Variable t : Qc.
Variable c : Cube.

(** X14: The point of the virtual edge 12 lies in the box of the cell when
    some edge of the cell has ends of different sign; when none has, the
    division is 0/0 and its three coordinates are NaN. *)
Theorem tunnel_centre_in_box :
  box_ok c →
  (crossing_edges (Fin t) c ≠ [] → in_box c (tunnel_centre (Fin t) c)) ∧
  (crossing_edges (Fin t) c = [] → tunnel_centre (Fin t) c = Pt NaN NaN NaN).
Proof.
  intros Hbox. rewrite tunnel_centre_mean. split.
  - intros Hne.
    pose proof Hbox as (a0 & a1 & a2 & b0 & b1 & b2 & Hlo & Hhi & H0 & H1 & H2).
    assert (Forall (fun p => ∃ x y z : Qc, p = Pt (Fin x) (Fin y) (Fin z) ∧
                (a0 ≤ x ∧ x ≤ b0)%Qc ∧ (a1 ≤ y ∧ y ≤ b1)%Qc ∧ (a2 ≤ z ∧ z ≤ b2)%Qc)
              (crossing (Fin t) c <$> crossing_edges (Fin t) c)) as Hall.
    { apply list.Forall_forall. intros p (e & -> & He)%list_elem_of_fmap.
      apply (in_box_Fin c a0 a1 a2 b0 b1 b2); [done..|].
      unfold crossing_edges in He. apply list_elem_of_filter in He as [_ He].
      apply elem_of_seqZ in He.
      destruct (edge_on_box t c e Hbox ltac:(lia)) as (k1 & k2 & p & _ & Hp & Hon).
      unfold crossing. rewrite Hp. cbn [default].
      by eapply on_cell_edge_in_box. }
    set (ps := crossing (Fin t) c <$> crossing_edges (Fin t) c) in *.
    assert (0 < length ps)%nat as Hlen.
    { unfold ps. rewrite length_fmap. destruct (crossing_edges (Fin t) c); [done|cbn; lia]. }
    destruct (sum_in_box a0 a1 a2 b0 b1 b2 ps 0%Qc 0%Qc 0%Qc 0 Hall) as (sx & sy & sz & Hsum & Hx & Hy & Hz).
    1-3: (rewrite Z2Qc_inj_0, !Qcmult_0_r; done).
    rewrite Z.add_0_l in Hx, Hy, Hz.
    apply (in_box_Fin c a0 a1 a2 b0 b1 b2); [done..|].
    unfold mean_point, origin, zero, of_int. rewrite Z2Qc_inj_0, Hsum.
    unfold pdiv. cbn [px py pz div].
    assert (0 < Qc_of_Z (Z.of_nat (length ps)))%Qc as Hn.
    { rewrite <- Z2Qc_inj_0. apply (proj1 (Z2Qc_inj_lt _ _)). lia. }
    rewrite !decide_False by (intros Heq; rewrite Heq in Hn; by apply Qclt_not_eq in Hn).
    eexists _, _, _. split; [done|].
    split; [|split]; apply mean_bounds; tauto.
  - intros ->. reflexivity.
Qed.

End tunnel_box.

Section add_triangle_props.
Import Cubes.
Local Open Scope Z_scope.
Variable thresh : double.
Variable c : Cube.

Local Ltac small_cases z :=
  destruct z as [|z|z]; try done;
  do 4 (try (destruct z as [z|z|]; try done)).

Lemma switch_trig_None (e : Z) : ¬ (0 ≤ e ≤ 12) → switch_trig thresh c e = None.
Proof. intros He. small_cases e; lia. Qed.

Lemma add_triangle_untouched (trig : list Z) (pt : list point) (m : nat) :
  length (foldl (add_triangle_step thresh c trig) pt (seq 0 m)) = length pt ∧
  ∀ i, (m ≤ i)%nat ∨ trig !! i = None ∨ (∃ e, trig !! i = Some e ∧ ¬ (0 ≤ e ≤ 12)) →
       foldl (add_triangle_step thresh c trig) pt (seq 0 m) !! i = pt !! i.
Proof.
  induction m as [|m [IHlen IH]]; [done|].
  rewrite seq_S, foldl_app. cbn [foldl Nat.add].
  set (pt' := foldl (add_triangle_step thresh c trig) pt (seq 0 m)) in *.
  split.
  { unfold add_triangle_step. repeat case_match; rewrite ?length_insert; done. }
  intros i Hi. unfold add_triangle_step.
  destruct (trig !! m) as [e|] eqn:Hm.
  - destruct (switch_trig thresh c e) as [p|] eqn:Hp.
    + destruct (decide (i = m)) as [->|Hne].
      * exfalso. destruct Hi as [?|[?|(e' & He' & Hr)]]; [lia|congruence|].
        simplify_eq. by rewrite switch_trig_None in Hp.
      * rewrite list_lookup_insert_ne by done. apply IH.
        destruct Hi as [?|[?|?]]; [left; lia|by right; left|by right; right].
    + apply IH. destruct Hi as [?|[?|?]]; [|by right; left|by right; right].
      destruct (decide (i = m)) as [->|?]; [|left; lia].
      right; right. exists e. split; [done|]. intros Hr.
      assert (is_Some (switch_trig thresh c e)) as [? ?]; [|congruence].
      clear -Hr. small_cases e; try lia; by eexists.
  - apply IH. destruct Hi as [?|[?|?]]; [|by right; left|by right; right].
    destruct (decide (i = m)) as [->|?]; [by right; left|left; lia].
Qed.

(** X13: [add_triangle] returns the number [n] it was given and writes the
    member [pt] at the places [0 .. 3n-1] of the tiling only: the length of
    [pt] and its entries from [3n] on are as before, and so is an entry
    whose edge number is none of 0..12. *)
Theorem add_triangle_frame (trig : list Z) (n : nat) (pt : list point) :
  fst (add_triangle thresh c trig n pt) = n ∧
  length (snd (add_triangle thresh c trig n pt)) = length pt ∧
  ∀ i, (3 * n ≤ i)%nat ∨ trig !! i = None ∨ (∃ e, trig !! i = Some e ∧ ¬ (0 ≤ e ≤ 12)) →
       snd (add_triangle thresh c trig n pt) !! i = pt !! i.
Proof.
  unfold add_triangle. cbn [fst snd]. split; [done|].
  apply add_triangle_untouched.
Qed.

End add_triangle_props.

(** *** What the tally records in [facetris] *)

Section tally_pairs.
Import Cleanup.
Variable tri_on_hex_face : point → point → point → point → point → Z.

(** After the loop over a list of triangles of a cell, the count of a face
    is the number of the triangles on it, and the row of the face starts
    with the first two of them. *)
Lemma tally_fold_pairs (tris : list Tri) (c : ChildCell) (l : list nat) :
  (∀ m, m ∈ l → ∃ f, face_of tri_on_hex_face tris c m = Some f ∧ (f < 6)%Z) →
  ∃ nft ft,
    foldl (tally_tri tri_on_hex_face tris (lo c) (hi c))
      (Ok (replicate 6 0, replicate 6 [0; 0])) l = Ok (nft, ft) ∧
    length nft = 6 ∧
    ∀ iface, iface < 6 →
      let on := filter (fun m => face_of tri_on_hex_face tris c m
                                 = Some (Z.of_nat iface)) l in
      nft !! iface = Some (length on) ∧
      ∃ pr, ft !! iface = Some pr ∧ length pr = 2 ∧
            take (length on) pr = take 2 on.
Proof.
  induction l as [|m l IH] using rev_ind; intros Hok.
  - eexists _, _. split; [done|]. split; [done|]. intros iface Hi. cbn.
    split; [exact (lookup_replicate_2 6 0 iface Hi)|].
    exists [0; 0]. split; [exact (lookup_replicate_2 6 [0; 0] iface Hi)|done].
  - destruct IH as (nft & ft & Hfold & Hlen & Hinv).
    { intros m' Hm'. apply Hok, elem_of_app. by left. }
    destruct (Hok m) as (f & Hf & Hf6); [apply elem_of_app; right; apply list_elem_of_here|].
    rewrite foldl_app, Hfold. cbn [foldl]. unfold tally_tri. cbn [mbind result_bind].
    pose proof Hf as Hf'.
    unfold face_of in Hf. destruct (tris !! m) as [t|] eqn:Ht; simplify_eq/=.
    rewrite (get_Ok _ _ _ Ht). cbn [mbind result_bind].
    set (fz := tri_on_hex_face (p1 t) (p2 t) (p3 t) (lo c) (hi c)) in *.
    case_bool_decide as Hneg.
    + exists nft, ft. split; [done|]. split; [done|]. intros iface Hi. cbn zeta.
      rewrite list.filter_app, filter_cons_False, filter_nil, app_nil_r; [by apply Hinv|].
      rewrite Hf'. intros [= Heq]. lia.
    + destruct (Hinv (Z.to_nat fz)) as (Hn & pr & Hpr & Hprl & Htake); [lia|].
      rewrite (get_Ok _ _ _ Hn). cbn [mbind result_bind].
      eexists _, _. split; [done|]. split; [by rewrite length_insert|].
      intros iface Hi. cbn zeta.
      destruct (decide (iface = Z.to_nat fz)) as [->|Hne].
      * rewrite list.filter_app, filter_cons_True, filter_nil
          by (rewrite Hf'; f_equal; lia).
        rewrite length_app. cbn [length].
        set (on := filter _ l) in *.
        split; [rewrite list_lookup_insert_eq by lia; f_equal; lia|].
        case_bool_decide as Hlt.
        -- exists (<[length on := m]> pr).
           split; [by rewrite list_lookup_alter_eq, Hpr|].
           split; [by rewrite length_insert|].
           rewrite (take_ge on) in Htake by lia.
           rewrite (take_ge (on ++ [m])) by (rewrite length_app; cbn; lia).
           replace (length on + 1) with (S (length on)) by lia.
           destruct (lookup_lt_is_Some_2 (<[length on := m]> pr) (length on)) as [x Hx];
             [rewrite length_insert; lia|].
           rewrite (take_S_r _ _ _ Hx), take_insert_ge, Htake by lia.
           rewrite list_lookup_insert_eq in Hx by lia. by simplify_eq.
        -- exists pr. split; [done|]. split; [done|].
           rewrite take_app_le by lia.
           rewrite <- Htake. rewrite !take_ge by lia. done.
      * rewrite list.filter_app, filter_cons_False, filter_nil, app_nil_r
          by (rewrite Hf'; intros [= Heq]; lia).
        rewrite list_lookup_insert_ne by done.
        destruct (Hinv iface Hi) as (Hn' & pr' & Hpr' & ?).
        split; [done|]. exists pr'. split; [|done].
        case_bool_decide; [|done]. by rewrite list_lookup_alter_ne.
Qed.

Lemma tally_cell_pairs (tris : list Tri) (c : ChildCell) :
  cell_ok tri_on_hex_face tris c →
  ∃ nft ft,
    tally_cell tri_on_hex_face tris c = Ok (nft, ft) ∧
    ∀ iface m0 m1, iface < 6 →
      filter (fun m => face_of tri_on_hex_face tris c m = Some (Z.of_nat iface)) (surfs c)
      = [m0; m1] →
      (0 < nsplit c)%Z →
      nft !! iface = Some 2 ∧ ft !! iface = Some [m0; m1].
Proof.
  intros (Hlen & Hok). unfold tally_cell.
  case_bool_decide as Hsplit.
  { eexists _, _. split; [done|]. intros; lia. }
  case_bool_decide as Hns.
  { eexists _, _. split; [done|]. intros iface m0 m1 _ Hf _.
    unfold surfs in Hf. by rewrite Hns in Hf. }
  rewrite bool_decide_false by lia.
  destruct (tally_fold_pairs tris c (surfs c) Hok) as (nft & ft & -> & _ & Hinv).
  exists nft, ft. split; [done|]. intros iface m0 m1 Hi Hf _.
  destruct (Hinv iface Hi) as (Hn & pr & Hpr & Hprl & Htake).
  rewrite Hf in Hn, Htake. split; [done|].
  rewrite Hpr. f_equal. rewrite take_ge in Htake by (cbn; lia). done.
Qed.

Lemma tally_cells_pairs (tris : list Tri) (cs : list ChildCell) :
  Forall (cell_ok tri_on_hex_face tris) cs →
  ∃ nfts fts,
    tally_cells tri_on_hex_face tris cs = Ok (nfts, fts) ∧
    ∀ icell c iface m0 m1,
      cs !! icell = Some c → iface < 6 → (0 < nsplit c)%Z →
      filter (fun m => face_of tri_on_hex_face tris c m = Some (Z.of_nat iface)) (surfs c)
      = [m0; m1] →
      get2 nfts icell iface = Ok 2 ∧ get2 fts icell iface = Ok [m0; m1].
Proof.
  induction 1 as [|c cs Hc Hcs IH]; simpl.
  - exists [], []. split; [done|]. by intros.
  - destruct (tally_cell_pairs tris c Hc) as (nft & ft & -> & Hrow).
    destruct IH as (nfts & fts & -> & Hall).
    cbn [mbind result_bind]. exists (nft :: nfts), (ft :: fts).
    split; [done|]. intros icell c' iface m0 m1 Hc' Hi Hsp Hf.
    destruct icell as [|icell]; simplify_eq/=.
    + destruct (Hrow iface m0 m1 Hi Hf Hsp) as [Hn Hp].
      unfold get2. cbn. by rewrite (get_Ok _ _ _ Hn), (get_Ok _ _ _ Hp).
    + by apply (Hall icell c').
Qed.

(** X18: The tally of the owned cells succeeds and leaves the cells and the
    triangles as they are; on a face of an owned cell that holds exactly
    two of the triangles of the cell, it records the count 2 and the two
    triangles in the order in which the cell lists them, so that the pair
    is the one the passes over the faces work with when the cell lists no
    triangle twice. *)
Theorem tally_records_pairs (nglocal : nat) (st : State) :
  Forall (cell_ok tri_on_hex_face (tris st)) (take nglocal (cells st)) →
  ∃ st',
    tally tri_on_hex_face nglocal st = Ok st' ∧
    cells st' = cells st ∧ tris st' = tris st ∧ dellist st' = dellist st ∧
    ∀ icell c iface m0 m1,
      icell < nglocal → cells st !! icell = Some c → iface < 6 →
      (0 < nsplit c)%Z →
      filter (fun m => face_of tri_on_hex_face (tris st) c m = Some (Z.of_nat iface))
        (surfs c) = [m0; m1] →
      get2 (nfacetri st') icell iface = Ok 2 ∧
      get2 (facetris st') icell iface = Ok [m0; m1] ∧
      (NoDup (surfs c) → face_pair st' icell iface c m0 m1).
Proof.
  intros Hok. unfold tally.
  destruct (tally_cells_pairs _ _ Hok) as (nfts & fts & -> & Hall).
  cbn [mbind result_bind]. eexists. split; [done|].
  split; [done|]. split; [done|]. split; [done|].
  intros icell c iface m0 m1 Hi Hc Hf Hsp Hon.
  destruct (Hall icell c iface m0 m1) as [Hn Hp]; [|done..|].
  { rewrite lookup_take_lt by done. done. }
  split; [done|]. split; [done|]. intros Hnd.
  assert (m0 ∈ [m0; m1]) as H0 by apply list_elem_of_here.
  assert (m1 ∈ [m0; m1]) as H1 by apply list_elem_of_further, list_elem_of_here.
  rewrite <- Hon in H0, H1.
  apply list_elem_of_filter in H0 as [_ H0], H1 as [_ H1].
  assert (NoDup [m0; m1]) as Hnd2 by (rewrite <- Hon; by apply list.NoDup_filter).
  apply list.NoDup_cons in Hnd2 as [Hne _].
  unfold face_pair. cbn. repeat split; try done.
  - eapply (Forall_lookup_1 _ _ icell c) in Hok as [Hlen _]; [done|].
    by rewrite lookup_take_lt.
  - intros ->. apply Hne, list_elem_of_here.
Qed.

End tally_pairs.

(** *** The frame of the two passes *)

Section cleanup_frame.
Import Cleanup CleanupFrame.
Lemma copy_but_id_refl (ts : list Tri) : Forall2 copy_but_id ts ts.
Proof. apply Forall2_same_length_lookup_2; [done|]. intros i x y ? ?. by simplify_eq. Qed.

Lemma same_but_list_refl (cs : list ChildCell) : Forall2 same_but_list cs cs.
Proof. apply Forall2_same_length_lookup_2; [done|]. intros i x y ? ?. by simplify_eq. Qed.

Lemma copy_but_id_trans (a b c : list Tri) :
  Forall2 copy_but_id a b → Forall2 copy_but_id b c → Forall2 copy_but_id a c.
Proof.
  intros Hab. revert c. induction Hab as [|x y a b Hxy Hab IH]; intros c Hbc;
    inversion Hbc as [|? z ? c' Hyz Hbc']; subst; constructor; [|by apply IH].
  unfold copy_but_id in *. intuition congruence.
Qed.

Lemma same_but_list_trans (a b c : list ChildCell) :
  Forall2 same_but_list a b → Forall2 same_but_list b c → Forall2 same_but_list a c.
Proof.
  intros Hab. revert c. induction Hab as [|x y a b Hxy Hab IH]; intros c Hbc;
    inversion Hbc as [|? z ? c' Hyz Hbc']; subst; constructor; [|by apply IH].
  unfold same_but_list in *. intuition congruence.
Qed.

Variable me : Z.
Variable neigh_decode : Z → nat → Z.
Variable new_tri : Z → point → point → point → Tri.

Lemma kept_by_faces_refl (st : State) : kept_by_faces me st st.
Proof.
  split; [apply copy_but_id_refl|]. split; [apply same_but_list_refl|].
  split; [done|]. split; [exists []; by rewrite app_nil_r|].
  exists [], []. by rewrite !app_nil_r.
Qed.

Lemma kept_by_faces_trans (a b c : State) :
  kept_by_faces me a b → kept_by_faces me b c → kept_by_faces me a c.
Proof.
  intros (Ht & Hc & Hf & (dl & Hd) & pl & bs & Hp & Hb & Hl & Hne)
         (Ht' & Hc' & Hf' & (dl' & Hd') & pl' & bs' & Hp' & Hb' & Hl' & Hne').
  split; [by eapply copy_but_id_trans|]. split; [by eapply same_but_list_trans|].
  split; [congruence|]. split; [exists (dl ++ dl'); by rewrite Hd', Hd, app_assoc|].
  exists (pl ++ pl'), (bs ++ bs'). rewrite Hp', Hp, Hb', Hb, !app_assoc, !length_app.
  repeat split; [lia|]. by apply Forall_app.
Qed.

Lemma set_cell_list (cs : list ChildCell) (i n : nat) (ptr : list nat) (c : ChildCell) :
  cs !! i = Some c → Forall2 same_but_list cs (<[i := set_csurfs n ptr c]> cs).
Proof.
  intros Hc. rewrite <- (list_insert_id cs i c Hc) at 1.
  apply Forall2_insert; [apply same_but_list_refl|]. by repeat split.
Qed.

Lemma retag_tris (ts : list Tri) (m : nat) (cid : Z) (t : Tri) :
  ts !! m = Some t → Forall2 copy_but_id ts (<[m := set_id cid t]> ts).
Proof.
  intros Ht. rewrite <- (list_insert_id ts m t Ht) at 1.
  apply Forall2_insert; [apply copy_but_id_refl|]. by repeat split.
Qed.

Lemma remove_pair_cells (c ns m0 m1 : nat) (st st' : State) :
  remove_pair c ns m0 m1 st = Ok st' →
  Forall2 same_but_list (cells st) (cells st') ∧
  st' = set_cells (cells st') st.
Proof.
  unfold remove_pair. destruct (get (cells st) c) as [cell|] eqn:Hc; [|done].
  cbn [mbind result_bind]. destruct (remove_surf _ _ _) as [ptr|]; [|done].
  cbn [mbind result_bind]. destruct (remove_surf _ _ _) as [ptr'|]; [|done].
  cbn [mbind result_bind]. intros [= <-]. split; [|done].
  by apply set_cell_list, get_Ok_inv.
Qed.

Lemma append_pair_cells (c m0 m1 : nat) (st st' : State) :
  append_pair c m0 m1 st = Ok st' →
  Forall2 same_but_list (cells st) (cells st') ∧
  st' = set_cells (cells st') st.
Proof.
  unfold append_pair. destruct (get (cells st) c) as [cell|] eqn:Hc; [|done].
  cbn [mbind result_bind]. case_bool_decide; [done|]. intros [= <-]. split; [|done].
  by apply set_cell_list, get_Ok_inv.
Qed.

Lemma retag_state (m : nat) (cid : Z) (st st' : State) :
  retag m cid st = Ok st' →
  Forall2 copy_but_id (tris st) (tris st') ∧ st' = set_tris (tris st') st.
Proof.
  unfold retag. destruct (get (tris st) m) as [t|] eqn:Ht; [|done].
  cbn [mbind result_bind]. intros [= <-]. split; [|done].
  by apply retag_tris, get_Ok_inv.
Qed.

Local Ltac step H x E :=
  match type of H with
  | (?r ≫= _) = Ok _ => destruct r as [x|] eqn:E; [|done]; cbn [mbind result_bind] in H
  end.

Lemma kept_cells (st : State) (cs : list ChildCell) :
  Forall2 same_but_list (cells st) cs → kept_by_faces me st (set_cells cs st).
Proof.
  intros Hc. split; [apply copy_but_id_refl|]. split; [done|].
  split; [done|]. split; [exists []; by rewrite app_nil_r|].
  exists [], []. by rewrite !app_nil_r.
Qed.

Lemma kept_tris (st : State) (ts : list Tri) :
  Forall2 copy_but_id (tris st) ts → kept_by_faces me st (set_tris ts st).
Proof.
  intros Hc. split; [done|]. split; [apply same_but_list_refl|].
  split; [done|]. split; [exists []; by rewrite app_nil_r|].
  exists [], []. by rewrite !app_nil_r.
Qed.

Lemma kept_dellist (st : State) (dl : list nat) :
  kept_by_faces me st (set_dellist (dellist st ++ dl) st).
Proof.
  split; [apply copy_but_id_refl|]. split; [apply same_but_list_refl|].
  split; [done|]. split; [by exists dl|].
  exists [], []. by rewrite !app_nil_r.
Qed.

Lemma kept_nfacetri (st : State) (x : list (list nat)) :
  kept_by_faces me st (set_nfacetri x st).
Proof.
  split; [apply copy_but_id_refl|]. split; [apply same_but_list_refl|].
  split; [done|]. split; [exists []; by rewrite app_nil_r|].
  exists [], []. by rewrite !app_nil_r.
Qed.

Lemma kept_push (st : State) (p : Z) (d : SendDatum) :
  p ≠ me → kept_by_faces me st (push_send p d st).
Proof.
  intros Hp. split; [apply copy_but_id_refl|]. split; [apply same_but_list_refl|].
  split; [done|]. split; [exists []; by rewrite app_nil_r|].
  exists [p], [d]. repeat split. by constructor.
Qed.

Lemma kept_remove_pair (c ns m0 m1 : nat) (st st' : State) :
  remove_pair c ns m0 m1 st = Ok st' → kept_by_faces me st st'.
Proof. intros [Hc ->]%remove_pair_cells. by apply kept_cells. Qed.

Lemma kept_append_pair (c m0 m1 : nat) (st st' : State) :
  append_pair c m0 m1 st = Ok st' → kept_by_faces me st st'.
Proof. intros [Hc ->]%append_pair_cells. by apply kept_cells. Qed.

Lemma kept_retag (m : nat) (cid : Z) (st st' : State) :
  retag m cid st = Ok st' → kept_by_faces me st st'.
Proof. intros [Hc ->]%retag_state. by apply kept_tris. Qed.

Lemma same_proc_kept (icell iface ocell oface : nat) (inward : bool) (ns ns' : nat)
    (st st' : State) :
  same_proc icell iface ocell oface inward ns st = Ok (ns', st') →
  kept_by_faces me st st'.
Proof.
  unfold same_proc. intros H.
  step H n En. destruct (_ && _); [simplify_eq; apply kept_by_faces_refl|].
  step H m0 E0. step H m1 E1. step H s1 H1. step H s2 H2. step H s3 H3. step H s4 H4.
  simplify_eq.
  assert (kept_by_faces me st s1) as K1.
  { clear H2 H3 H4. destruct (bool_decide (n = 0)); [|simplify_eq; apply kept_by_faces_refl].
    step H1 oc Eoc. step H1 sa Ha. step H1 sb Hb.
    eapply kept_by_faces_trans; [by eapply kept_append_pair|].
    eapply kept_by_faces_trans; by eapply kept_retag. }
  assert (kept_by_faces me s1 s2) as K2.
  { clear H1 H3 H4. destruct (bool_decide (n = 2)); [|simplify_eq; apply kept_by_faces_refl].
    step H2 row Erow. step H2 oc Eoc. step H2 o0 Eo0. step H2 o1 Eo1.
    eapply kept_by_faces_trans; [apply kept_nfacetri|]. by eapply kept_remove_pair. }
  assert (kept_by_faces me s3 st') as K4.
  { clear H1 H2 H3. destruct (bool_decide (n = 2)); [|simplify_eq; apply kept_by_faces_refl].
    step H4 o0 Eo0. step H4 o1 Eo1. simplify_eq. apply kept_dellist. }
  pose proof (kept_remove_pair _ _ _ _ _ _ H3) as K3.
  eapply kept_by_faces_trans; [exact K1|].
  eapply kept_by_faces_trans; [exact K2|].
  eapply kept_by_faces_trans; [exact K3|exact K4].
Qed.

Lemma other_proc_kept (icell iface : nat) (otherproc : Z) (otherlocal oface : nat)
    (inward : bool) (ns ns' : nat) (st st' : State) :
  otherproc ≠ me →
  other_proc icell iface otherproc otherlocal oface inward ns st = Ok (ns', st') →
  kept_by_faces me st st'.
Proof.
  intros Hp. unfold other_proc. intros H.
  step H m0 E0. step H m1 E1. step H t0 Et0. step H t1 Et1.
  eapply kept_by_faces_trans; [by apply (kept_push st otherproc)|].
  destruct (negb inward); [|simplify_eq; apply kept_by_faces_refl].
  step H s1 H1. simplify_eq.
  eapply kept_by_faces_trans; [by eapply kept_remove_pair|]. apply kept_dellist.
Qed.

Lemma face_step_kept (icell iface : nat) (ns ns' : nat) (st st' : State) :
  face_step me neigh_decode icell (Ok (ns, st)) iface = Ok (ns', st') →
  kept_by_faces me st st'.
Proof.
  unfold face_step. cbn [mbind result_bind]. intros H.
  step H n En. case_bool_decide; [simplify_eq; apply kept_by_faces_refl|].
  step H cell Ecell. case_bool_decide; [done|].
  step H ocell Eo. case_bool_decide; [done|].
  step H m0 E0. step H t0 Et0. step H oc Eoc.
  case_bool_decide.
  - by eapply same_proc_kept.
  - by eapply other_proc_kept.
Qed.

Lemma faces_kept (icell : nat) (faces : list nat) (ns ns' : nat) (st st' : State) :
  foldl (face_step me neigh_decode icell) (Ok (ns, st)) faces = Ok (ns', st') →
  kept_by_faces me st st'.
Proof.
  revert ns st. induction faces as [|f faces IH]; intros ns st H; cbn [foldl] in H.
  - simplify_eq. apply kept_by_faces_refl.
  - destruct (face_step me neigh_decode icell (Ok (ns, st)) f) as [[ns1 st1]|e] eqn:E.
    + eapply kept_by_faces_trans; [by eapply face_step_kept|by eapply IH].
    + exfalso. clear -H. induction faces as [|g faces IH]; [done|]. by apply IH.
Qed.

(** X19: The pass over the faces of the owned cells neither adds, removes nor
    moves a triangle: when it returns, the triangle list holds the same
    triangles up to their cell IDs, the cells are as they were up to their
    lists of triangles, and the delete list and the send buffer have only
    grown at the end, the buffer by faces for other processes. *)
Theorem local_pass_keeps (nglocal : nat) (st st' : State) :
  local_pass me neigh_decode nglocal st = Ok st' → kept_by_faces me st st'.
Proof.
  unfold local_pass. generalize (seq 0 nglocal) as ics.
  intros ics. revert st. induction ics as [|i ics IH]; intros st H; cbn [foldl] in H.
  - simplify_eq. apply kept_by_faces_refl.
  - destruct (cell_step me neigh_decode (Ok st) i) as [st1|e] eqn:E.
    + eapply kept_by_faces_trans; [|by eapply IH].
      unfold cell_step in E. cbn [mbind result_bind] in E.
      step E cell Ecell. case_bool_decide; [simplify_eq; apply kept_by_faces_refl|].
      case_bool_decide; [simplify_eq; apply kept_by_faces_refl|].
      step E r Er. destruct r as [ns1 st2]. simplify_eq. by eapply faces_kept.
    + exfalso. clear -H. induction ics as [|g ics IH]; [done|]. by apply IH.
Qed.

Lemma kept_by_recv_refl (st : State) : kept_by_recv 0 st st.
Proof.
  split; [exists []; by rewrite app_nil_r|]. split; [apply same_but_list_refl|].
  repeat split; try done. exists []. by rewrite app_nil_r.
Qed.

Lemma kept_by_recv_trans (n m : nat) (a b c : State) :
  kept_by_recv n a b → kept_by_recv m b c → kept_by_recv (n + m) a c.
Proof.
  intros ((new & Ht & Hl) & Hc & Hn & Hf & (dl & Hd) & Hp & Hb)
         ((new' & Ht' & Hl') & Hc' & Hn' & Hf' & (dl' & Hd') & Hp' & Hb').
  split; [exists (new ++ new'); rewrite Ht', Ht, app_assoc, length_app; split; [done|lia]|].
  split; [by eapply same_but_list_trans|].
  repeat split; try congruence. exists (dl ++ dl'). by rewrite Hd', Hd, app_assoc.
Qed.

(** One received face: it is adopted, with two new triangles, when the
    cell has no triangle on the face and the normal is not inward. *)
Lemma recv_step_kept (st st' : State) (d : SendDatum) :
  recv_step new_tri (Ok st) d = Ok st' →
  ∃ k, k ≤ 1 ∧ kept_by_recv k st st'.
Proof.
  unfold recv_step. cbn [mbind result_bind]. intros H.
  step H n En. destruct (_ && _); [simplify_eq; exists 0; split; [lia|apply kept_by_recv_refl]|].
  step H s1 H1.
  assert (∃ k, k ≤ 1 ∧ kept_by_recv k st s1 ∧ facetris s1 = facetris st) as (k & Hk & K1 & Hf).
  { clear H. destruct (bool_decide (n = 0)); [|simplify_eq; exists 0; split; [lia|split; [apply kept_by_recv_refl|done]]].
    step H1 cell Ecell.
    rewrite memcpy_add_tri in H1 by done. cbn [mbind result_bind] in H1.
    rewrite retag_last in H1 by done. cbn [mbind result_bind] in H1.
    rewrite memcpy_add_tri in H1 by (simpl; rewrite length_app; simpl; lia).
    cbn [mbind result_bind tris set_tris] in H1.
    rewrite retag_last in H1 by (rewrite length_app; simpl; lia).
    cbn [mbind result_bind] in H1.
    apply append_pair_cells in H1 as [Hc Hs1]. cbn in Hc.
    exists 1. split; [lia|]. rewrite Hs1. split; [|done].
    split; [eexists [_; _]; split; [|done]; cbn; by rewrite <- (assoc app)|].
    split; [done|]. repeat split; try done. exists []. by rewrite app_nil_r. }
  exists k. split; [done|].
  replace k with (k + 0) by lia. eapply kept_by_recv_trans; [exact K1|].
  clear H1. destruct (bool_decide (n = 2)); [|simplify_eq; apply kept_by_recv_refl].
  step H m0 E0. step H m1 E1. step H t0 Et0.
  destruct (negb _); [simplify_eq; apply kept_by_recv_refl|].
  step H cell Ecell. step H s2 H2. simplify_eq.
  apply remove_pair_cells in H2 as [Hc Hs2]. rewrite Hs2.
  split; [exists []; by rewrite app_nil_r|]. split; [done|].
  repeat split; try done. by eexists.
Qed.

(** X22: The pass over the received faces never touches a triangle of the list:
    it puts two new triangles behind them for each face it adopts, at most
    one for each record received; the cells are as they were up to their
    lists of triangles, and the tally and the send buffer are untouched. *)
Theorem recv_pass_keeps (bufrecv : list SendDatum) (st st' : State) :
  recv_pass new_tri bufrecv st = Ok st' →
  ∃ nadopt, nadopt ≤ length bufrecv ∧ kept_by_recv nadopt st st'.
Proof.
  unfold recv_pass. revert st. induction bufrecv as [|d ds IH]; intros st H; cbn [foldl] in H.
  - simplify_eq. exists 0. split; [done|]. apply kept_by_recv_refl.
  - destruct (recv_step new_tri (Ok st) d) as [st1|e] eqn:E.
    + destruct (recv_step_kept _ _ _ E) as (k & Hk & K1).
      destruct (IH _ H) as (n & Hn & K2).
      exists (k + n). split; [cbn; lia|]. by eapply kept_by_recv_trans.
    + exfalso. clear -H. induction ds as [|g ds IH]; [done|]. by apply IH.
Qed.

End cleanup_frame.

Section reader_examples.
Import Ingest Reader ReaderExamples.
Local Open Scope Z_scope.

Lemma block222_hash_injective : hash_injective block222_hash.
Proof.
  intros a b i Ha%elem_of_list_to_map_2 Hb%elem_of_list_to_map_2.
  cbn in Ha, Hb.
  repeat (apply elem_of_cons in Ha as [Ha|Ha]; [simplify_eq|]);
    try (by apply elem_of_nil in Ha);
    repeat (apply elem_of_cons in Hb as [Hb|Hb]; [by simplify_eq|]);
    by apply elem_of_nil in Hb.
Qed.

Lemma read_corners_one_pass_witness :
  read_corners block222 block222_hash (3, 3, 3) centre_file [] block222_cvalues
  = Some (Done centre_cvalues).
Proof.
  etrans; [apply read_corners_one_pass; vm_compute; lia|]. by vm_compute.
Defined.

Lemma corners_reach_their_cells_witness :
  is_Some (sample block222 centre_file 1 1 1) ∧
  entry centre_cvalues 0 7 = sample block222 centre_file 1 1 1.
Proof.
  apply (corners_reach_their_cells block222 block222_hash (3, 3, 3) centre_file []
           block222_cvalues centre_cvalues 0 0 0 0%nat true true true).
  - unfold extents_ok. vm_compute. repeat split; by intros.
  - by intros.
  - apply block222_hash_injective.
  - vm_compute. lia.
  - by vm_compute.
  - unfold in_block. vm_compute. repeat split; by intros.
  - by vm_compute.
  - exists 0. by vm_compute.
Defined.

Lemma read_corners_frame_witness :
  length centre_cvalues = length block222_cvalues ∧
  ∀ i, length <$> centre_cvalues !! i = length <$> block222_cvalues !! i ∧
       ((∀ a, block222_hash !! a ≠ Some i) → centre_cvalues !! i = block222_cvalues !! i).
Proof.
  apply (read_corners_frame block222 block222_hash (3, 3, 3) centre_file []).
  - vm_compute. lia.
  - by vm_compute.
Defined.

(** The samples of the plane fill two chunks; a non-zero last sample, at
    the corner (100, 100) of the lattice, aborts the second. *)
Example read_corners_two_chunks :
  read_corners plane ∅ (101, 101, 0) (plane_file 0) [] [] = Some (Done []) ∧
  read_corners plane ∅ (101, 101, 0) (plane_file 9) [] []
  = Some (Abort (Raised BoundaryNotZero)) ∧
  read_corners plane ∅ (100, 101, 0) (plane_file 0) [] []
  = Some (Abort CornerFileMismatch).
Proof. by vm_compute. Qed.

Lemma types_reach_their_cells_witness :
  ∃ sv, read_types block222 block222_hash (2, 2, 2) types_file [] (replicate 8 1)
        = Some (Done sv) ∧
        length sv = 8%nat ∧
        ∀ icell : nat,
          (∀ a, 0 ≤ a < ntypes block222 → block222_hash !! a = Some icell →
                is_Some (types_file !! Z.to_nat a) ∧ sv !! icell = types_file !! Z.to_nat a) ∧
          ((∀ a, 0 ≤ a < ntypes block222 → block222_hash !! a ≠ Some icell) →
           sv !! icell = replicate 8 1 !! icell).
Proof.
  apply (types_reach_their_cells block222 block222_hash 2 2 2 types_file [] (replicate 8 1)).
  - apply block222_hash_injective.
  - intros a i Ha%elem_of_list_to_map_2. cbn in Ha.
    repeat (apply elem_of_cons in Ha as [Ha|Ha]; [simplify_eq; cbn; lia|]).
    by apply elem_of_nil in Ha.
  - vm_compute. lia.
Defined.

Example read_types_block :
  read_types block222 block222_hash (2, 2, 2) types_file [] (replicate 8 1)
  = Some (Done types_file).
Proof. by vm_compute. Qed.


Example create_hash_row2 :
  create_hash row2 row2_corner row2_size 1 row2_cells
  = Some (<[0 := 2%nat]> (<[1 := 0%nat]> ∅)).
Proof. by vm_compute. Qed.

End reader_examples.

Section command_examples.
Import Command CommandExamples.
Import String.StringSyntax.
Local Open Scope string_scope.

Lemma accepted_threshold_witness :
  (∃ q : Qc, thresh settings = Fin q ∧ (0 < q)%Qc ∧ (q < Qc_of_Z 255)%Qc ∧
             ∀ v : Z, Qc_of_Z v ≠ q) ∧
  (∀ v : Z, (of_int v <=? thresh settings)%D = (of_int v <? thresh settings)%D) ∧
  (3%Z = 2%Z → Ingest.nz (lattice settings) = 1%Z).
Proof.
  apply (accepted_threshold find_fix fix_style fix_igroup true true false false false 3
           find_group inumeric numeric check_uniform_group args settings).
  reflexivity.
Defined.

Lemma group_name_place_witness :
  ∃ pairs,
    drop 6 args = flatten pairs ∧
    match last_place "group" pairs with
    | None => sgroup_name args (options settings) = None
    | Some k =>
        ∃ v, pairs !! k = Some ("group", v) ∧
             args !! (6 + (2 * k + 1))%nat = Some v ∧
             sgroup_name args (options settings) = args !! (2 * k + 1)%nat
    end.
Proof.
  apply (group_name_place find_fix fix_style fix_igroup true true false false false 3
           find_group inumeric numeric check_uniform_group args settings).
  reflexivity.
Defined.

(** The arguments name the surface group [inner]; the name [command]
    looks up is the second argument of the command. *)
Example group_name_read :
  run args = Some (Done settings) ∧
  sgroup_name args (options settings) = Some "2".
Proof. by vm_compute. Qed.

(** A keyword without a value, an unknown keyword, a fix that does not
    exist and a whole number as threshold abort the command. *)
Example command_aborts :
  run ["all"; "2"; "2"; "2"; "corners.bin"; "127.5"; "type"] = Some (Abort InvalidCommand) ∧
  run ["all"; "2"; "2"; "2"; "corners.bin"; "127.5"; "push"; "1"]
  = Some (Abort InvalidCommand) ∧
  run ["all"; "2"; "2"; "2"; "corners.bin"; "127.5"; "store"; "none"] = Some (Abort NoFix) ∧
  run ["all"; "2"; "2"; "2"; "corners.bin"; "0"] = Some (Abort InvalidCommand) ∧
  run ["all"; "2"; "2"; "2"; "corners.bin"] = Some (Abort IllegalCommand).
Proof. by vm_compute. Qed.

End command_examples.

Section squares_examples.
Import Squares SquareEdges.

Lemma squares_points_on_box_witness :
  ∃ e e', e ≠ e' ∧
    crossed (Fin (Q2Qc (255 # 2))) saddle_above e = true ∧
    crossed (Fin (Q2Qc (255 # 2))) saddle_above e' = true ∧
    on_edge saddle_above e (Pt zero (Fin (Q2Qc (29 # 40))) zero) ∧
    on_edge saddle_above e' (Pt (Fin (Q2Qc (11 # 40))) one zero).
Proof.
  apply (squares_points_on_box (Q2Qc (255 # 2)) saddle_above
           (Pt zero (Fin (Q2Qc (29 # 40))) zero, Pt (Fin (Q2Qc (11 # 40))) one zero)).
  - exists (Qc_of_Z 0), (Qc_of_Z 0), (Qc_of_Z 1), (Qc_of_Z 1).
    repeat (split; [by vm_compute|]). by vm_compute.
  - vm_compute. apply list_elem_of_here.
Defined.


End squares_examples.

Section cube_examples_more.
Import Cubes CubeTests CubeBox CubeExamples.
Local Open Scope Z_scope.

Lemma test_interior_flips_witness :
  match test_interior half far 0 0 (rows 1) (rows 1) (rows 1) (fun _ _ _ => 0) 7 4 with
  | Done b =>
      test_interior half far 0 0 (rows 1) (rows 1) (rows 1) (fun _ _ _ => 0) (- 7) 4
      = Done (negb b) ∧
      ∀ s', (0 < 7 ↔ 0 < s') → s' ≠ 0 →
            test_interior half far 0 0 (rows 1) (rows 1) (rows 1) (fun _ _ _ => 0) s' 4
            = Done b
  | Abort e =>
      test_interior half far 0 0 (rows 1) (rows 1) (rows 1) (fun _ _ _ => 0) (- 7) 4
      = Abort e
  end.
Proof.
  apply (test_interior_flips half far 0 0 (rows 1) (rows 1) (rows 1) (fun _ _ _ => 0) 7 4).
  lia.
Defined.

Lemma tunnel_centre_in_box_witness :
  (crossing_edges half far ≠ [] → in_box far (tunnel_centre half far)) ∧
  (crossing_edges half far = [] → tunnel_centre half far = Pt NaN NaN NaN).
Proof.
  apply (tunnel_centre_in_box (Q2Qc (255 # 2)) far).
  exists (Qc_of_Z 0), (Qc_of_Z 0), (Qc_of_Z 0), (Qc_of_Z 1), (Qc_of_Z 1), (Qc_of_Z 1).
  repeat (split; [by vm_compute|]). by vm_compute.
Defined.

End cube_examples_more.

Section compress_examples.
Import Cleanup Examples Compress CompressExamples.

Lemma compress_keeps_triangles_witness :
  ∃ st',
    compress grid_hash pair_first = Done st' ∧
    length (tris st') = length (tris pair_first) - length (dellist pair_first) ∧
    dellist st' = [] ∧
    Forall2 (same_triangles (tris pair_first) (tris st')) (cells pair_first) (cells st') ∧
    consistent grid_hash (tris st') (length (tris st')) (cells st') [].
Proof.
  apply (compress_keeps_triangles grid_hash pair_first).
  - by apply (bool_decide_unpack _); vm_compute.
  - intros d Hd. cbn in Hd |- *.
    repeat (apply elem_of_cons in Hd as [->|Hd]; [lia|]). by apply elem_of_nil in Hd.
  - split; [cbn; lia|]. split.
    + intros icell cell Hc.
      destruct icell as [|[|icell]]; simplify_eq/=.
      * split; [lia|]. split; [by apply (bool_decide_unpack _); vm_compute|].
        intros e He. apply list_elem_of_singleton in He as ->.
        split; [lia|]. split; [by apply (bool_decide_unpack _); vm_compute|].
        by exists inner_triA.
      * split; [lia|]. split; [constructor|].
        intros e He. by apply elem_of_nil in He.
    + intros e He Hdl. cbn in He, Hdl.
      destruct e as [|[|[|e]]]; [| |clear He Hdl|lia].
      * exfalso. apply Hdl. by apply (bool_decide_unpack _); vm_compute.
      * exfalso. apply Hdl. by apply (bool_decide_unpack _); vm_compute.
      * exists inner_triA, 0, (cellA 0 1 [2; 1; 2] 1).
        repeat split; try done. apply list_elem_of_here.
Defined.

Lemma compress_last_deleted_witness :
  compress grid_hash pair_last = Abort MovedTriNotFound.
Proof.
  apply (compress_last_deleted grid_hash pair_last (face_tri1 11 1) 0 (cellA 0 1 [0; 1; 2] 1)).
  - by apply (bool_decide_unpack _); vm_compute.
  - intros d Hd. cbn in Hd |- *.
    repeat (apply elem_of_cons in Hd as [->|Hd]; [lia|]). by apply elem_of_nil in Hd.
  - by apply (bool_decide_unpack _); vm_compute.
  - reflexivity.
  - reflexivity.
  - reflexivity.
  - cbn. lia.
  - intros e He. apply list_elem_of_singleton in He as ->.
    by apply (bool_decide_unpack _); vm_compute.
Defined.

(** Process 0 sends the pair of the cell A and compresses its list: the
    inner triangle of A moves to the front, and A lists it there. *)
Example compress_after_send :
  (st ← raise (local_pass 0 neigh_decode 1 (tallied_state 1 (sender_state 1)));
   st' ← compress grid_hash st;
   Done (tris st', surfs <$> cells st', dellist st'))
  = Done ([inner_triA], [[0]; []], []).
Proof. by vm_compute. Qed.

Lemma both_sides_delete_once_witness :
  let st := tallied_state 1 (sender_state 1) in
  let d := mkDatum 0 0 0 1 true (face_tri0 12 (-1)) (face_tri1 12 (-1)) in
  ∃ ns' st1 st2 ci',
    face_step 0 neigh_decode 0 (Ok (3, st)) 1 = Ok (ns', st1) ∧
    recv_step new_tri (Ok st1) d = Ok st2 ∧
    cells st2 = <[0 := ci']> (cells st) ∧
    same_cell_but_surfs (cellA 0 3 [0; 1; 2] 1) ci' ∧
    [0; 1; 2] ≡ₚ 0 :: 1 :: surfs ci' ∧
    dellist st2 = dellist st ++ [0; 1] ∧
    tris st2 = tris st ∧
    bufsend st2 = bufsend st ++ [mkDatum 0 1 0 0 false (face_tri0 11 1) (face_tri1 11 1)].
Proof.
  intros st d.
  apply (both_sides_delete_once 0 neigh_decode new_tri st 0 1 1
           (cellA 0 3 [0; 1; 2] 1) (cellB 1 0 [] 0) 0 1
           (face_tri0 11 1) (face_tri1 11 1) d).
  - unfold shared_face, face_pair. repeat split; try done.
    + vm_compute. apply list_elem_of_here.
    + vm_compute. apply list_elem_of_further, list_elem_of_here.
    + vm_compute. by left.
  - discriminate.
  - reflexivity.
  - reflexivity.
Defined.

Lemma local_pass_keeps_witness :
  CleanupFrame.kept_by_faces 0 (tallied_state 1 (sender_state 1))
    (after_faces 0 1 (tallied_state 1 (sender_state 1))).
Proof.
  apply (local_pass_keeps 0 neigh_decode 1). by vm_compute.
Defined.

Lemma recv_pass_keeps_witness :
  let bufrecv := [mkDatum 0 1 0 0 false (face_tri0 11 1) (face_tri1 11 1)] in
  ∃ nadopt, nadopt ≤ 1 ∧
    CleanupFrame.kept_by_recv nadopt (tallied_state 1 receiver_state)
      (after_recv bufrecv (tallied_state 1 receiver_state)).
Proof.
  intros bufrecv.
  apply (recv_pass_keeps new_tri bufrecv (tallied_state 1 receiver_state)). by vm_compute.
Defined.

End compress_examples.

Section tally_examples.
Import Cleanup Examples.

Lemma tally_records_pairs_witness :
  ∃ st',
    tally tri_on_hex_face 2 (one_proc_pair 1) = Ok st' ∧
    cells st' = cells (one_proc_pair 1) ∧ tris st' = tris (one_proc_pair 1) ∧
    dellist st' = dellist (one_proc_pair 1) ∧
    ∀ icell c iface m0 m1,
      icell < 2 → cells (one_proc_pair 1) !! icell = Some c → iface < 6 →
      (0 < nsplit c)%Z →
      filter (fun m => face_of tri_on_hex_face (tris (one_proc_pair 1)) c m
                       = Some (Z.of_nat iface))
        (surfs c) = [m0; m1] →
      get2 (nfacetri st') icell iface = Ok 2 ∧
      get2 (facetris st') icell iface = Ok [m0; m1] ∧
      (NoDup (surfs c) → face_pair st' icell iface c m0 m1).
Proof.
  apply (tally_records_pairs tri_on_hex_face 2 (one_proc_pair 1)).
  repeat constructor.
  - intros m Hm. repeat (apply elem_of_cons in Hm as [->|Hm]; [eexists; split; by vm_compute|]).
    by apply elem_of_nil in Hm.
  - intros m Hm. repeat (apply elem_of_cons in Hm as [->|Hm]; [eexists; split; by vm_compute|]).
    by apply elem_of_nil in Hm.
Defined.

End tally_examples.

